(** * Linear-programming inverse reinforcement learning ([linear_irl.py])

    A shallow embedding of [value_iteration], [normalise], [linear_irl] and
    [irl], and the properties of the specification checked against them.

    Numbers.  The program computes with binary64 floats.  The formulation
    of the linear program, the policy and the exceptions are modelled over
    exact rationals [Q]; equality of numbers is [Qeq] ([==]).  What the
    program does because its numbers are rounded is outside these
    definitions.  The [while] loop of [value_iteration], whose termination
    depends on rounding, is modelled a second time in binary64, with the
    kernel's floats ([F64]).  A division by zero gives what the class of
    the dividend gives: [nan] or an infinity for a numpy array,
    [ZeroDivisionError] for a cvxopt matrix.

    Arrays.  Arrays that the program allocates with [np.zeros] and fills by
    index ([A], [b], [c], [V], [policy]) are lists updated with stdpp's
    insert, every index checked as numpy checks it.  The read-only dense
    arrays ([trans_probs], the inverse [tmp_inv]) are a shape and an index
    function.

    Exceptions are identified by the name of their Python class. *)

From Stdlib Require Import QArith Qabs Qminmax Lia Lqa String.
From Stdlib Require PrimFloat.
From stdpp Require Import base list.

Local Open Scope Q_scope.

(** ** Outcomes of a call: a value, a raised exception, or no answer within
    the iterations allowed (only the [while True] loop can give the last). *)

Inductive exn : Type := Raised (cls : string).

Definition IndexError : exn := Raised "IndexError".
Definition KeyError : exn := Raised "KeyError".
Definition ValueError : exn := Raised "ValueError".
Definition TypeError : exn := Raised "TypeError".
Definition LinAlgError : exn := Raised "LinAlgError".
Definition ZeroDivisionError : exn := Raised "ZeroDivisionError".

Inductive outcome (A : Type) : Type :=
  | Ok (x : A)
  | Err (e : exn)
  | Diverge.
Arguments Ok {A} x.
Arguments Err {A} e.
Arguments Diverge {A}.

#[global] Instance outcome_ret : MRet outcome := fun A x => Ok x.
#[global] Instance outcome_bind : MBind outcome := fun A B k m =>
  match m with
  | Ok x => k x
  | Err e => Err e
  | Diverge => Diverge
  end.

Definition of_lookup {A} (e : exn) (o : option A) : outcome A :=
  match o with
  | Some x => Ok x
  | None => Err e
  end.

(** [for i in l: s = body i s], stopping at the first exception. *)
Fixpoint for_each {S} (l : list nat) (body : nat -> S -> outcome S) (s : S)
  : outcome S :=
  match l with
  | [] => Ok s
  | i :: l' => s' ← body i s; for_each l' body s'
  end.

(** [for i in range(n)]. *)
Definition for_range {S} (n : nat) (body : nat -> S -> outcome S) (s : S)
  : outcome S :=
  for_each (seq 0 n) body s.

(** [[f(i) for i in l]], stopping at the first exception. *)
Fixpoint map_each {B} (f : nat -> outcome B) (l : list nat)
  : outcome (list B) :=
  match l with
  | [] => Ok []
  | i :: l' => y ← f i; ys ← map_each f l'; Ok (y :: ys)
  end.

(** ** numpy primitives on vectors and matrices of rationals *)

Abbreviation vec := (list Q).
Abbreviation matrix := (list (list Q)).

(** [np.zeros(n)] and [np.zeros([m, n])]. *)
Definition zeros (n : nat) : vec := replicate n 0.
Definition zeros2 (m n : nat) : matrix := replicate m (zeros n).

(** [np.max(l)] and [np.min(l)]: a zero-size array has no maximum. *)
Definition np_max (l : vec) : outcome Q :=
  match l with
  | [] => Err ValueError
  | x :: t => Ok (fold_left Qmax t x)
  end.

Definition np_min (l : vec) : outcome Q :=
  match l with
  | [] => Err ValueError
  | x :: t => Ok (fold_left Qmin t x)
  end.

(** [np.argmax(l)]: the index of the first occurrence of the maximum.
    [best] is the largest value seen so far, [bi] its index, [i] the index of
    the head of the remaining list. *)
Fixpoint argmax_from (best : Q) (bi i : nat) (l : vec) : nat :=
  match l with
  | [] => bi
  | x :: t =>
      if Qlt_le_dec best x then argmax_from x i (S i) t
      else argmax_from best bi (S i) t
  end.

Definition np_argmax (l : vec) : outcome nat :=
  match l with
  | [] => Err ValueError
  | x :: t => Ok (argmax_from x 0 1 t)
  end.

(** [v[i] = x] on a one-dimensional array. *)
Definition set_item (i : nat) (x : Q) (v : vec) : outcome vec :=
  if decide (i < length v)%nat then Ok (<[i := x]> v) else Err IndexError.

(** [A[r, c] = x] on a two-dimensional array. *)
Definition set_cell (r c : nat) (x : Q) (A : matrix) : outcome matrix :=
  match A !! r with
  | None => Err IndexError
  | Some row =>
      if decide (c < length row)%nat then Ok (<[r := <[c := x]> row]> A)
      else Err IndexError
  end.

(** [A[r, :n] = w]: the slice [:n] is clipped to the row; [w] must have the
    length of the slice, or length one (it is then broadcast). *)
Definition set_row_prefix (r n : nat) (w : vec) (A : matrix) : outcome matrix :=
  match A !! r with
  | None => Err IndexError
  | Some row =>
      let k := (n `min` length row)%nat in
      if decide (length w = k) then Ok (<[r := w ++ drop k row]> A)
      else match w with
           | [x] => Ok (<[r := replicate k x ++ drop k row]> A)
           | _ => Err ValueError
           end
  end.

(** [v[lo:hi] = x] for a scalar [x]: the slice is clipped to the array. *)
Definition fill_slice (lo hi : nat) (x : Q) (v : vec) : vec :=
  imap (fun i y => if decide (lo <= i < hi)%nat then x else y) v.

(** ** The environment

    [env.P[s][a]] is a list of transition tuples
    [(prob, next_state, reward, done)].  The dictionaries of the
    environments are keyed by [0 .. nS-1] and [0 .. nA-1] in increasing
    order, so they are lists indexed by the key; a missing key is a
    [KeyError]. *)

Record transition : Type := Transition {
  prob : Q;
  next_state : nat;
  reward : Q;
  done : bool
}.

Record env : Type := Env {
  nS : nat;
  nA : nat;
  P : list (list (list transition))
}.

(** ** [value_iteration] *)

Section ValueIteration.
Variable e : env.
Variable theta : Q.
Variable discount_factor : Q.

(** The inner loop of [one_step_lookahead] for one action [a]: [A[a]]
    starts at 0 and receives [prob * (reward + discount_factor *
    V[next_state])] for every transition of [env.P[state][a]]. *)
Fixpoint lookahead_sum (V : vec) (ts : list transition) (acc : Q)
  : outcome Q :=
  match ts with
  | [] => Ok acc
  | t :: ts' =>
      v ← of_lookup IndexError (V !! next_state t);
      lookahead_sum V ts' (acc + prob t * (reward t + discount_factor * v))
  end.

Definition lookahead_action (state : nat) (V : vec) (a : nat) : outcome Q :=
  by_a ← of_lookup KeyError (P e !! state);
  ts ← of_lookup KeyError (by_a !! a);
  lookahead_sum V ts 0.

(** [one_step_lookahead(state, V)]: the vector of length [env.nA] of the
    expected value of each action. *)
Definition one_step_lookahead (state : nat) (V : vec) : outcome vec :=
  map_each (lookahead_action state V) (seq 0 (nA e)).

(** The body of [for s in range(env.nS)] in the [while] loop; the state
    is [(delta, V)], and [V] is updated in place. *)
Definition sweep_state (s : nat) (st : Q * vec) : outcome (Q * vec) :=
  let '(delta, V) := st in
  A ← one_step_lookahead s V;
  best_action_value ← np_max A;
  old ← of_lookup IndexError (V !! s);
  let delta' := Qmax delta (Qabs (best_action_value - old)) in
  V' ← set_item s best_action_value V;
  Ok (delta', V').

(** One pass of the [while] body: [delta = 0], then the [for] loop. *)
Definition sweep (V : vec) : outcome (Q * vec) :=
  for_range (nS e) sweep_state (0, V).

(** [while True: ...; if delta < theta: break], at most [fuel] passes. *)
Fixpoint vi_loop (fuel : nat) (V : vec) : outcome vec :=
  match fuel with
  | O => Diverge
  | S fuel' =>
      '(delta, V') ← sweep V;
      if Qlt_le_dec delta theta then Ok V' else vi_loop fuel' V'
  end.

(** The body of the policy loop: [policy[s, best_action] = 1.0]. *)
Definition policy_state (V : vec) (s : nat) (policy : matrix)
  : outcome matrix :=
  A ← one_step_lookahead s V;
  best_action ← np_argmax A;
  set_cell s best_action 1 policy.

Definition greedy_policy (V : vec) : outcome matrix :=
  for_range (nS e) (policy_state V) (zeros2 (nS e) (nA e)).

Definition value_iteration (fuel : nat) : outcome (matrix * vec) :=
  V ← vi_loop fuel (zeros (nS e));
  policy ← greedy_policy V;
  Ok (policy, V).

End ValueIteration.

(** ** The [while] loop of [value_iteration] in binary64

    The same loop (lines 41-56) with the numbers the program has: IEEE-754
    binary64, every operation rounded to nearest, ties to even.  [float] is
    the kernel's binary64 and its operations are the machine's, so a run of
    these definitions is a run of the program's arithmetic. *)

Module F64.
Import PrimFloat.

Record transition : Type := Transition {
  prob : float;
  next_state : nat;
  reward : float;
  done : bool
}.

Record env : Type := Env {
  nS : nat;
  nA : nat;
  P : list (list (list transition))
}.

(** [np.max] of a float array: [np.maximum] keeps its left argument when it
    is a [nan] or at least the right one, so a [nan] propagates. *)
Definition np_maximum (a b : float) : float :=
  if (leb b a || is_nan a)%bool then a else b.

Definition np_max (l : list float) : outcome float :=
  match l with
  | [] => Err ValueError
  | x :: t => Ok (fold_left np_maximum t x)
  end.

(** Python's [max(delta, x)]: [x] when [x > delta], else [delta]. *)
Definition py_max (delta x : float) : float :=
  if ltb delta x then x else delta.

Definition set_item (i : nat) (x : float) (v : list float)
  : outcome (list float) :=
  if decide (i < length v)%nat then Ok (<[i := x]> v) else Err IndexError.

Section Loop.
Variable e : env.
Variable theta : float.
Variable discount_factor : float.

(** [A[a] += prob * (reward + discount_factor * V[next_state])]. *)
Fixpoint lookahead_sum (V : list float) (ts : list transition) (acc : float)
  : outcome float :=
  match ts with
  | [] => Ok acc
  | t :: ts' =>
      v ← of_lookup IndexError (V !! next_state t);
      lookahead_sum V ts'
        (add acc (mul (prob t) (add (reward t) (mul discount_factor v))))
  end.

Definition lookahead_action (state : nat) (V : list float) (a : nat)
  : outcome float :=
  by_a ← of_lookup KeyError (P e !! state);
  ts ← of_lookup KeyError (by_a !! a);
  lookahead_sum V ts zero.

Definition one_step_lookahead (state : nat) (V : list float)
  : outcome (list float) :=
  map_each (lookahead_action state V) (seq 0 (nA e)).

(** The body of [for s in range(env.nS)]. *)
Definition sweep_state (s : nat) (st : float * list float)
  : outcome (float * list float) :=
  let '(delta, V) := st in
  A ← one_step_lookahead s V;
  best_action_value ← np_max A;
  old ← of_lookup IndexError (V !! s);
  let delta' := py_max delta (abs (sub best_action_value old)) in
  V' ← set_item s best_action_value V;
  Ok (delta', V').

Definition sweep (V : list float) : outcome (float * list float) :=
  for_range (nS e) sweep_state (zero, V).

(** [while True: ...; if delta < theta: break], at most [fuel] passes. *)
Fixpoint vi_loop (fuel : nat) (V : list float) : outcome (list float) :=
  match fuel with
  | O => Diverge
  | S fuel' =>
      '(delta, V') ← sweep V;
      if ltb delta theta then Ok V' else vi_loop fuel' V'
  end.

(** Lines 41-56: the loop started from [np.zeros(env.nS)]. *)
Definition value_iteration_loop (fuel : nat) : outcome (list float) :=
  vi_loop fuel (replicate (nS e) zero).

(** [k] passes none of which meets the tolerance: the vector they reach. *)
Fixpoint unmet_passes (k : nat) (V : list float) : option (list float) :=
  match k with
  | O => Some V
  | S k' =>
      match sweep V with
      | Ok (delta, V') =>
          if ltb delta theta then None else unmet_passes k' V'
      | _ => None
      end
  end.

End Loop.

(** The change of state [s] between two value functions, as line 51
    computes it, and the [delta] that the [for] loop accumulates from the
    changes of the first [n] states. *)
Definition change (V_old V : list float) (s : nat) : float :=
  abs (sub (nth s V zero) (nth s V_old zero)).

Definition max_change (V_old V : list float) (n : nat) : float :=
  fold_left py_max (map (change V_old V) (seq 0 n)) zero.

(** Every transition list of the environment is a probability
    distribution over the states, as far as binary64 can tell: the
    probabilities are not negative and their sum, added up from 0, is 1. *)
Definition distribution (n : nat) (ts : list transition) : bool :=
  forallb (fun t => leb zero (prob t) && Nat.ltb (next_state t) n)%bool ts
  && eqb (fold_left (fun acc t => add acc (prob t)) ts zero) one.

Definition finite_mdp (e : env) : bool :=
  Nat.eqb (length (P e)) (nS e)
  && forallb (fun by_a =>
                Nat.eqb (length by_a) (nA e)
                && forallb (distribution (nS e)) by_a)%bool
             (P e)
  && (Nat.eqb (nS e) 0 || Nat.ltb 0 (nA e))%bool.

(** Three states on a cycle, one action: rewards [-2^44], [2^44] and 0. *)
Definition env_cycle : env :=
  Env 3 1
    [ [ [Transition one 1 (-0x1p+44)%float false] ];
      [ [Transition one 2 0x1p+44%float false] ];
      [ [Transition one 0 zero false] ] ].

(** Two states, one action: state 0 moves to state 1 with reward 1, and
    state 1 is absorbing with reward 0. *)
Definition env_step : env :=
  Env 2 1
    [ [ [Transition one 1 one false] ];
      [ [Transition one 1 zero false] ] ].

(** The doubles that Python reads from [0.7] and [0.001]. *)
Definition seven_tenths : float := 0x1.6666666666666p-1%float.
Definition thousandth : float := 0x1.0624dd2f1a9fcp-10%float.

End F64.

(** ** [normalise] *)

(** A numpy float after a division: finite, or one of the values numpy
    gives for a zero divisor. *)
Inductive npfloat : Type :=
  | Fin (q : Q)
  | NaN
  | PInf
  | NInf.

(** [x / y] for finite scalars: numpy warns and returns [nan] for [0/0] and
    a signed infinity for [x/0]; it does not raise. *)
Definition np_div (x y : Q) : npfloat :=
  if Qeq_dec y 0 then
    match x ?= 0 with
    | Eq => NaN
    | Gt => PInf
    | Lt => NInf
    end
  else Fin (x / y).

(** [x * r] for a finite scalar [r]. *)
Definition np_mul (x : npfloat) (r : Q) : npfloat :=
  match x with
  | Fin q => Fin (q * r)
  | NaN => NaN
  | PInf => match r ?= 0 with Eq => NaN | Gt => PInf | Lt => NInf end
  | NInf => match r ?= 0 with Eq => NaN | Gt => NInf | Lt => PInf end
  end.

(** [normalise] is duck-typed: [vals - min_val] and the division are
    those of the class of [vals].  A list or a numpy array goes through
    numpy; the column that [solvers.lp] returns is a [cvxopt.matrix], whose
    division by a scalar raises [ZeroDivisionError] when the scalar is
    zero. *)
Inductive array : Type :=
  | Ndarray (l : vec)
  | CvxoptMatrix (l : vec).

Definition entries (vals : array) : vec :=
  match vals with
  | Ndarray l => l
  | CvxoptMatrix l => l
  end.

Definition normalise (vals : array) : outcome (list npfloat) :=
  min_val ← np_min (entries vals);
  max_val ← np_max (entries vals);
  match vals with
  | Ndarray l =>
      Ok (map (fun v => np_div (v - min_val) (max_val - min_val)) l)
  | CvxoptMatrix l =>
      if Qeq_dec (max_val - min_val) 0 then Err ZeroDivisionError
      else Ok (map (fun v => np_div (v - min_val) (max_val - min_val)) l)
  end.

(** [normalise(rewards) * r_max], the last step of [linear_irl]. *)
Definition scaled_rewards (rewards : array) (r_max : Q)
  : outcome (list npfloat) :=
  normalised ← normalise rewards;
  Ok (map (fun v => np_mul v r_max) normalised).

(** ** [linear_irl] *)

(** [trans_probs], of shape [(shape0, shape0, shape2)]: [tcell T s s' a] is
    [trans_probs[s, s', a]]. *)
Record tensor : Type := Tensor {
  shape0 : nat;
  shape2 : nat;
  tcell : nat -> nat -> nat -> Q
}.

(** A square matrix held by a read-only array: its index function. *)
Definition sqmat : Type := nat -> nat -> Q.

Definition tabulate {A} (n : nat) (f : nat -> A) : list A := map f (seq 0 n).

(** The sum of [f k] for [k < n]. *)
Definition sum_range (n : nat) (f : nat -> Q) : Q :=
  fold_left (fun acc k => acc + f k) (seq 0 n) 0.

(** [np.dot(u, M)] for a vector [u] of length [n] and an [n x n] matrix. *)
Definition dot_vm (n : nat) (u : nat -> Q) (M : sqmat) : nat -> Q :=
  fun j => sum_range n (fun k => u k * M k j).

(** The dot product of two vectors held as lists; [Ax <= b] row by row. *)
Fixpoint dot (u x : vec) : Q :=
  match u, x with
  | a :: u', y :: x' => a * y + dot u' x'
  | _, _ => 0
  end.

Definition feasible (A : matrix) (b x : vec) : Prop :=
  Forall2 (fun row bi => dot row x <= bi) A b.

(** The linear program handed to the solver: minimise [c.x] subject to
    [A x <= b]. *)
Record lin_prog : Type := LinProg {
  lp_c : vec;
  lp_A : matrix;
  lp_b : vec
}.

Section LinearIRL.
(** [np.linalg.inv] on an [n x n] matrix: [None] when it raises
    [LinAlgError] (singular matrix). *)
Variable inv : nat -> sqmat -> option sqmat.
(** [solvers.lp(c, A, b)]: the entry ['x'] of the dictionary it returns,
    which is the solution column, or [None] when the solver reports that
    the program is infeasible or unbounded; an exception when the solver
    raises (a program whose matrix has not full column rank is a
    [ValueError]). *)
Variable lp : vec -> matrix -> vec -> outcome (option vec).

Variable trans_probs : tensor.
Variable policy : matrix.
Variables gamma l1 r_max : Q.

Local Abbreviation number_of_states := (shape0 trans_probs).
Local Abbreviation number_of_actions := (shape2 trans_probs).

(** [np.identity(number_of_states) - gamma * trans_probs[:, :, a_opt]]. *)
Definition bellman_matrix (a_opt : nat) : sqmat :=
  fun s s' =>
    (if decide (s = s') then 1 else 0) - gamma * tcell trans_probs s s' a_opt.

(** [- np.dot(trans_probs[i, :, a_opt] - trans_probs[i, :, a], tmp_inv)]. *)
Definition policy_row (i a_opt a : nat) (tmp_inv : sqmat) : vec :=
  tabulate number_of_states (fun j =>
    - dot_vm number_of_states
        (fun k => tcell trans_probs i k a_opt - tcell trans_probs i k a)
        tmp_inv j).

(** [np.argmax(policy[i])]. *)
Definition chosen_action (i : nat) : outcome nat :=
  row ← of_lookup IndexError (policy !! i);
  np_argmax row.

(** The body of [for a in range(number_of_actions)]; the state is
    [(cnt, A)].  It only runs with [a_opt < number_of_actions], hence
    [number_of_actions >= 1], where the subtraction on [nat] is Python's. *)
Definition emit_policy_rows (i a_opt : nat) (tmp_inv : sqmat) (a : nat)
    (st : nat * matrix) : outcome (nat * matrix) :=
  let '(cnt, A) := st in
  if decide (a = a_opt) then Ok (cnt, A)
  else
    let w := policy_row i a_opt a tmp_inv in
    let r1 := (i * (number_of_actions - 1) + cnt)%nat in
    let r2 := (number_of_states * (number_of_actions - 1)
               + i * (number_of_actions - 1) + cnt)%nat in
    A1 ← set_row_prefix r1 number_of_states w A;
    A2 ← set_row_prefix r2 number_of_states w A1;
    A3 ← set_cell r2 (number_of_states + i) 1 A2;
    Ok (S cnt, A3).

(** The body of the first [for i in range(number_of_states)]; the state
    is [(A, calls)], where [calls] is a ghost counter of the calls of
    [np.linalg.inv].  Slicing [trans_probs[:, :, a_opt]] raises
    [IndexError] when [a_opt] is not an action. *)
Definition policy_constraints (i : nat) (st : matrix * nat)
  : outcome (matrix * nat) :=
  let '(A, calls) := st in
  a_opt ← chosen_action i;
  if decide (a_opt < number_of_actions)%nat then
    tmp_inv ← of_lookup LinAlgError
                (inv number_of_states (bellman_matrix a_opt));
    '(_, A') ← for_range number_of_actions
                 (emit_policy_rows i a_opt tmp_inv) (0%nat, A);
    Ok (A', S calls)
  else Err IndexError.

(** The offset of the rows that follow the policy constraints.  The
    loops that use it run after the first loop, which raises when there is
    a state and no action: the subtraction on [nat] is Python's. *)
Definition bounds_offset : nat :=
  (2 * number_of_states * (number_of_actions - 1))%nat.

(** [A[off + i, i] = 1; b[off + i] = r_max]. *)
Definition upper_bound_row (i : nat) (st : matrix * vec)
  : outcome (matrix * vec) :=
  let '(A, b) := st in
  A' ← set_cell (bounds_offset + i) i 1 A;
  b' ← set_item (bounds_offset + i) r_max b;
  Ok (A', b').

(** [A[off + nS + i, i] = -1; b[off + nS + i] = 0]. *)
Definition lower_bound_row (i : nat) (st : matrix * vec)
  : outcome (matrix * vec) :=
  let '(A, b) := st in
  A' ← set_cell (bounds_offset + number_of_states + i) i (-1) A;
  b' ← set_item (bounds_offset + number_of_states + i) 0 b;
  Ok (A', b').

(** [A[off + 2 nS + i, i] = 1; A[off + 2 nS + i, 2 nS + i] = -1]. *)
Definition slack_row_1 (i : nat) (A : matrix) : outcome matrix :=
  A' ← set_cell (bounds_offset + 2 * number_of_states + i) i 1 A;
  set_cell (bounds_offset + 2 * number_of_states + i)
           (2 * number_of_states + i) (-1) A'.

(** [A[off + 3 nS + i, i] = 1; A[off + 3 nS + i, 2 nS + i] = -1]. *)
Definition slack_row_2 (i : nat) (A : matrix) : outcome matrix :=
  A' ← set_cell (bounds_offset + 3 * number_of_states + i) i 1 A;
  set_cell (bounds_offset + 3 * number_of_states + i)
           (2 * number_of_states + i) (-1) A'.

(** [c[nS:2 nS] = -1; c[2 nS:] = l1], once per state. *)
Definition objective (i : nat) (c : vec) : outcome vec :=
  let c1 := fill_slice number_of_states (2 * number_of_states) (-1) c in
  Ok (fill_slice (2 * number_of_states) (length c1) l1 c1).

(** The formulation: everything before the call of the solver.  The
    result is the program and the number of calls of [np.linalg.inv]. *)
Definition linear_irl_lp : outcome (lin_prog * nat) :=
  let A := zeros2 (2 * number_of_states * (number_of_actions + 1))
                  (3 * number_of_states) in
  let b := zeros (2 * number_of_states * (number_of_actions + 1)) in
  let c := zeros (3 * number_of_states) in
  '(A, calls) ← for_range number_of_states policy_constraints (A, 0%nat);
  '(A, b) ← for_range number_of_states upper_bound_row (A, b);
  '(A, b) ← for_range number_of_states lower_bound_row (A, b);
  A ← for_range number_of_states slack_row_1 A;
  A ← for_range number_of_states slack_row_2 A;
  c ← for_range number_of_states objective c;
  Ok (LinProg c A b, calls).

(** [sol['x'][:number_of_states]], then [normalise(rewards) * r_max].
    Subscripting [None] raises [TypeError].  The solved block is a slice
    of the solver's column, a [cvxopt.matrix]. *)
Definition linear_irl : outcome (list npfloat) :=
  '(prog, _) ← linear_irl_lp;
  sol_x ← lp (lp_c prog) (lp_A prog) (lp_b prog);
  x ← of_lookup TypeError sol_x;
  let rewards := CvxoptMatrix (take number_of_states x) in
  scaled_rewards rewards r_max.

End LinearIRL.

(** ** [irl] *)

(** [T[s][s'][a] = x]. *)
Definition tensor_set (s s' a : nat) (x : Q) (T : tensor) : outcome tensor :=
  if decide (s < shape0 T /\ s' < shape0 T /\ a < shape2 T)%nat then
    Ok (Tensor (shape0 T) (shape2 T)
          (fun i j k =>
             if decide (i = s /\ j = s' /\ k = a) then x else tcell T i j k))
  else Err IndexError.

(** The four arrays handed to the plots. *)
Record artifacts : Type := Artifacts {
  true_rewards : vec;
  true_values : vec;
  recovered_rewards : list npfloat;
  recovered_values : vec
}.

Section Irl.
Variable inv : nat -> sqmat -> option sqmat.
Variable lp : vec -> matrix -> vec -> outcome (option vec).
Variable e : env.
Variables gamma l1 r_max : Q.

(** The body of [for action, value_2 in value.items()]. *)
Definition read_transition (state : nat) (value : list (list transition))
    (action : nat) (st : tensor * vec) : outcome (tensor * vec) :=
  let '(trans_probs, rewards) := st in
  value_2 ← of_lookup KeyError (value !! action);
  t ← of_lookup IndexError (value_2 !! 0%nat);
  trans_probs' ← tensor_set state (next_state t) action (prob t) trans_probs;
  rewards' ← set_item (next_state t) (reward t) rewards;
  Ok (trans_probs', rewards').

(** The body of [for state, value in env.P.items()]. *)
Definition read_state (state : nat) (st : tensor * vec)
  : outcome (tensor * vec) :=
  value ← of_lookup KeyError (P e !! state);
  for_range (length value) (read_transition state value) st.

(** [irl], up to the arrays it plots.  [env.observation_space.n] and
    [env.action_space.n] are [env.nS] and [env.nA].  [fuel] bounds the
    passes of each call of [value_iteration]; the second call uses the
    defaults [theta = 0.001] and [discount_factor = 0.9], as the first uses
    the default [theta]. *)
Definition irl (fuel : nat) : outcome artifacts :=
  let trans_probs := Tensor (nS e) (nA e) (fun _ _ _ => 0) in
  let rewards := zeros (nS e) in
  '(trans_probs, rewards) ←
    for_range (length (P e)) read_state (trans_probs, rewards);
  '(policy, values) ← value_iteration e (1 # 1000) gamma fuel;
  recovered ← linear_irl inv lp trans_probs policy gamma l1 r_max;
  '(_, recovered_vals) ← value_iteration e (1 # 1000) (9 # 10) fuel;
  Ok (Artifacts rewards values recovered recovered_vals).

End Irl.

(** ** Sample inputs

    Small concrete instances of the two external routines and of the
    inputs, on which the definitions above can be run. *)

Module Sample.

(** The inverse of a matrix of size at most 2 (size 2 by the adjugate);
    [None] for a singular matrix, as [np.linalg.inv] raises. *)
Definition inv_small (n : nat) (M : sqmat) : option sqmat :=
  match n with
  | O => Some M
  | S O => if Qeq_dec (M O O) 0 then None else Some (fun _ _ => / M O O)
  | S (S O) =>
      let d := M O O * M 1%nat 1%nat - M O 1%nat * M 1%nat O in
      if Qeq_dec d 0 then None
      else Some (fun i j =>
             match i, j with
             | O, O => M 1%nat 1%nat / d
             | O, S O => - M O 1%nat / d
             | S O, O => - M 1%nat O / d
             | _, _ => M O O / d
             end)
  | _ => None
  end.

(** A solver that answers with the same vector whatever the program, and
    one that reports that there is no solution. *)
Definition lp_const : vec -> matrix -> vec -> outcome (option vec) :=
  fun _ _ _ => Ok (Some [1; 2; 3; 4; 5; 6]).
Definition lp_other : vec -> matrix -> vec -> outcome (option vec) :=
  fun _ _ _ => Ok (Some [2; 1; 3; 4; 5; 6]).
Definition lp_none : vec -> matrix -> vec -> outcome (option vec) :=
  fun _ _ _ => Ok None.

(** One state, one action: a self-loop. *)
Definition T1 : tensor := Tensor 1 1 (fun _ _ _ => 1).

(** Two states, two actions: from state 0, action 0 moves to state 1 and
    action 1 stays; state 1 is absorbing. *)
Definition T2 : tensor :=
  Tensor 2 2 (fun s s' a =>
    match s, s', a with
    | O, S O, O => 1
    | O, O, S O => 1
    | S O, S O, _ => 1
    | _, _, _ => 0
    end).

(** The environment of [T2], with reward 1 for arriving in state 1. *)
Definition env2 : env :=
  Env 2 2
    [ [ [Transition 1 1 1 false]; [Transition 1 0 0 false] ];
      [ [Transition 1 1 1 false]; [Transition 1 1 1 false] ] ].

(** One state with a self-loop of reward 0. *)
Definition env_zero : env := Env 1 1 [ [ [Transition 1 0 0 false] ] ].

(** One state with a self-loop of reward 1. *)
Definition env_one : env := Env 1 1 [ [ [Transition 1 0 1 false] ] ].

(** Two states, one action: from state 0 a fair coin decides between
    staying (reward 1) and moving to state 1 (reward 3); state 1 is
    absorbing. *)
Definition env_coin : env :=
  Env 2 1
    [ [ [Transition (1 # 2) 0 1 false; Transition (1 # 2) 1 3 false] ];
      [ [Transition 1 1 0 false] ] ].

End Sample.

(** ** Vocabulary of the statements about the linear program *)

Section Formulated.
Variable inv : nat -> sqmat -> option sqmat.
Variable trans_probs : tensor.
Variable policy : matrix.
Variable gamma : Q.

Local Abbreviation number_of_states := (shape0 trans_probs).
Local Abbreviation number_of_actions := (shape2 trans_probs).

(** The number of actions other than [a_opt] below [a]: the value of
    [cnt] when the inner loop reaches [a], hence the place of the rows of
    [a] among the rows of its state. *)
Definition slot (a_opt a : nat) : nat :=
  if decide (a <= a_opt)%nat then a else (a - 1)%nat.

(** The action [a*] of state [i] and the inverse [M_i]. *)
Definition a_star (i : nat) : nat :=
  match chosen_action policy i with
  | Ok a => a
  | _ => 0%nat
  end.

Definition M_star (i : nat) : sqmat :=
  match inv number_of_states (bellman_matrix trans_probs gamma (a_star i)) with
  | Some M => M
  | None => fun _ _ => 0
  end.

(** [(P[i,:,a*] - P[i,:,a]) . M_i], a vector over the states. *)
Definition margin (i a : nat) : vec :=
  tabulate number_of_states
    (dot_vm number_of_states
       (fun k => tcell trans_probs i k (a_star i) - tcell trans_probs i k a)
       (M_star i)).

(** The index of the first policy-constraint row of state [i] and action
    [a]; the second one is [number_of_states * (number_of_actions - 1)]
    rows further. *)
Definition policy_row_index (i a : nat) : nat :=
  (i * (number_of_actions - 1) + slot (a_star i) a)%nat.

(** The inputs on which the first loop raises nothing: every state has a
    policy row, its first maximiser is an action, and the matrix of that
    action can be inverted. *)
Definition well_posed : Prop :=
  forall i, (i < number_of_states)%nat ->
    exists a, chosen_action policy i = Ok a /\
              (a < number_of_actions)%nat /\
              is_Some (inv number_of_states
                         (bellman_matrix trans_probs gamma a)).

Variables l1 r_max : Q.

(** The rows after the policy constraints, and the objective. *)
Definition bound_row (i : nat) (x : Q) : vec :=
  <[i := x]> (zeros (3 * number_of_states)).

Definition slack_row (i : nat) : vec :=
  <[(2 * number_of_states + i)%nat := -1]> (bound_row i 1).

Definition objective_entry (j : nat) : Q :=
  if decide (j < number_of_states)%nat then 0
  else if decide (j < 2 * number_of_states)%nat then -1
  else l1.

(** What [linear_irl] hands to the solver, row by row.  The decision
    vector is [R ++ u ++ z], each block of length [number_of_states]. *)
Record formulation (prog : lin_prog) : Prop := {
  f_rows :
    length (lp_A prog)
      = (2 * number_of_states * (number_of_actions + 1))%nat;
  f_bounds :
    length (lp_b prog)
      = (2 * number_of_states * (number_of_actions + 1))%nat;
  f_policy : forall i a,
    (i < number_of_states)%nat -> (a < number_of_actions)%nat ->
    a <> a_star i ->
    lp_A prog !! policy_row_index i a
      = Some (map Qopp (margin i a) ++ zeros (2 * number_of_states)) /\
    lp_A prog !! (number_of_states * (number_of_actions - 1)
                  + policy_row_index i a)%nat
      = Some (map Qopp (margin i a)
                ++ <[i := 1]> (zeros (2 * number_of_states)));
  f_policy_bound : forall k,
    (k < bounds_offset trans_probs)%nat -> lp_b prog !! k = Some 0;
  f_upper : forall i, (i < number_of_states)%nat ->
    lp_A prog !! (bounds_offset trans_probs + i)%nat = Some (bound_row i 1) /\
    lp_b prog !! (bounds_offset trans_probs + i)%nat = Some r_max;
  f_lower : forall i, (i < number_of_states)%nat ->
    lp_A prog !! (bounds_offset trans_probs + number_of_states + i)%nat
      = Some (bound_row i (-1)) /\
    lp_b prog !! (bounds_offset trans_probs + number_of_states + i)%nat
      = Some 0;
  f_slack_1 : forall i, (i < number_of_states)%nat ->
    lp_A prog !! (bounds_offset trans_probs + 2 * number_of_states + i)%nat
      = Some (slack_row i) /\
    lp_b prog !! (bounds_offset trans_probs + 2 * number_of_states + i)%nat
      = Some 0;
  f_slack_2 : forall i, (i < number_of_states)%nat ->
    lp_A prog !! (bounds_offset trans_probs + 3 * number_of_states + i)%nat
      = Some (slack_row i) /\
    lp_b prog !! (bounds_offset trans_probs + 3 * number_of_states + i)%nat
      = Some 0;
  f_objective : forall j, (j < 3 * number_of_states)%nat ->
    lp_c prog !! j = Some (objective_entry j)
}.

(** State [i] passes the first loop: its policy row has a first
    maximiser, which is an action, and the matrix of that action can be
    inverted. *)
Definition state_ok (i : nat) : Prop :=
  exists a, chosen_action policy i = Ok a /\
            (a < number_of_actions)%nat /\
            is_Some (inv number_of_states
                       (bellman_matrix trans_probs gamma a)).

(** State [i] stops the first loop with the exception [err]: from
    [np.argmax(policy[i])], from the slice [trans_probs[:, :, a_opt]], or
    from [np.linalg.inv]. *)
Definition state_fails (i : nat) (err : exn) : Prop :=
  chosen_action policy i = Err err \/
  (exists a, chosen_action policy i = Ok a /\
             ~ (a < number_of_actions)%nat /\ err = IndexError) \/
  (exists a, chosen_action policy i = Ok a /\
             (a < number_of_actions)%nat /\
             inv number_of_states (bellman_matrix trans_probs gamma a) = None /\
             err = LinAlgError).

End Formulated.

(** ** Vocabulary of the statements about [value_iteration] *)

(** The sum of the entries of a vector; a row of a policy is stochastic
    when it is 1. *)
Definition vsum (l : vec) : Q := fold_right Qplus 0 l.

(** The total probability of a list of transitions. *)
Definition psum (ts : list transition) : Q :=
  fold_right (fun t acc => prob t + acc) 0 ts.

(** The environment has the shape [value_iteration] relies on: [env.P] has
    an entry for every state and action, every [next_state] is a state, and
    there is an action when there is a state. *)
Definition well_formed (e : env) : Prop :=
  (nS e = 0 \/ 0 < nA e)%nat /\
  length (P e) = nS e /\
  forall s by_a, P e !! s = Some by_a ->
    length by_a = nA e /\
    forall a ts, by_a !! a = Some ts ->
      Forall (fun t => (next_state t < nS e)%nat) ts.

(** The transition lists are sub-distributions: probabilities are not
    negative and sum to at most 1 (to 1 in a proper MDP, to 0 in the
    absorbing configurations). *)
Definition stochastic (e : env) : Prop :=
  forall s by_a a ts, P e !! s = Some by_a -> by_a !! a = Some ts ->
    Forall (fun t => 0 <= prob t) ts /\ psum ts <= 1.

Definition finite_mdp (e : env) : Prop := well_formed e /\ stochastic e.

Definition zero_rewards (e : env) : Prop :=
  forall s by_a a ts, P e !! s = Some by_a -> by_a !! a = Some ts ->
    Forall (fun t => reward t == 0) ts.

(** The value [one_step_lookahead] gives to an action with transitions
    [ts]. *)
Definition backup (discount_factor : Q) (V : vec) (ts : list transition) : Q :=
  fold_left
    (fun acc t =>
       acc + prob t * (reward t + discount_factor * nth (next_state t) V 0))
    ts 0.

(** The new value of state [s]: the largest backup over its actions (0
    where [value_iteration] would raise). *)
Definition best_value (e : env) (discount_factor : Q) (V : vec) (s : nat) : Q :=
  match P e !! s with
  | Some by_a =>
      match np_max (map (backup discount_factor V) by_a) with
      | Ok best => best
      | _ => 0
      end
  | None => 0
  end.

(** The value function and [delta] after the first [k] states of a pass
    that started from [V]: state [k] is updated in place from the values
    of the states before it. *)
Fixpoint pass_values (e : env) (discount_factor : Q) (k : nat) (V : vec)
  : vec :=
  match k with
  | O => V
  | S k' =>
      let V' := pass_values e discount_factor k' V in
      <[k' := best_value e discount_factor V' k']> V'
  end.

Fixpoint pass_delta (e : env) (discount_factor : Q) (k : nat) (V : vec) : Q :=
  match k with
  | O => 0
  | S k' =>
      let V' := pass_values e discount_factor k' V in
      Qmax (pass_delta e discount_factor k' V)
           (Qabs (best_value e discount_factor V' k' - nth k' V' 0))
  end.

(** The value function after [k] whole passes that started from [V]. *)
Fixpoint passes (e : env) (discount_factor : Q) (k : nat) (V : vec) : vec :=
  match k with
  | O => V
  | S k' =>
      pass_values e discount_factor (nS e) (passes e discount_factor k' V)
  end.

(** The call raises no exception whose class is outside [classes]. *)
Definition only_raises {A} (classes : list string) (o : outcome A) : Prop :=
  match o with
  | Err (Raised cls) => cls ∈ classes
  | _ => True
  end.

(** [geo g k] is [g] to the power [k]. *)
Fixpoint geo (g : Q) (k : nat) : Q :=
  match k with
  | O => 1
  | S k' => g * geo g k'
  end.

(** ** Vocabulary of the statements about the solver and [normalise] *)

(** The solver is external.  What the statements assume of it is that a
    vector it returns as the solution satisfies the constraints. *)
Definition solver_sound (lp : vec -> matrix -> vec -> outcome (option vec))
  : Prop :=
  forall c A b x, lp c A b = Ok (Some x) -> feasible A b x.

(** All the entries of a vector are equal. *)
Definition constant (v : vec) : Prop :=
  forall x y, x ∈ v -> y ∈ v -> x == y.

(** ** Vocabulary of the statements about [irl] *)

(** [env.P[s][a][0]], the one tuple that [irl] reads for the pair
    [(s, a)]. *)
Definition first_tuple (e : env) (s a : nat) : option transition :=
  match P e !! s with
  | Some by_a =>
      match by_a !! a with
      | Some (t :: _) => Some t
      | _ => None
      end
  | None => None
  end.

(** The probability that this tuple gives to the move from [s] to [s']
    under [a]. *)
Definition first_tuple_prob (e : env) (s s' a : nat) : Q :=
  match first_tuple e s a with
  | Some t => if decide (s' = next_state t) then prob t else 0
  | None => 0
  end.

(** What the two nested loops of [irl] have written when they are at
    state [i], action [j]: the tensor holds the first tuples of the pairs
    already visited, and every reward is 0 or comes from a first tuple. *)
Definition read_upto (e : env) (i j : nat) (st : tensor * vec) : Prop :=
  shape0 st.1 = nS e /\ shape2 st.1 = nA e /\ length st.2 = nS e /\
  (forall s s' a,
     tcell st.1 s s' a
       = if decide (s < i \/ (s = i /\ a < j))%nat
         then first_tuple_prob e s s' a else 0) /\
  (forall k, (k < nS e)%nat ->
     nth k st.2 0 = 0 \/
     exists s a t, first_tuple e s a = Some t /\ next_state t = k /\
                   nth k st.2 0 = reward t).

(** * Properties *)

(** ** Loops *)

Lemma for_each_app {S} (l1 l2 : list nat) (body : nat -> S -> outcome S) s :
  for_each (l1 ++ l2) body s = s' ← for_each l1 body s; for_each l2 body s'.
Proof.
  revert s. induction l1 as [|i l1 IH]; intros s; simpl; [done|].
  destruct (body i s); simpl; auto.
Qed.

Lemma for_range_S {S} n (body : nat -> S -> outcome S) s :
  for_range (Datatypes.S n) body s = s' ← for_range n body s; body n s'.
Proof.
  unfold for_range. rewrite seq_S, for_each_app. simpl.
  destruct (for_each (seq 0 n) body s) as [x| |]; simpl; auto.
  destruct (body n x); auto.
Qed.

(** Two bodies that agree below [n] give the same loop. *)
Lemma for_range_ext {S} n (f g : nat -> S -> outcome S) s :
  (forall i s', (i < n)%nat -> f i s' = g i s') ->
  for_range n f s = for_range n g s.
Proof.
  induction n as [|n IH]; intros H; [done|].
  rewrite !for_range_S, IH by (intros; apply H; lia).
  destruct (for_range n g s); simpl; auto.
Qed.

(** The invariant rule, for a loop whose body cannot fail under the
    invariant. *)
Lemma for_range_total {S} (Inv : nat -> S -> Prop) n
    (body : nat -> S -> outcome S) s0 :
  Inv 0%nat s0 ->
  (forall i s, (i < n)%nat -> Inv i s ->
     exists s', body i s = Ok s' /\ Inv (Datatypes.S i) s') ->
  exists s', for_range n body s0 = Ok s' /\ Inv n s'.
Proof.
  intros H0 Hstep. induction n as [|n IH].
  - exists s0. split; [done|exact H0].
  - destruct IH as (s1 & E1 & I1); [intros; apply Hstep; [lia|done]|].
    destruct (Hstep n s1) as (s2 & E2 & I2); [lia|done|].
    exists s2. rewrite for_range_S, E1. simpl. by split.
Qed.

(** The invariant rule, for a loop that is known to have returned. *)
Lemma for_range_partial {S} (Inv : nat -> S -> Prop) n
    (body : nat -> S -> outcome S) s0 s1 :
  Inv 0%nat s0 ->
  (forall i s s', (i < n)%nat -> Inv i s -> body i s = Ok s' ->
     Inv (Datatypes.S i) s') ->
  for_range n body s0 = Ok s1 -> Inv n s1.
Proof.
  intros H0 Hstep. revert s1. induction n as [|n IH]; intros s1 E.
  - injection E as <-. exact H0.
  - rewrite for_range_S in E.
    destruct (for_range n body s0) as [s| |] eqn:E1; simpl in E; try done.
    apply (Hstep n s s1); [lia| |done].
    apply IH; [intros; eapply Hstep; eauto; lia|done].
Qed.

Lemma map_each_Ok {B} (f : nat -> outcome B) (g : nat -> B) l :
  (forall i, i ∈ l -> f i = Ok (g i)) -> map_each f l = Ok (map g l).
Proof.
  induction l as [|i l IH]; intros H; simpl; [done|].
  rewrite H by apply list_elem_of_here. simpl.
  rewrite IH by (intros; apply H; by apply list_elem_of_further). done.
Qed.

Lemma map_each_inv {B} (f : nat -> outcome B) l ys :
  map_each f l = Ok ys ->
  length ys = length l /\
  forall k i, l !! k = Some i -> exists y, ys !! k = Some y /\ f i = Ok y.
Proof.
  revert ys. induction l as [|i l IH]; intros ys E; simpl in E.
  - injection E as <-. split; [done|]. intros k j Hk. done.
  - destruct (f i) as [y| |] eqn:Ef; simpl in E; try done.
    destruct (map_each f l) as [ys'| |] eqn:El; simpl in E; try done.
    injection E as <-. destruct (IH ys' eq_refl) as [Hlen Hall].
    split; [simpl; lia|]. intros [|k] j Hk; simpl in *.
    + injection Hk as <-. eauto.
    + eauto.
Qed.

(** ** Maximum, minimum and first maximiser of a vector *)

Lemma fold_max_elem t x : fold_left Qmax t x ∈ x :: t.
Proof.
  revert x. induction t as [|y t IH]; intros x; simpl.
  - apply list_elem_of_here.
  - specialize (IH (Qmax x y)). apply elem_of_cons in IH as [E|E].
    + rewrite E. unfold Qmax, GenericMinMax.gmax.
      destruct (x ?= y); [apply list_elem_of_here| |apply list_elem_of_here].
      apply list_elem_of_further, list_elem_of_here.
    + by do 2 apply list_elem_of_further.
Qed.

Lemma fold_min_elem t x : fold_left Qmin t x ∈ x :: t.
Proof.
  revert x. induction t as [|y t IH]; intros x; simpl.
  - apply list_elem_of_here.
  - specialize (IH (Qmin x y)). apply elem_of_cons in IH as [E|E].
    + rewrite E. unfold Qmin, GenericMinMax.gmin.
      destruct (x ?= y); [apply list_elem_of_here|apply list_elem_of_here|].
      apply list_elem_of_further, list_elem_of_here.
    + by do 2 apply list_elem_of_further.
Qed.

Lemma fold_max_ge t x y : y ∈ x :: t -> y <= fold_left Qmax t x.
Proof.
  revert x y. induction t as [|z t IH]; intros x y Hy; simpl.
  - apply elem_of_cons in Hy as [->|Hy]; [apply Qle_refl|].
    by apply not_elem_of_nil in Hy.
  - apply elem_of_cons in Hy as [->|Hy].
    + eapply Qle_trans; [apply (Q.le_max_l x z)|]. apply IH, list_elem_of_here.
    + apply elem_of_cons in Hy as [->|Hy].
      * eapply Qle_trans; [apply (Q.le_max_r x z)|].
        apply IH, list_elem_of_here.
      * by apply IH, list_elem_of_further.
Qed.

Lemma fold_min_le t x y : y ∈ x :: t -> fold_left Qmin t x <= y.
Proof.
  revert x y. induction t as [|z t IH]; intros x y Hy; simpl.
  - apply elem_of_cons in Hy as [->|Hy]; [apply Qle_refl|].
    by apply not_elem_of_nil in Hy.
  - apply elem_of_cons in Hy as [->|Hy].
    + eapply Qle_trans; [|apply (Q.le_min_l x z)]. apply IH, list_elem_of_here.
    + apply elem_of_cons in Hy as [->|Hy].
      * eapply Qle_trans; [|apply (Q.le_min_r x z)].
        apply IH, list_elem_of_here.
      * by apply IH, list_elem_of_further.
Qed.

(** What [np.max] and [np.min] return on a non-empty vector. *)
Lemma np_max_spec l : l <> [] ->
  exists m, np_max l = Ok m /\ m ∈ l /\ forall y, y ∈ l -> y <= m.
Proof.
  destruct l as [|x t]; [done|]. intros _. exists (fold_left Qmax t x).
  split; [done|]. split; [apply fold_max_elem|apply fold_max_ge].
Qed.

Lemma np_min_spec l : l <> [] ->
  exists m, np_min l = Ok m /\ m ∈ l /\ forall y, y ∈ l -> m <= y.
Proof.
  destruct l as [|x t]; [done|]. intros _. exists (fold_left Qmin t x).
  split; [done|]. split; [apply fold_min_elem|apply fold_min_le].
Qed.

(** ** [normalise] *)

Lemma np_div_zero x y : x == 0 -> y == 0 -> np_div x y = NaN.
Proof.
  intros Hx Hy. unfold np_div. destruct (Qeq_dec y 0) as [_|N]; [|done].
  apply Qeq_alt in Hx. by rewrite Hx.
Qed.

(** The minimum and the maximum of a constant vector coincide. *)
Lemma constant_spread (v : vec) :
  v <> [] -> constant v ->
  exists lo hi,
    np_min v = Ok lo /\ np_max v = Ok hi /\ hi - lo == 0 /\
    forall x, x ∈ v -> x - lo == 0.
Proof.
  intros Hne Heq.
  destruct (np_min_spec v Hne) as (lo & Elo & Hlo & _).
  destruct (np_max_spec v Hne) as (hi & Ehi & Hhi & _).
  exists lo, hi. split; [done|]. split; [done|]. split.
  - rewrite (Heq hi lo) by done. ring.
  - intros x Hx. rewrite (Heq x lo) by done. ring.
Qed.

(** On the solver's column the division by [max - min = 0] raises. *)
Lemma normalise_cvxopt_constant (v : vec) :
  v <> [] -> constant v ->
  normalise (CvxoptMatrix v) = Err ZeroDivisionError.
Proof.
  intros Hne Heq.
  destruct (constant_spread v Hne Heq) as (lo & hi & Elo & Ehi & Hd & _).
  unfold normalise. cbn [entries]. rewrite Elo, Ehi. cbn [mbind outcome_bind].
  by destruct (Qeq_dec (hi - lo) 0).
Qed.

(** C4 as amended.  On a non-empty vector whose entries are all equal,
    [normalise] divides by zero and nothing guards the division.  What
    happens is decided by the class of the argument: on the solver's
    column, a cvxopt matrix, as [linear_irl] calls it, the division raises
    [ZeroDivisionError]; on a numpy array it returns the vector of [nan] of
    the same length. *)
Theorem normalise_constant_divides_by_zero (v : vec) :
  v <> [] -> constant v ->
  normalise (CvxoptMatrix v) = Err ZeroDivisionError /\
  normalise (Ndarray v) = Ok (replicate (length v) NaN).
Proof.
  intros Hne Heq.
  destruct (constant_spread v Hne Heq) as (lo & hi & Elo & Ehi & Hd & Hx).
  split; [by apply normalise_cvxopt_constant|].
  unfold normalise. cbn [entries]. rewrite Elo, Ehi. cbn [mbind outcome_bind].
  f_equal.
  assert (forall l, (forall x, x ∈ l -> x ∈ v) ->
    map (fun x => np_div (x - lo) (hi - lo)) l = replicate (length l) NaN)
    as G.
  { induction l as [|z l IH]; intros Hl; simpl; [done|].
    rewrite IH by (intros; by apply Hl, list_elem_of_further).
    rewrite np_div_zero; [done| |done].
    apply Hx, Hl, list_elem_of_here. }
  by apply G.
Qed.

Lemma normalise_constant_divides_by_zero_witness :
  normalise (CvxoptMatrix [2; 2; 2]) = Err ZeroDivisionError /\
  normalise (Ndarray [2; 2; 2]) = Ok (replicate (length [2; 2; 2]) NaN).
Proof.
  apply (normalise_constant_divides_by_zero [2; 2; 2]); [done|].
  intros x y Hx Hy.
  assert (forall z, z ∈ [2; 2; 2] -> z = 2) as G.
  { intros z Hz. repeat (apply elem_of_cons in Hz as [->|Hz]); try done.
    by apply not_elem_of_nil in Hz. }
  rewrite (G x Hx), (G y Hy). reflexivity.
Defined.

(** C4 refuted as stated.  Fed the all-zero vector directly, [normalise]
    returns a value, a vector of [nan]; fed the same entries as the solver's
    column it fails, with [ZeroDivisionError], which is the division by
    zero itself and not a [DegenerateRewardError]. *)
Lemma normalise_constant_no_degenerate_error :
  normalise (Ndarray [0; 0]) = Ok [NaN; NaN] /\
  normalise (CvxoptMatrix [0; 0]) = Err (Raised "ZeroDivisionError") /\
  normalise (CvxoptMatrix [0; 0]) <> Err (Raised "DegenerateRewardError").
Proof. split; [reflexivity|]. split; [reflexivity|discriminate]. Qed.

(** ** The policy enters [linear_irl] through [np.argmax] only *)

(** C10.  Two policies with the same [np.argmax(policy[i])] at every state
    give the same linear program (and the same calls of the inverse), and,
    the solver being a function of the program, the same recovered
    reward. *)
Theorem linear_irl_policy_through_argmax
    (inv : nat -> sqmat -> option sqmat)
    (lp : vec -> matrix -> vec -> outcome (option vec))
    (trans_probs : tensor) (policy1 policy2 : matrix) (gamma l1 r_max : Q) :
  (forall i, (i < shape0 trans_probs)%nat ->
     chosen_action policy1 i = chosen_action policy2 i) ->
  linear_irl_lp inv trans_probs policy1 gamma l1 r_max
    = linear_irl_lp inv trans_probs policy2 gamma l1 r_max /\
  linear_irl inv lp trans_probs policy1 gamma l1 r_max
    = linear_irl inv lp trans_probs policy2 gamma l1 r_max.
Proof.
  intros H.
  assert (linear_irl_lp inv trans_probs policy1 gamma l1 r_max
          = linear_irl_lp inv trans_probs policy2 gamma l1 r_max) as E.
  { unfold linear_irl_lp.
    rewrite (for_range_ext _ (policy_constraints inv trans_probs policy1 gamma)
               (policy_constraints inv trans_probs policy2 gamma)); [done|].
    intros i [A calls] Hi. unfold policy_constraints. by rewrite H. }
  split; [exact E|]. unfold linear_irl. by rewrite E.
Qed.

Lemma linear_irl_policy_through_argmax_witness :
  linear_irl_lp Sample.inv_small Sample.T2 [[1; 0]; [1; 0]] (1 # 2) 10 1
    = linear_irl_lp Sample.inv_small Sample.T2 [[7 # 10; 3 # 10]; [5; 5]]
        (1 # 2) 10 1 /\
  linear_irl Sample.inv_small Sample.lp_const Sample.T2 [[1; 0]; [1; 0]]
      (1 # 2) 10 1
    = linear_irl Sample.inv_small Sample.lp_const Sample.T2
        [[7 # 10; 3 # 10]; [5; 5]] (1 # 2) 10 1.
Proof.
  apply (linear_irl_policy_through_argmax Sample.inv_small Sample.lp_const
           Sample.T2 [[1; 0]; [1; 0]] [[7 # 10; 3 # 10]; [5; 5]]).
  intros i Hi. simpl in Hi.
  destruct i as [|[|i]]; [reflexivity|reflexivity|lia].
Defined.

(** ** Writes into arrays *)

Lemma bind_Ok {A B} (x : A) (k : A -> outcome B) : (Ok x ≫= k) = k x.
Proof. reflexivity. Qed.

Lemma set_item_Ok i x (v : vec) :
  (i < length v)%nat -> set_item i x v = Ok (<[i := x]> v).
Proof. intros H. unfold set_item. by rewrite decide_True. Qed.

Lemma set_cell_Ok (A : matrix) r c x row :
  A !! r = Some row -> (c < length row)%nat ->
  set_cell r c x A = Ok (<[r := <[c := x]> row]> A).
Proof. intros E H. unfold set_cell. rewrite E. by rewrite decide_True. Qed.

Lemma set_row_prefix_Ok (A : matrix) r n w row :
  A !! r = Some row -> length w = n -> (n <= length row)%nat ->
  set_row_prefix r n w A = Ok (<[r := w ++ drop n row]> A).
Proof.
  intros E Hw Hn. unfold set_row_prefix. rewrite E.
  replace (n `min` length row)%nat with n by lia. by rewrite decide_True.
Qed.

Lemma length_tabulate {A} n (f : nat -> A) : length (tabulate n f) = n.
Proof. unfold tabulate. by rewrite length_map, length_seq. Qed.

Lemma lookup_tabulate {A} n (f : nat -> A) j :
  (j < n)%nat -> tabulate n f !! j = Some (f j).
Proof.
  intros H. unfold tabulate. rewrite list_lookup_fmap.
  by rewrite lookup_seq_lt.
Qed.

Lemma length_zeros n : length (zeros n) = n.
Proof. apply length_replicate. Qed.

Lemma lookup_zeros2 r c k : (k < r)%nat -> zeros2 r c !! k = Some (zeros c).
Proof. intros H. unfold zeros2. by apply lookup_replicate_2. Qed.

Lemma drop_zeros k n : drop k (zeros n) = zeros (n - k).
Proof. apply drop_replicate. Qed.

(** ** The first loop of [linear_irl]: the policy constraints *)

Section PolicyRows.
Variable inv : nat -> sqmat -> option sqmat.
Variable trans_probs : tensor.
Variable policy : matrix.
Variable gamma : Q.

Local Abbreviation n := (shape0 trans_probs).
Local Abbreviation m := (shape2 trans_probs).
Local Abbreviation rows := (2 * n * (m + 1))%nat.

Lemma length_policy_row i a_opt a M :
  length (policy_row trans_probs i a_opt a M) = n.
Proof. apply length_tabulate. Qed.

(** The inner loop, from a matrix whose rows for state [i] are zero. *)
Lemma emit_policy_rows_loop i a_opt M (A0 : matrix) :
  (i < n)%nat -> (a_opt < m)%nat -> length A0 = rows ->
  (forall k, (k < rows)%nat -> ~ (k < i * (m - 1))%nat ->
     ~ (n * (m - 1) <= k < n * (m - 1) + i * (m - 1))%nat ->
     A0 !! k = Some (zeros (3 * n))) ->
  exists A,
    for_range m (emit_policy_rows trans_probs i a_opt M) (0%nat, A0)
      = Ok ((m - 1)%nat, A) /\
    length A = rows /\
    (forall a, (a < m)%nat -> a <> a_opt ->
       A !! (i * (m - 1) + slot a_opt a)%nat
         = Some (policy_row trans_probs i a_opt a M ++ zeros (2 * n)) /\
       A !! (n * (m - 1) + i * (m - 1) + slot a_opt a)%nat
         = Some (policy_row trans_probs i a_opt a M
                   ++ <[i := 1]> (zeros (2 * n)))) /\
    (forall k,
       ~ (i * (m - 1) <= k < i * (m - 1) + (m - 1))%nat ->
       ~ (n * (m - 1) + i * (m - 1) <= k
          < n * (m - 1) + i * (m - 1) + (m - 1))%nat ->
       A !! k = A0 !! k).
Proof.
  intros Hi Ha HA0 Hz.
  assert (i * (m - 1) + (m - 1) <= n * (m - 1))%nat as Hq1 by nia.
  assert (n * (m - 1) + i * (m - 1) + (m - 1) <= rows)%nat as Hq2 by nia.
  set (B := (i * (m - 1))%nat) in *. set (NQ := (n * (m - 1))%nat) in *.
  destruct (for_range_total
    (fun (a : nat) (st : nat * matrix) =>
    st.1 = slot a_opt a /\ length st.2 = rows /\
    (forall a', (a' < a)%nat -> a' <> a_opt ->
       st.2 !! (B + slot a_opt a')%nat
         = Some (policy_row trans_probs i a_opt a' M ++ zeros (2 * n)) /\
       st.2 !! (NQ + B + slot a_opt a')%nat
         = Some (policy_row trans_probs i a_opt a' M
                   ++ <[i := 1]> (zeros (2 * n)))) /\
    (forall k, ~ (B <= k < B + st.1)%nat ->
               ~ (NQ + B <= k < NQ + B + st.1)%nat ->
               st.2 !! k = A0 !! k)) m (emit_policy_rows trans_probs i a_opt M)
              (0%nat, A0)) as ([cnt A] & E & I).
  - cbn beta; cbn [fst snd]. split_and!; [done|done| |done]. intros; lia.
  - intros a [cnt A] Ham (Ecnt & HlenA & Hdone & Hframe); cbn [fst snd] in *.
    unfold emit_policy_rows. fold B NQ. destruct (decide (a = a_opt)) as [->|Hne].
    + eexists. split; [done|]. cbn beta; cbn [fst snd].
      assert (slot a_opt (S a_opt) = slot a_opt a_opt) as ->.
      { unfold slot. repeat case_decide; lia. }
      split_and!; try done.
      intros a' Ha' Hn'. apply Hdone; [lia|done].
    + assert (slot a_opt (S a) = S (slot a_opt a) /\ (slot a_opt a < m - 1)%nat)
        as [ES Hlt] by (unfold slot; repeat case_decide; lia).
      assert (forall a', (a' < a)%nat -> a' <> a_opt ->
                (slot a_opt a' < slot a_opt a)%nat) as Hmono.
      { intros a' ? ?. unfold slot. repeat case_decide; lia. }
      subst cnt. set (c := slot a_opt a) in *.
      set (w := policy_row trans_probs i a_opt a M).
      assert (length w = n) as Hw by apply length_policy_row.
      assert (A !! (B + c)%nat = Some (zeros (3 * n))) as E1.
      { rewrite Hframe by lia. apply Hz; lia. }
      rewrite (set_row_prefix_Ok _ _ _ _ _ E1 Hw)
        by (rewrite length_zeros; lia).
      rewrite bind_Ok, drop_zeros.
      replace (3 * n - n)%nat with (2 * n)%nat by lia.
      set (A1 := <[(B + c)%nat := w ++ zeros (2 * n)]> A).
      assert (A1 !! (NQ + B + c)%nat = Some (zeros (3 * n))) as E2.
      { unfold A1. rewrite list_lookup_insert_ne by lia.
        rewrite Hframe by lia. apply Hz; lia. }
      rewrite (set_row_prefix_Ok _ _ _ _ _ E2 Hw)
        by (rewrite length_zeros; lia).
      rewrite bind_Ok, drop_zeros.
      replace (3 * n - n)%nat with (2 * n)%nat by lia.
      set (A2 := <[(NQ + B + c)%nat := w ++ zeros (2 * n)]> A1).
      assert (A2 !! (NQ + B + c)%nat = Some (w ++ zeros (2 * n))) as E3.
      { unfold A2. apply list_lookup_insert_eq. unfold A1.
        rewrite length_insert. lia. }
      rewrite (set_cell_Ok _ _ _ _ _ E3)
        by (rewrite length_app, Hw, length_zeros; lia).
      rewrite bind_Ok. eexists. split; [done|]. cbn beta; cbn [fst snd].
      replace (<[(n + i)%nat := 1]> (w ++ zeros (2 * n)))
        with (w ++ <[i := 1]> (zeros (2 * n)))
        by (rewrite <- Hw at 2; by rewrite insert_app_r).
      split_and!.
      * done.
      * unfold A2, A1. by rewrite !length_insert.
      * intros a' Ha' Hn'. destruct (decide (a' = a)) as [->|Hd].
        -- fold c w. split.
           ++ rewrite list_lookup_insert_ne by lia. unfold A2.
              rewrite list_lookup_insert_ne by lia. unfold A1.
              apply list_lookup_insert_eq. lia.
           ++ apply list_lookup_insert_eq. unfold A2, A1.
              rewrite !length_insert. lia.
        -- pose proof (Hmono a' ltac:(lia) Hn').
           destruct (Hdone a' ltac:(lia) Hn') as [D1 D2]. split.
           ++ rewrite list_lookup_insert_ne by lia. unfold A2.
              rewrite list_lookup_insert_ne by lia. unfold A1.
              rewrite list_lookup_insert_ne by lia. done.
           ++ rewrite list_lookup_insert_ne by lia. unfold A2.
              rewrite list_lookup_insert_ne by lia. unfold A1.
              rewrite list_lookup_insert_ne by lia. done.
      * intros k K1 K2.
        rewrite list_lookup_insert_ne by lia. unfold A2.
        rewrite list_lookup_insert_ne by lia. unfold A1.
        rewrite list_lookup_insert_ne by lia. apply Hframe; lia.
  - destruct I as (Ecnt & HlenA & Hdone & Hframe); cbn [fst snd] in *.
    assert (slot a_opt m = (m - 1)%nat) as Em
      by (unfold slot; case_decide; lia).
    rewrite Em in Ecnt. subst cnt.
    exists A. split_and!; try done.
Qed.

Lemma well_posed_star i :
  well_posed inv trans_probs policy gamma -> (i < n)%nat ->
  chosen_action policy i = Ok (a_star policy i) /\
  (a_star policy i < m)%nat /\
  inv n (bellman_matrix trans_probs gamma (a_star policy i))
    = Some (M_star inv trans_probs policy gamma i).
Proof.
  intros W Hi. destruct (W i Hi) as (a & Ea & Ha & [M EM]).
  unfold M_star, a_star. rewrite Ea, EM. done.
Qed.

Lemma slot_lt a_opt a :
  (a_opt < m)%nat -> (a < m)%nat -> a <> a_opt ->
  (slot a_opt a < m - 1)%nat.
Proof. intros. unfold slot. case_decide; lia. Qed.

(** The first loop: it returns, has called the inverse once per state, has
    written the two rows of every state and action other than the chosen
    one, and has left the rows after the policy constraints at zero. *)
Lemma policy_constraints_loop :
  well_posed inv trans_probs policy gamma ->
  exists A,
    for_range n (policy_constraints inv trans_probs policy gamma)
      (zeros2 rows (3 * n), 0%nat) = Ok (A, n) /\
    length A = rows /\
    (forall i a, (i < n)%nat -> (a < m)%nat -> a <> a_star policy i ->
       A !! policy_row_index trans_probs policy i a
         = Some (policy_row trans_probs i (a_star policy i) a
                   (M_star inv trans_probs policy gamma i)
                 ++ zeros (2 * n)) /\
       A !! (n * (m - 1) + policy_row_index trans_probs policy i a)%nat
         = Some (policy_row trans_probs i (a_star policy i) a
                   (M_star inv trans_probs policy gamma i)
                 ++ <[i := 1]> (zeros (2 * n)))) /\
    (forall k, (k < rows)%nat -> ~ (k < 2 * n * (m - 1))%nat ->
       A !! k = Some (zeros (3 * n))).
Proof.
  intros W.
  destruct (for_range_total
    (fun (i : nat) (st : matrix * nat) =>
    st.2 = i /\ length st.1 = rows /\
    (forall i' a, (i' < i)%nat -> (a < m)%nat -> a <> a_star policy i' ->
       st.1 !! policy_row_index trans_probs policy i' a
         = Some (policy_row trans_probs i' (a_star policy i') a
                   (M_star inv trans_probs policy gamma i')
                 ++ zeros (2 * n)) /\
       st.1 !! (n * (m - 1) + policy_row_index trans_probs policy i' a)%nat
         = Some (policy_row trans_probs i' (a_star policy i') a
                   (M_star inv trans_probs policy gamma i')
                 ++ <[i' := 1]> (zeros (2 * n)))) /\
    (forall k, (k < rows)%nat -> ~ (k < i * (m - 1))%nat ->
       ~ (n * (m - 1) <= k < n * (m - 1) + i * (m - 1))%nat ->
       st.1 !! k = Some (zeros (3 * n)))) n
              (policy_constraints inv trans_probs policy gamma)
              (zeros2 rows (3 * n), 0%nat)) as ([A calls] & E & I).
  - cbn beta; cbn [fst snd]. split_and!; [done| |intros; lia|].
    + unfold zeros2. by rewrite length_replicate.
    + intros k Hk _ _. by apply lookup_zeros2.
  - intros i [A calls] Hi (Ecalls & HlenA & Hdone & Hzero); cbn [fst snd] in *.
    destruct (well_posed_star i W Hi) as (Ea & Ha & EM).
    unfold policy_constraints. rewrite Ea, bind_Ok.
    rewrite decide_True by done. rewrite EM. cbn [of_lookup]. rewrite bind_Ok.
    destruct (emit_policy_rows_loop i (a_star policy i)
                (M_star inv trans_probs policy gamma i) A Hi Ha HlenA Hzero)
      as (A' & E' & HlenA' & Hnew & Hframe).
    rewrite E', bind_Ok. eexists. split; [done|].
    cbn beta; cbn [fst snd]. split_and!; [by subst|done| |].
    + intros i' a Hi' Ham Hne. unfold policy_row_index.
      destruct (decide (i' = i)) as [->|Hd].
      * destruct (Hnew a Ham Hne) as [N1 N2]. split; [done|].
        rewrite <- N2. f_equal. lia.
      * destruct (Hdone i' a ltac:(lia) Ham Hne) as [D1 D2].
        destruct (well_posed_star i' W ltac:(lia)) as (_ & Ha' & _).
        pose proof (slot_lt _ _ Ha' Ham Hne) as Hs.
        assert (i' * (m - 1) + (m - 1) <= i * (m - 1))%nat by nia.
        assert (i * (m - 1) + (m - 1) <= n * (m - 1))%nat by nia.
        unfold policy_row_index in D1, D2.
        split; (rewrite Hframe; [done|nia|nia]).
    + intros k Hk K1 K2. rewrite Hframe; [|nia|nia].
      apply Hzero; [done|nia|nia].
  - destruct I as (Ecalls & HlenA & Hdone & Hzero); cbn [fst snd] in *.
    subst calls. exists A. split_and!; try done.
    intros k Hk K. apply Hzero; [done|nia|nia].
Qed.

End PolicyRows.

(** ** The loops over the bound and slack rows *)

(** A loop that rewrites row [base + i] of the matrix at step [i], the row
    holding [z] before. *)
Lemma rows_block_loop (body : nat -> matrix -> outcome matrix)
    (n base : nat) (z : vec) (g : nat -> vec) (A0 : matrix) :
  (forall i (A : matrix), (i < n)%nat -> A !! (base + i)%nat = Some z ->
     body i A = Ok (<[(base + i)%nat := g i]> A)) ->
  (forall i, (i < n)%nat -> A0 !! (base + i)%nat = Some z) ->
  exists A : matrix,
    for_range n body A0 = Ok A /\
    length A = length A0 /\
    (forall i, (i < n)%nat -> A !! (base + i)%nat = Some (g i)) /\
    (forall k, ~ (base <= k < base + n)%nat -> A !! k = A0 !! k).
Proof.
  intros Hbody Hz.
  destruct (for_range_total
    (fun (i : nat) (A : matrix) =>
       length A = length A0 /\
       (forall i', (i' < i)%nat -> A !! (base + i')%nat = Some (g i')) /\
       (forall k, ~ (base <= k < base + i)%nat -> A !! k = A0 !! k))
    n body A0) as (A & E & I).
  - split_and!; [done|intros; lia|done].
  - intros i A Hi (Hlen & Hdone & Hframe).
    assert (A !! (base + i)%nat = Some z) as Ez.
    { rewrite Hframe by lia. by apply Hz. }
    rewrite (Hbody i A Hi Ez). eexists. split; [done|]. split_and!.
    + by rewrite length_insert.
    + intros i' Hi'. destruct (decide (i' = i)) as [->|Hd].
      * apply list_lookup_insert_eq. by eapply lookup_lt_Some.
      * rewrite list_lookup_insert_ne by lia. apply Hdone. lia.
    + intros k Hk. rewrite list_lookup_insert_ne by lia. apply Hframe. lia.
  - by exists A.
Qed.

(** The same with the bound vector: [b[base + i]] receives [h i]. *)
Lemma bound_block_loop (body : nat -> matrix * vec -> outcome (matrix * vec))
    (n base : nat) (z : vec) (g : nat -> vec) (h : nat -> Q)
    (A0 : matrix) (b0 : vec) :
  (forall i (A : matrix) (b : vec), (i < n)%nat ->
     A !! (base + i)%nat = Some z -> (base + i < length b)%nat ->
     body i (A, b)
       = Ok (<[(base + i)%nat := g i]> A, <[(base + i)%nat := h i]> b)) ->
  (forall i, (i < n)%nat -> A0 !! (base + i)%nat = Some z) ->
  (base + n <= length b0)%nat ->
  exists (A : matrix) (b : vec),
    for_range n body (A0, b0) = Ok (A, b) /\
    length A = length A0 /\ length b = length b0 /\
    (forall i, (i < n)%nat ->
       A !! (base + i)%nat = Some (g i) /\ b !! (base + i)%nat = Some (h i)) /\
    (forall k, ~ (base <= k < base + n)%nat ->
       A !! k = A0 !! k /\ b !! k = b0 !! k).
Proof.
  intros Hbody Hz Hb.
  destruct (for_range_total
    (fun (i : nat) (st : matrix * vec) =>
       length st.1 = length A0 /\ length st.2 = length b0 /\
       (forall i', (i' < i)%nat ->
          st.1 !! (base + i')%nat = Some (g i') /\
          st.2 !! (base + i')%nat = Some (h i')) /\
       (forall k, ~ (base <= k < base + i)%nat ->
          st.1 !! k = A0 !! k /\ st.2 !! k = b0 !! k))
    n body (A0, b0)) as ([A b] & E & I).
  - cbn [fst snd]. split_and!; [done|done|intros; lia|done].
  - intros i [A b] Hi (HlenA & Hlenb & Hdone & Hframe); cbn [fst snd] in *.
    assert (A !! (base + i)%nat = Some z) as Ez.
    { destruct (Hframe (base + i)%nat) as [-> _]; [lia|]. by apply Hz. }
    rewrite (Hbody i A b Hi Ez) by lia. eexists. split; [done|].
    cbn [fst snd]. split_and!.
    + by rewrite length_insert.
    + by rewrite length_insert.
    + intros i' Hi'. destruct (decide (i' = i)) as [->|Hd].
      * split; apply list_lookup_insert_eq; [by eapply lookup_lt_Some|lia].
      * rewrite !list_lookup_insert_ne by lia. apply Hdone. lia.
    + intros k Hk. rewrite !list_lookup_insert_ne by lia. apply Hframe. lia.
  - cbn [fst snd] in I. by exists A, b.
Qed.

Lemma lookup_fill_slice lo hi x (v : vec) j :
  fill_slice lo hi x v !! j
    = (fun y => if decide (lo <= j < hi)%nat then x else y) <$> v !! j.
Proof. unfold fill_slice. apply list_lookup_imap. Qed.

Lemma length_fill_slice lo hi x (v : vec) :
  length (fill_slice lo hi x v) = length v.
Proof. unfold fill_slice. apply length_imap. Qed.

(** ** The whole formulation *)

Section Formulation.
Variable inv : nat -> sqmat -> option sqmat.
Variable trans_probs : tensor.
Variable policy : matrix.
Variables gamma l1 r_max : Q.

Local Abbreviation n := (shape0 trans_probs).
Local Abbreviation m := (shape2 trans_probs).
Local Abbreviation rows := (2 * n * (m + 1))%nat.
Local Abbreviation off := (bounds_offset trans_probs).
Local Abbreviation z3 := (zeros (3 * n)).

Lemma policy_row_margin i :
  forall a,
    policy_row trans_probs i (a_star policy i) a
      (M_star inv trans_probs policy gamma i)
    = map Qopp (margin inv trans_probs policy gamma i a).
Proof.
  intros a. unfold policy_row, margin, tabulate. by rewrite map_map.
Qed.

Lemma upper_bound_row_Ok i (A : matrix) (b : vec) :
  (i < n)%nat -> A !! (off + i)%nat = Some z3 ->
  (off + i < length b)%nat ->
  upper_bound_row trans_probs r_max i (A, b)
    = Ok (<[(off + i)%nat := bound_row trans_probs i 1]> A,
          <[(off + i)%nat := r_max]> b).
Proof.
  intros Hi Ez Hb. unfold upper_bound_row.
  rewrite (set_cell_Ok _ _ _ _ _ Ez) by (rewrite length_zeros; lia).
  rewrite bind_Ok, set_item_Ok by done. by rewrite bind_Ok.
Qed.

Lemma lower_bound_row_Ok i (A : matrix) (b : vec) :
  (i < n)%nat -> A !! (off + n + i)%nat = Some z3 ->
  (off + n + i < length b)%nat ->
  lower_bound_row trans_probs i (A, b)
    = Ok (<[(off + n + i)%nat := bound_row trans_probs i (-1)]> A,
          <[(off + n + i)%nat := 0]> b).
Proof.
  intros Hi Ez Hb. unfold lower_bound_row.
  rewrite (set_cell_Ok _ _ _ _ _ Ez) by (rewrite length_zeros; lia).
  rewrite bind_Ok, set_item_Ok by done. by rewrite bind_Ok.
Qed.

Lemma slack_row_1_Ok i (A : matrix) :
  (i < n)%nat -> A !! (off + 2 * n + i)%nat = Some z3 ->
  slack_row_1 trans_probs i A
    = Ok (<[(off + 2 * n + i)%nat := slack_row trans_probs i]> A).
Proof.
  intros Hi Ez. unfold slack_row_1.
  rewrite (set_cell_Ok _ _ _ _ _ Ez) by (rewrite length_zeros; lia).
  rewrite bind_Ok.
  rewrite (set_cell_Ok _ _ _ _ (<[i := 1]> z3)).
  - by rewrite list_insert_insert_eq.
  - apply list_lookup_insert_eq. by eapply lookup_lt_Some.
  - rewrite length_insert, length_zeros. lia.
Qed.

(** The second slack loop writes the same row as the first. *)
Lemma slack_row_2_Ok i (A : matrix) :
  (i < n)%nat -> A !! (off + 3 * n + i)%nat = Some z3 ->
  slack_row_2 trans_probs i A
    = Ok (<[(off + 3 * n + i)%nat := slack_row trans_probs i]> A).
Proof.
  intros Hi Ez. unfold slack_row_2.
  rewrite (set_cell_Ok _ _ _ _ _ Ez) by (rewrite length_zeros; lia).
  rewrite bind_Ok.
  rewrite (set_cell_Ok _ _ _ _ (<[i := 1]> z3)).
  - by rewrite list_insert_insert_eq.
  - apply list_lookup_insert_eq. by eapply lookup_lt_Some.
  - rewrite length_insert, length_zeros. lia.
Qed.

Lemma objective_loop :
  exists c : vec,
    for_range n (objective trans_probs l1) z3 = Ok c /\
    forall j, (j < 3 * n)%nat ->
      c !! j = Some (objective_entry trans_probs l1 j).
Proof.
  destruct (for_range_total
    (fun (i : nat) (c : vec) =>
       length c = (3 * n)%nat /\
       forall j, (j < 3 * n)%nat ->
         c !! j = Some (if decide (i = 0)%nat then 0
                        else objective_entry trans_probs l1 j))
    n (objective trans_probs l1) z3) as (c & E & Hlen & Hc).
  - split; [apply length_zeros|]. intros j Hj.
    rewrite decide_True by done. by apply lookup_replicate_2.
  - intros i c Hi [Hlen Hc]. eexists. split; [done|].
    rewrite !length_fill_slice. split; [done|]. intros j Hj.
    rewrite decide_False by lia.
    rewrite !lookup_fill_slice, (Hc j Hj). simpl.
    unfold objective_entry. rewrite Hlen.
    repeat case_decide; try lia; done.
  - exists c. split; [done|]. intros j Hj. rewrite (Hc j Hj).
    rewrite decide_False by lia. done.
Qed.

(** On the inputs on which the first loop raises nothing, [linear_irl]
    reaches the call of the solver, has inverted one matrix per state, and
    hands over the program described by [formulation]. *)
Lemma linear_irl_lp_formulation :
  well_posed inv trans_probs policy gamma ->
  exists prog,
    linear_irl_lp inv trans_probs policy gamma l1 r_max = Ok (prog, n) /\
    formulation inv trans_probs policy gamma l1 r_max prog.
Proof.
  intros W.
  assert (n = 0%nat \/ (off + 4 * n = rows)%nat) as Hm.
  { destruct (decide (n = 0)%nat) as [|Hn]; [by left|right].
    destruct (W 0%nat ltac:(lia)) as (a & _ & Ha & _).
    unfold bounds_offset. nia. }
  assert (forall i, (i < n)%nat -> (off + 4 * n = rows)%nat) as Hoff.
  { intros i Hi. destruct Hm; [lia|done]. }
  assert (off <= rows)%nat as Hoffle by (unfold bounds_offset; nia).
  unfold linear_irl_lp.
  destruct (policy_constraints_loop inv trans_probs policy gamma W)
    as (A1 & E1 & L1 & P1 & Z1).
  rewrite E1, bind_Ok.
  destruct (bound_block_loop (upper_bound_row trans_probs r_max) n off z3
              (fun i => bound_row trans_probs i 1) (fun _ => r_max)
              A1 (zeros rows))
    as (A2 & b2 & E2 & L2 & Lb2 & P2 & F2).
  { intros i A b Hi Ez Hb. by apply upper_bound_row_Ok. }
  { intros i Hi. pose proof (Hoff i Hi).
    apply Z1; unfold bounds_offset in *; lia. }
  { rewrite length_zeros. destruct Hm as [E|E]; lia. }
  rewrite E2, bind_Ok.
  destruct (bound_block_loop (lower_bound_row trans_probs) n (off + n) z3
              (fun i => bound_row trans_probs i (-1)) (fun _ => 0) A2 b2)
    as (A3 & b3 & E3 & L3 & Lb3 & P3 & F3).
  { intros i A b Hi Ez Hb. by apply lower_bound_row_Ok. }
  { intros i Hi. pose proof (Hoff i Hi).
    rewrite (proj1 (F2 (off + n + i)%nat ltac:(lia))).
    apply Z1; unfold bounds_offset in *; lia. }
  { rewrite Lb2, length_zeros. destruct Hm as [E|E]; lia. }
  rewrite E3, bind_Ok.
  destruct (rows_block_loop (slack_row_1 trans_probs) n (off + 2 * n) z3
              (slack_row trans_probs) A3)
    as (A4 & E4 & L4 & P4 & F4).
  { intros i A Hi Ez. by apply slack_row_1_Ok. }
  { intros i Hi. pose proof (Hoff i Hi).
    rewrite (proj1 (F3 (off + 2 * n + i)%nat ltac:(lia))).
    rewrite (proj1 (F2 (off + 2 * n + i)%nat ltac:(lia))).
    apply Z1; unfold bounds_offset in *; lia. }
  rewrite E4, bind_Ok.
  destruct (rows_block_loop (slack_row_2 trans_probs) n (off + 3 * n) z3
              (slack_row trans_probs) A4)
    as (A5 & E5 & L5 & P5 & F5).
  { intros i A Hi Ez. by apply slack_row_2_Ok. }
  { intros i Hi. pose proof (Hoff i Hi).
    rewrite (F4 (off + 3 * n + i)%nat) by lia.
    rewrite (proj1 (F3 (off + 3 * n + i)%nat ltac:(lia))).
    rewrite (proj1 (F2 (off + 3 * n + i)%nat ltac:(lia))).
    apply Z1; unfold bounds_offset in *; lia. }
  rewrite E5, bind_Ok.
  destruct objective_loop as (c & E6 & Hc).
  rewrite E6, bind_Ok.
  eexists. split; [done|].
  assert (forall k, (k < off)%nat -> A5 !! k = A1 !! k) as Hlow.
  { intros k Hk. rewrite (F5 k), (F4 k) by lia.
    rewrite (proj1 (F3 k ltac:(lia))). by rewrite (proj1 (F2 k ltac:(lia))). }
  assert (forall k, (k < rows)%nat -> ~ (off <= k < off + 2 * n)%nat ->
            b3 !! k = Some 0) as Hb0.
  { intros k Hk Hn. rewrite (proj2 (F3 k ltac:(lia))).
    rewrite (proj2 (F2 k ltac:(lia))). by apply lookup_replicate_2. }
  constructor; cbn [lp_A lp_b lp_c].
  - lia.
  - rewrite Lb3, Lb2. apply length_zeros.
  - intros i a Hi Ha Hne.
    destruct (well_posed_star inv trans_probs policy gamma i W Hi)
      as (_ & Ha' & _).
    pose proof (slot_lt trans_probs _ _ Ha' Ha Hne) as Hs.
    assert (policy_row_index trans_probs policy i a < n * (m - 1))%nat
      as Hidx by (unfold policy_row_index; nia).
    assert (off = 2 * (n * (m - 1)))%nat as Eoff
      by (unfold bounds_offset; lia).
    rewrite !Hlow by lia. rewrite <- policy_row_margin. by apply P1.
  - intros k Hk. apply Hb0; lia.
  - intros i Hi. split.
    + rewrite (F5 (off + i)%nat), (F4 (off + i)%nat) by lia.
      rewrite (proj1 (F3 (off + i)%nat ltac:(lia))). by apply P2.
    + rewrite (proj2 (F3 (off + i)%nat ltac:(lia))). by apply P2.
  - intros i Hi. split.
    + rewrite (F5 (off + n + i)%nat), (F4 (off + n + i)%nat) by lia.
      by apply P3.
    + by apply P3.
  - intros i Hi. pose proof (Hoff i Hi). split.
    + rewrite (F5 (off + 2 * n + i)%nat) by lia. by apply P4.
    + apply Hb0; lia.
  - intros i Hi. pose proof (Hoff i Hi). split.
    + by apply P5.
    + apply Hb0; lia.
  - done.
Qed.

End Formulation.

(** ** Dot products with the rows of the program *)

Lemma dot_nil_r u : dot u [] = 0.
Proof. by destruct u. Qed.

Lemma dot_zeros k x : dot (zeros k) x == 0.
Proof.
  revert x. induction k as [|k IH]; intros x; [reflexivity|].
  destruct x as [|y x]; [reflexivity|]. simpl. rewrite IH. ring.
Qed.

Lemma dot_app u u' x x' :
  length u = length x -> dot (u ++ u') (x ++ x') == dot u x + dot u' x'.
Proof.
  revert x. induction u as [|a u IH]; intros [|y x] Hlen; simpl in *; try lia.
  - ring.
  - rewrite IH by lia. ring.
Qed.

Lemma dot_opp u x : dot (map Qopp u) x == - dot u x.
Proof.
  revert x. induction u as [|a u IH]; intros [|y x]; simpl; try ring.
  rewrite IH. ring.
Qed.

(** Changing one coefficient of a row changes the dot product by the
    difference times the entry of the vector. *)
Lemma dot_insert (u : vec) j c x uj xj :
  u !! j = Some uj -> x !! j = Some xj ->
  dot (<[j := c]> u) x == dot u x + (c - uj) * xj.
Proof.
  revert j x. induction u as [|a u IH]; intros [|j] [|y x] Hu Hx;
    simpl in *; try done.
  - injection Hu as ->. injection Hx as ->. ring.
  - rewrite (IH j x) by done. ring.
Qed.

Lemma lookup_zeros k j : (j < k)%nat -> zeros k !! j = Some 0.
Proof. apply lookup_replicate_2. Qed.

Lemma dot_bound_row k i c (x : vec) xi :
  (i < k)%nat -> x !! i = Some xi ->
  dot (<[i := c]> (zeros k)) x == c * xi.
Proof.
  intros Hi Hx. rewrite (dot_insert _ _ _ _ 0 xi) by (by try apply lookup_zeros).
  rewrite dot_zeros. ring.
Qed.

(** ** The rows of the program and the points they admit *)

Section Constraints.
Variable inv : nat -> sqmat -> option sqmat.
Variable trans_probs : tensor.
Variable policy : matrix.
Variables gamma l1 r_max : Q.

Local Abbreviation n := (shape0 trans_probs).
Local Abbreviation m := (shape2 trans_probs).
Local Abbreviation off := (bounds_offset trans_probs).

Lemma length_margin i a :
  length (margin inv trans_probs policy gamma i a) = n.
Proof. apply length_tabulate. Qed.

(** A policy row admits [R ++ u ++ z] exactly when the margin of [R] is
    not negative. *)
Lemma dot_policy_row_1 i a (R u z : vec) :
  length R = n ->
  dot (map Qopp (margin inv trans_probs policy gamma i a) ++ zeros (2 * n))
      (R ++ u ++ z)
  == - dot (margin inv trans_probs policy gamma i a) R.
Proof.
  intros HR. rewrite dot_app by (by rewrite length_map, length_margin).
  rewrite dot_opp, dot_zeros. ring.
Qed.

(** The linked row admits it exactly when [u_i] is at most that margin. *)
Lemma dot_policy_row_2 i a (R u z : vec) ui :
  length R = n -> length u = n -> (i < n)%nat -> u !! i = Some ui ->
  dot (map Qopp (margin inv trans_probs policy gamma i a)
         ++ <[i := 1]> (zeros (2 * n)))
      (R ++ u ++ z)
  == ui - dot (margin inv trans_probs policy gamma i a) R.
Proof.
  intros HR Hu Hi Eu.
  rewrite dot_app by (by rewrite length_map, length_margin).
  rewrite dot_opp, (dot_bound_row _ _ _ _ ui);
    [ring|lia|by apply lookup_app_l_Some].
Qed.

(** A slack row admits it exactly when [R_i <= z_i]. *)
Lemma dot_slack_row i (R u z : vec) ri zi :
  length R = n -> length u = n -> (i < n)%nat ->
  R !! i = Some ri -> z !! i = Some zi ->
  dot (slack_row trans_probs i) (R ++ u ++ z) == ri - zi.
Proof.
  intros HR Hu Hi ER Ez. unfold slack_row, bound_row.
  assert ((R ++ u ++ z) !! i = Some ri) as Ei by (by apply lookup_app_l_Some).
  assert ((R ++ u ++ z) !! (2 * n + i)%nat = Some zi) as Ezi.
  { rewrite lookup_app_r by lia. rewrite lookup_app_r by lia.
    rewrite <- Ez. f_equal. lia. }
  rewrite (dot_insert _ _ _ _ 0 zi); [| |done].
  - rewrite (dot_bound_row _ _ _ _ ri) by (done || lia). ring.
  - rewrite list_lookup_insert_ne by lia. apply lookup_zeros. lia.
Qed.

Lemma slot_inj a_opt a a' :
  a <> a_opt -> a' <> a_opt -> slot a_opt a = slot a_opt a' -> a = a'.
Proof. unfold slot. repeat case_decide; lia. Qed.

(** The policy rows fill the first [n (m - 1)] rows, one per state and
    action other than the chosen one. *)
Lemma policy_row_index_lt i a :
  well_posed inv trans_probs policy gamma ->
  (i < n)%nat -> (a < m)%nat -> a <> a_star policy i ->
  (policy_row_index trans_probs policy i a < n * (m - 1))%nat.
Proof.
  intros W Hi Ha Hne.
  destruct (well_posed_star inv trans_probs policy gamma i W Hi)
    as (_ & Ha' & _).
  pose proof (slot_lt trans_probs _ _ Ha' Ha Hne).
  unfold policy_row_index. nia.
Qed.

Lemma policy_row_index_inj i a i' a' :
  well_posed inv trans_probs policy gamma ->
  (i < n)%nat -> (a < m)%nat -> a <> a_star policy i ->
  (i' < n)%nat -> (a' < m)%nat -> a' <> a_star policy i' ->
  policy_row_index trans_probs policy i a
    = policy_row_index trans_probs policy i' a' ->
  i = i' /\ a = a'.
Proof.
  intros W Hi Ha Hne Hi' Ha' Hne' E.
  destruct (well_posed_star inv trans_probs policy gamma i W Hi)
    as (_ & Hs & _).
  destruct (well_posed_star inv trans_probs policy gamma i' W Hi')
    as (_ & Hs' & _).
  pose proof (slot_lt trans_probs _ _ Hs Ha Hne).
  pose proof (slot_lt trans_probs _ _ Hs' Ha' Hne').
  unfold policy_row_index in E.
  assert (i = i') as <- by nia. split; [done|].
  apply (slot_inj (a_star policy i)); [done|done|lia].
Qed.

Lemma policy_row_index_surj k :
  well_posed inv trans_probs policy gamma ->
  (k < n * (m - 1))%nat ->
  exists i a, (i < n)%nat /\ (a < m)%nat /\ a <> a_star policy i /\
              k = policy_row_index trans_probs policy i a.
Proof.
  intros W Hk.
  assert (m - 1 <> 0)%nat as Hq by nia.
  pose proof (Nat.div_mod_eq k (m - 1)) as Hdm.
  pose proof (Nat.mod_upper_bound k (m - 1) Hq) as Hmod.
  set (i := (k / (m - 1))%nat) in *. set (j := (k mod (m - 1))%nat) in *.
  assert (i < n)%nat as Hi by nia.
  exists i, (if decide (j < a_star policy i)%nat then j else S j).
  unfold policy_row_index, slot.
  repeat case_decide; split_and!; try lia.
Qed.

End Constraints.

(** ** The claims about the formulation *)

(** The two-state sample is well posed for the policy that always takes
    action 0. *)
Lemma sample_well_posed :
  well_posed Sample.inv_small Sample.T2 [[1; 0]; [1; 0]] (1 # 2).
Proof.
  intros i Hi. exists 0%nat. simpl in Hi.
  destruct i as [|[|i]]; [| |lia];
    (split; [reflexivity|split; [simpl; lia|]]); vm_compute; eauto.
Qed.

(** C1 (the program departs from it).  Both slack loops write the row
    [R_i - z_i <= 0]: for every state [i] the row at offset [3 n + i] is the
    row at offset [2 n + i], with coefficient 1 on [R_i] and -1 on [z_i] and
    bound 0; no row [- R_i - z_i <= 0] is written. *)
Theorem slack_rows_coincide
    (inv : nat -> sqmat -> option sqmat) (trans_probs : tensor)
    (policy : matrix) (gamma l1 r_max : Q) :
  well_posed inv trans_probs policy gamma ->
  exists prog,
    linear_irl_lp inv trans_probs policy gamma l1 r_max
      = Ok (prog, shape0 trans_probs) /\
    forall i, (i < shape0 trans_probs)%nat ->
      let r1 := (bounds_offset trans_probs + 2 * shape0 trans_probs + i)%nat in
      let r2 := (bounds_offset trans_probs + 3 * shape0 trans_probs + i)%nat in
      lp_A prog !! r1 = Some (slack_row trans_probs i) /\
      lp_b prog !! r1 = Some 0 /\
      lp_A prog !! r2 = Some (slack_row trans_probs i) /\
      lp_b prog !! r2 = Some 0 /\
      slack_row trans_probs i !! i = Some 1 /\
      slack_row trans_probs i !! (2 * shape0 trans_probs + i)%nat
        = Some (-1) /\
      forall (R u z : vec) ri zi,
        length R = shape0 trans_probs -> length u = shape0 trans_probs ->
        R !! i = Some ri -> z !! i = Some zi ->
        (dot (slack_row trans_probs i) (R ++ u ++ z) <= 0 <-> ri <= zi).
Proof.
  intros W.
  destruct (linear_irl_lp_formulation inv trans_probs policy gamma l1 r_max W)
    as (prog & E & F).
  exists prog. split; [done|]. intros i Hi r1 r2.
  destruct (f_slack_1 _ _ _ _ _ _ _ F i Hi) as [S1 B1].
  destruct (f_slack_2 _ _ _ _ _ _ _ F i Hi) as [S2 B2].
  split_and!; try done.
  - unfold slack_row, bound_row. rewrite list_lookup_insert_ne by lia.
    apply list_lookup_insert_eq. rewrite length_zeros. lia.
  - unfold slack_row, bound_row. apply list_lookup_insert_eq.
    rewrite length_insert, length_zeros. lia.
  - intros R u z ri zi HR Hu ER Ez.
    rewrite (dot_slack_row trans_probs i R u z ri zi) by done.
    split; intros; lra.
Qed.

Lemma slack_rows_coincide_witness :
  well_posed Sample.inv_small Sample.T2 [[1; 0]; [1; 0]] (1 # 2) /\
  exists prog,
    linear_irl_lp Sample.inv_small Sample.T2 [[1; 0]; [1; 0]] (1 # 2) 10 1
      = Ok (prog, 2%nat) /\
    lp_A prog !! 8%nat = Some [1; 0; 0; 0; -1; 0] /\
    lp_A prog !! 10%nat = Some [1; 0; 0; 0; -1; 0].
Proof.
  split; [exact sample_well_posed|].
  destruct (slack_rows_coincide Sample.inv_small Sample.T2 [[1; 0]; [1; 0]]
              (1 # 2) 10 1 sample_well_posed) as (prog & E & H).
  exists prog. split; [exact E|].
  destruct (H 0%nat ltac:(simpl; lia)) as (H1 & _ & H2 & _).
  split; [exact H1|exact H2].
Defined.

(** The program of the one-state, one-action sample: its last row repeats
    the row before it. *)
Example linear_irl_lp_one_state :
  linear_irl_lp Sample.inv_small Sample.T1 [[1]] (1 # 2) 10 1
  = Ok (LinProg [0; -1; 10]
                [[1; 0; 0]; [-1; 0; 0]; [1; 0; -1]; [1; 0; -1]]
                [1; 0; 0; 0], 1%nat).
Proof. vm_compute. reflexivity. Qed.

(** C2 as amended.  On a well-posed input [linear_irl] reaches the solver
    having inverted one matrix per state.  For every state [i] and action
    [a] other than [a* = np.argmax(policy[i])] it has written two rows with
    bound 0: the negated margin [(P[i,:,a*] - P[i,:,a]) . M_i] over the
    reward block, which admits [R ++ u ++ z] exactly when the margin of [R]
    is at least 0; and the same with coefficient 1 on [u_i], which admits it
    exactly when [u_i] is at most the margin of [R] (an upper bound on
    [u_i]).  These rows are distinct and fill the first [2 n (m - 1)]
    rows. *)
Theorem policy_constraint_rows
    (inv : nat -> sqmat -> option sqmat) (trans_probs : tensor)
    (policy : matrix) (gamma l1 r_max : Q) :
  well_posed inv trans_probs policy gamma ->
  let n := shape0 trans_probs in
  let m := shape2 trans_probs in
  exists prog,
    linear_irl_lp inv trans_probs policy gamma l1 r_max = Ok (prog, n) /\
    (forall i, (i < n)%nat ->
       chosen_action policy i = Ok (a_star policy i) /\
       inv n (bellman_matrix trans_probs gamma (a_star policy i))
         = Some (M_star inv trans_probs policy gamma i)) /\
    (forall i a, (i < n)%nat -> (a < m)%nat -> a <> a_star policy i ->
       let k := policy_row_index trans_probs policy i a in
       let mg := margin inv trans_probs policy gamma i a in
       (k < n * (m - 1))%nat /\
       lp_A prog !! k = Some (map Qopp mg ++ zeros (2 * n)) /\
       lp_b prog !! k = Some 0 /\
       lp_A prog !! (n * (m - 1) + k)%nat
         = Some (map Qopp mg ++ <[i := 1]> (zeros (2 * n))) /\
       lp_b prog !! (n * (m - 1) + k)%nat = Some 0 /\
       forall (R u z : vec) ui,
         length R = n -> length u = n -> u !! i = Some ui ->
         (dot (map Qopp mg ++ zeros (2 * n)) (R ++ u ++ z) <= 0
            <-> 0 <= dot mg R) /\
         (dot (map Qopp mg ++ <[i := 1]> (zeros (2 * n))) (R ++ u ++ z) <= 0
            <-> ui <= dot mg R)) /\
    (forall k, (k < n * (m - 1))%nat ->
       exists i a, (i < n)%nat /\ (a < m)%nat /\ a <> a_star policy i /\
                   k = policy_row_index trans_probs policy i a) /\
    (forall i a i' a',
       (i < n)%nat -> (a < m)%nat -> a <> a_star policy i ->
       (i' < n)%nat -> (a' < m)%nat -> a' <> a_star policy i' ->
       policy_row_index trans_probs policy i a
         = policy_row_index trans_probs policy i' a' ->
       i = i' /\ a = a').
Proof.
  intros W n m. subst n m.
  destruct (linear_irl_lp_formulation inv trans_probs policy gamma l1 r_max W)
    as (prog & E & F).
  exists prog. split_and!.
  - exact E.
  - intros i Hi.
    destruct (well_posed_star inv trans_probs policy gamma i W Hi)
      as (H1 & _ & H2). by split.
  - intros i a Hi Ha Hne k mg.
    pose proof (policy_row_index_lt inv trans_probs policy gamma i a W Hi Ha Hne)
      as Hk. fold k in Hk.
    destruct (f_policy _ _ _ _ _ _ _ F i a Hi Ha Hne) as [R1 R2].
    assert (bounds_offset trans_probs
            = 2 * (shape0 trans_probs * (shape2 trans_probs - 1)))%nat as Eoff
      by (unfold bounds_offset; lia).
    split_and!; try done.
    + apply (f_policy_bound _ _ _ _ _ _ _ F). lia.
    + apply (f_policy_bound _ _ _ _ _ _ _ F). lia.
    + intros R u z ui HR Hu Eu. split.
      * unfold mg. rewrite dot_policy_row_1 by done. split; intros; lra.
      * unfold mg. rewrite (dot_policy_row_2 _ _ _ _ _ _ _ _ _ ui) by done.
        split; intros; lra.
  - intros k Hk. by apply (policy_row_index_surj inv trans_probs policy gamma).
  - intros i a i' a'.
    by apply (policy_row_index_inj inv trans_probs policy gamma).
Qed.

Lemma policy_constraint_rows_witness :
  well_posed Sample.inv_small Sample.T2 [[1; 0]; [1; 0]] (1 # 2) /\
  exists prog,
    linear_irl_lp Sample.inv_small Sample.T2 [[1; 0]; [1; 0]] (1 # 2) 10 1
      = Ok (prog, 2%nat) /\
    lp_A prog !! 0%nat
      = Some (map Qopp (margin Sample.inv_small Sample.T2 [[1; 0]; [1; 0]]
                          (1 # 2) 0 1) ++ zeros 4).
Proof.
  split; [exact sample_well_posed|].
  destruct (policy_constraint_rows Sample.inv_small Sample.T2 [[1; 0]; [1; 0]]
              (1 # 2) 10 1 sample_well_posed) as (prog & E & _ & H & _).
  exists prog. split; [exact E|].
  destruct (H 0%nat 1%nat) as (_ & H1 & _);
    [simpl; lia|simpl; lia|vm_compute; lia|exact H1].
Defined.

(** The program of the two-state sample, its numbers reduced. *)
Example linear_irl_lp_two_states :
  exists prog,
    linear_irl_lp Sample.inv_small Sample.T2 [[1; 0]; [1; 0]] (1 # 2) 10 1
      = Ok (prog, 2%nat) /\
    map Qred (lp_c prog) = [0; 0; -1; -1; 10; 10] /\
    map (map Qred) (lp_A prog)
      = [ [1; -1; 0; 0; 0; 0]; [0; 0; 0; 0; 0; 0];
          [1; -1; 1; 0; 0; 0]; [0; 0; 0; 1; 0; 0];
          [1; 0; 0; 0; 0; 0]; [0; 1; 0; 0; 0; 0];
          [-1; 0; 0; 0; 0; 0]; [0; -1; 0; 0; 0; 0];
          [1; 0; 0; 0; -1; 0]; [0; 1; 0; 0; 0; -1];
          [1; 0; 0; 0; -1; 0]; [0; 1; 0; 0; 0; -1] ] /\
    map Qred (lp_b prog) = [0; 0; 0; 0; 1; 1; 0; 0; 0; 0; 0; 0].
Proof. eexists. split; [vm_compute; reflexivity|]. by vm_compute. Qed.

(** C2 refuted as stated: the linked row does not bound [u_i] from below.
    In the two-state sample the point [R = [0; 1]], [u = [-3; -3]],
    [z = [0; 1]] is feasible, and [u_0 = -3] is below the margin of state 0
    and action 1, which is 1. *)
Lemma linked_row_is_not_a_lower_bound :
  exists prog,
    linear_irl_lp Sample.inv_small Sample.T2 [[1; 0]; [1; 0]] (1 # 2) 10 1
      = Ok (prog, 2%nat) /\
    feasible (lp_A prog) (lp_b prog) ([0; 1] ++ [-3; -3] ++ [0; 1]) /\
    dot (margin Sample.inv_small Sample.T2 [[1; 0]; [1; 0]] (1 # 2) 0 1)
        [0; 1] == 1 /\
    ~ (dot (margin Sample.inv_small Sample.T2 [[1; 0]; [1; 0]] (1 # 2) 0 1)
           [0; 1] <= -3).
Proof.
  eexists. split; [vm_compute; reflexivity|]. split_and!.
  - cbn [lp_A lp_b]. unfold feasible. repeat constructor; by vm_compute.
  - by vm_compute.
  - by vm_compute.
Qed.

(** With a negative [r_max] the program has no feasible point: the rows
    [R_0 <= r_max] and [- R_0 <= 0] contradict each other. *)
Lemma negative_cap_infeasible
    (inv : nat -> sqmat -> option sqmat) (trans_probs : tensor)
    (policy : matrix) (gamma l1 r_max : Q) (prog : lin_prog) :
  formulation inv trans_probs policy gamma l1 r_max prog ->
  (0 < shape0 trans_probs)%nat -> r_max < 0 ->
  forall x, ~ feasible (lp_A prog) (lp_b prog) x.
Proof.
  intros F Hn Hr x Hx.
  destruct (f_upper _ _ _ _ _ _ _ F 0%nat Hn) as [U1 U2].
  destruct (f_lower _ _ _ _ _ _ _ F 0%nat Hn) as [L1 L2].
  pose proof (Forall2_lookup_lr _ _ _ _ _ _ Hx U1 U2) as HU.
  pose proof (Forall2_lookup_lr _ _ _ _ _ _ Hx L1 L2) as HL.
  cbv beta in HU, HL. unfold bound_row in HU, HL.
  destruct x as [|x0 x].
  - rewrite dot_nil_r in HU. lra.
  - rewrite (dot_bound_row _ _ 1 _ x0) in HU by (done || lia).
    rewrite (dot_bound_row _ _ (-1) _ x0) in HL by (done || lia). lra.
Qed.

(** The solver of the samples that never returns a solution returns no
    infeasible one. *)
Lemma sample_lp_none_sound : solver_sound Sample.lp_none.
Proof. intros c A b x E. discriminate E. Qed.

(** C7 as amended.  When the program is infeasible and the solver, which
    returns only vectors that satisfy the constraints, reports so instead of
    raising, its answer holds no solution vector; [linear_irl] does not look
    at the status, subscripts [None] and raises [TypeError]. *)
Theorem linear_irl_no_solution
    (inv : nat -> sqmat -> option sqmat)
    (lp : vec -> matrix -> vec -> outcome (option vec))
    (trans_probs : tensor) (policy : matrix) (gamma l1 r_max : Q)
    (prog : lin_prog) (calls : nat) :
  linear_irl_lp inv trans_probs policy gamma l1 r_max = Ok (prog, calls) ->
  (forall x, ~ feasible (lp_A prog) (lp_b prog) x) ->
  solver_sound lp ->
  (exists sol_x, lp (lp_c prog) (lp_A prog) (lp_b prog) = Ok sol_x) ->
  lp (lp_c prog) (lp_A prog) (lp_b prog) = Ok None /\
  linear_irl inv lp trans_probs policy gamma l1 r_max
    = Err (Raised "TypeError").
Proof.
  intros E Hinf Hsound [sol_x Esol].
  assert (sol_x = None) as ->.
  { destruct sol_x as [x|]; [|done]. exfalso.
    apply (Hinf x). by apply (Hsound _ _ _ _ Esol). }
  split; [exact Esol|].
  unfold linear_irl. rewrite E, bind_Ok. by rewrite Esol.
Qed.

Lemma linear_irl_no_solution_witness :
  exists prog,
    linear_irl_lp Sample.inv_small Sample.T2 [[1; 0]; [1; 0]] (1 # 2) 10 (-1)
      = Ok (prog, 2%nat) /\
    (forall x, ~ feasible (lp_A prog) (lp_b prog) x) /\
    Sample.lp_none (lp_c prog) (lp_A prog) (lp_b prog) = Ok None /\
    linear_irl Sample.inv_small Sample.lp_none Sample.T2 [[1; 0]; [1; 0]]
      (1 # 2) 10 (-1) = Err (Raised "TypeError").
Proof.
  destruct (linear_irl_lp_formulation Sample.inv_small Sample.T2
              [[1; 0]; [1; 0]] (1 # 2) 10 (-1) sample_well_posed)
    as (prog & E & F).
  assert (forall x, ~ feasible (lp_A prog) (lp_b prog) x) as Hinf.
  { apply (negative_cap_infeasible _ _ _ _ _ _ _ F); [simpl; lia|reflexivity]. }
  exists prog. split; [exact E|]. split; [exact Hinf|].
  apply (linear_irl_no_solution Sample.inv_small Sample.lp_none Sample.T2
           [[1; 0]; [1; 0]] (1 # 2) 10 (-1) prog 2%nat E Hinf
           sample_lp_none_sound).
  by eexists.
Defined.

(** C7 refuted as stated.  With [r_max = -1] the program of the
    two-state, two-action sample has no feasible point, while each of its
    six columns has a non-zero entry; the solver reports the infeasibility by
    returning no solution vector, and [linear_irl] raises [TypeError], not
    [IRLInfeasibleError]. *)
Lemma infeasible_program_raises_type_error :
  exists prog,
    linear_irl_lp Sample.inv_small Sample.T2 [[1; 0]; [1; 0]] (1 # 2) 10 (-1)
      = Ok (prog, 2%nat) /\
    map (map Qred) (lp_A prog)
      = [ [1; -1; 0; 0; 0; 0]; [0; 0; 0; 0; 0; 0];
          [1; -1; 1; 0; 0; 0]; [0; 0; 0; 1; 0; 0];
          [1; 0; 0; 0; 0; 0]; [0; 1; 0; 0; 0; 0];
          [-1; 0; 0; 0; 0; 0]; [0; -1; 0; 0; 0; 0];
          [1; 0; 0; 0; -1; 0]; [0; 1; 0; 0; 0; -1];
          [1; 0; 0; 0; -1; 0]; [0; 1; 0; 0; 0; -1] ] /\
    map Qred (lp_b prog) = [0; 0; 0; 0; -1; -1; 0; 0; 0; 0; 0; 0] /\
    (forall x, ~ feasible (lp_A prog) (lp_b prog) x) /\
    linear_irl Sample.inv_small Sample.lp_none Sample.T2 [[1; 0]; [1; 0]]
      (1 # 2) 10 (-1) = Err (Raised "TypeError") /\
    linear_irl Sample.inv_small Sample.lp_none Sample.T2 [[1; 0]; [1; 0]]
      (1 # 2) 10 (-1) <> Err (Raised "IRLInfeasibleError").
Proof.
  eexists. split; [vm_compute; reflexivity|].
  split; [by vm_compute|]. split; [by vm_compute|]. split.
  - intros x Hx. unfold feasible in Hx. cbn [lp_A lp_b] in Hx.
    do 4 apply Forall2_cons_1 in Hx as [_ Hx].
    apply Forall2_cons_1 in Hx as [H0 Hx].
    apply Forall2_cons_1 in Hx as [_ Hx].
    apply Forall2_cons_1 in Hx as [H1 _].
    destruct x as [|y x]; simpl in H0, H1; [lra|].
    assert (dot [0; 0; 0; 0; 0] x == 0) as Ez by apply (dot_zeros 5).
    simpl in Ez. lra.
  - split; [by vm_compute|]. vm_compute. discriminate.
Qed.

(** ** The policy of [value_iteration] *)

(** [argmax_from], run after a prefix [pre] whose first maximum [best] is at
    [bi], finds the first maximum of the whole list. *)
Lemma argmax_from_spec (t pre : vec) best bi :
  pre !! bi = Some best ->
  (forall j x, pre !! j = Some x -> x <= best) ->
  (forall j x, (j < bi)%nat -> pre !! j = Some x -> x < best) ->
  exists b,
    (pre ++ t) !! argmax_from best bi (length pre) t = Some b /\
    (forall j x, (pre ++ t) !! j = Some x -> x <= b) /\
    (forall j x, (j < argmax_from best bi (length pre) t)%nat ->
       (pre ++ t) !! j = Some x -> x < b).
Proof.
  revert pre best bi. induction t as [|y t IH]; intros pre best bi Hb Hle Hlt.
  - simpl. rewrite app_nil_r. eauto.
  - simpl. replace (pre ++ y :: t) with ((pre ++ [y]) ++ t)
      by (by rewrite <- app_assoc).
    replace (S (length pre)) with (length (pre ++ [y]))
      by (rewrite length_app; simpl; lia).
    destruct (Qlt_le_dec best y) as [Hy|Hy].
    + apply IH.
      * rewrite lookup_app_r by lia. by rewrite Nat.sub_diag.
      * intros j x Hx. apply lookup_app_Some in Hx as [Hx|[_ Hx]].
        -- apply Qlt_le_weak. eapply Qle_lt_trans; [by eapply Hle|done].
        -- destruct (j - length pre)%nat; simpl in Hx; [|done].
           injection Hx as <-. apply Qle_refl.
      * intros j x Hj Hx. rewrite lookup_app_l in Hx by done.
        eapply Qle_lt_trans; [by eapply Hle|done].
    + apply IH.
      * by apply lookup_app_l_Some.
      * intros j x Hx. apply lookup_app_Some in Hx as [Hx|[_ Hx]].
        -- by eapply Hle.
        -- destruct (j - length pre)%nat; simpl in Hx; [|done].
           by injection Hx as <-.
      * intros j x Hj Hx. apply lookup_lt_Some in Hb.
        rewrite lookup_app_l in Hx by lia. by eapply Hlt.
Qed.

(** [np.argmax] returns the lowest index that holds the maximum. *)
Lemma np_argmax_spec (l : vec) a :
  np_argmax l = Ok a ->
  exists b,
    l !! a = Some b /\
    (forall j x, l !! j = Some x -> x <= b) /\
    (forall j x, (j < a)%nat -> l !! j = Some x -> x < b).
Proof.
  destruct l as [|x t]; [done|]. simpl. intros E. injection E as <-.
  apply (argmax_from_spec t [x] x 0%nat).
  - done.
  - intros [|j] y Hy; simpl in Hy; [|done]. injection Hy as <-. apply Qle_refl.
  - intros; lia.
Qed.

Lemma vsum_zeros k : vsum (zeros k) == 0.
Proof. induction k as [|k IH]; simpl; [reflexivity|]. rewrite IH. ring. Qed.

Lemma vsum_insert (l : vec) j c lj :
  l !! j = Some lj -> vsum (<[j := c]> l) == vsum l + (c - lj).
Proof.
  revert j. induction l as [|a l IH]; intros [|j] Hj; simpl in *; try done.
  - injection Hj as ->. ring.
  - rewrite (IH j) by done. ring.
Qed.

(** A row of zeros with a 1 at [a]. *)
Lemma one_hot_row k a :
  (a < k)%nat ->
  vsum (<[a := 1]> (zeros k)) == 1 /\
  forall a', (a' < k)%nat ->
    <[a := 1]> (zeros k) !! a' = Some (if decide (a' = a) then 1 else 0).
Proof.
  intros Ha. split.
  - rewrite (vsum_insert _ _ _ 0) by (by apply lookup_zeros).
    rewrite vsum_zeros. ring.
  - intros a' Ha'. case_decide as E.
    + subst. apply list_lookup_insert_eq. by rewrite length_zeros.
    + rewrite list_lookup_insert_ne by done. by apply lookup_zeros.
Qed.

(** What [set_cell] has done when it returns. *)
Lemma set_cell_inv (A A' : matrix) r c x :
  set_cell r c x A = Ok A' ->
  exists row, A !! r = Some row /\ (c < length row)%nat /\
              A' = <[r := <[c := x]> row]> A.
Proof.
  unfold set_cell. destruct (A !! r) as [row|]; [|done].
  case_decide; [|done]. intros E. injection E as <-. eauto.
Qed.

Lemma bind_inv {A B} (m : outcome A) (k : A -> outcome B) y :
  m ≫= k = Ok y -> exists x, m = Ok x /\ k x = Ok y.
Proof. destruct m as [x| |]; [|done|done]. eauto. Qed.

(** The policy loop puts one 1 in each row, at the first maximiser of the
    lookahead. *)
Lemma greedy_policy_spec (e : env) (discount_factor : Q) (V : vec)
    (policy : matrix) :
  greedy_policy e discount_factor V = Ok policy ->
  length policy = nS e /\
  forall s, (s < nS e)%nat ->
    exists A a,
      one_step_lookahead e discount_factor s V = Ok A /\
      np_argmax A = Ok a /\ (a < nA e)%nat /\
      policy !! s = Some (<[a := 1]> (zeros (nA e))).
Proof.
  intros E.
  pose proof (for_range_partial
    (fun (k : nat) (pol : matrix) =>
       length pol = nS e /\
       (forall s, (s < k)%nat ->
          exists A a,
            one_step_lookahead e discount_factor s V = Ok A /\
            np_argmax A = Ok a /\ (a < nA e)%nat /\
            pol !! s = Some (<[a := 1]> (zeros (nA e)))) /\
       (forall s, (k <= s < nS e)%nat -> pol !! s = Some (zeros (nA e))))
    (nS e) (policy_state e discount_factor V) (zeros2 (nS e) (nA e)) policy)
    as H.
  destruct H as (Hlen & Hrows & _); [| |exact E|].
  - split_and!.
    + unfold zeros2. by rewrite length_replicate.
    + intros; lia.
    + intros s Hs. apply lookup_zeros2. lia.
  - intros k pol pol' Hk (Hlen & Hdone & Hrest) Hbody.
    unfold policy_state in Hbody.
    apply bind_inv in Hbody as (A & EA & Hbody).
    apply bind_inv in Hbody as (a & Ea & Hbody).
    apply set_cell_inv in Hbody as (row & Erow & Hc & ->).
    rewrite (Hrest k) in Erow by lia. injection Erow as <-.
    rewrite length_zeros in Hc. split_and!.
    + by rewrite length_insert.
    + intros s Hs. destruct (decide (s = k)) as [->|Hne].
      * exists A, a. split_and!; try done.
        apply list_lookup_insert_eq. lia.
      * rewrite list_lookup_insert_ne by done. apply Hdone. lia.
    + intros s Hs. rewrite list_lookup_insert_ne by lia. apply Hrest. lia.
  - split; [done|]. intros s Hs. by apply Hrows.
Qed.

(** C9.  The policy returned by [value_iteration] has one row per state;
    the row of state [s] holds 1 at [a] and 0 elsewhere (so it sums to 1),
    where [a] is the lowest index at which the lookahead of [s] under the
    returned [V] is maximal. *)
Theorem value_iteration_policy_deterministic
    (e : env) (theta discount_factor : Q) (fuel : nat)
    (policy : matrix) (V : vec) :
  value_iteration e theta discount_factor fuel = Ok (policy, V) ->
  length policy = nS e /\
  forall s, (s < nS e)%nat ->
    exists (A row : vec) (a : nat) (best : Q),
      one_step_lookahead e discount_factor s V = Ok A /\
      policy !! s = Some row /\
      length row = nA e /\ (a < nA e)%nat /\
      (forall a', (a' < nA e)%nat ->
         row !! a' = Some (if decide (a' = a) then 1 else 0)) /\
      vsum row == 1 /\
      A !! a = Some best /\
      (forall a' x, A !! a' = Some x -> x <= best) /\
      (forall a' x, (a' < a)%nat -> A !! a' = Some x -> x < best).
Proof.
  unfold value_iteration. intros E.
  apply bind_inv in E as (V' & _ & E).
  apply bind_inv in E as (pol & Epol & E). injection E as -> ->.
  destruct (greedy_policy_spec _ _ _ _ Epol) as [Hlen Hrows].
  split; [done|]. intros s Hs.
  destruct (Hrows s Hs) as (A & a & EA & Ea & Ha & Erow).
  destruct (np_argmax_spec A a Ea) as (best & Eb & Hmax & Hfirst).
  destruct (one_hot_row (nA e) a Ha) as [Hsum Hcells].
  exists A, (<[a := 1]> (zeros (nA e))), a, best.
  split_and!; try done.
  by rewrite length_insert, length_zeros.
Qed.

Lemma value_iteration_policy_deterministic_witness :
  value_iteration Sample.env2 (1 # 1000) (1 # 2) 30
    = Ok ([[1; 0]; [1; 0]], [4094 # 2048; 4094 # 2048]) /\
  length [[1; 0]; [1; 0]] = nS Sample.env2.
Proof.
  assert (value_iteration Sample.env2 (1 # 1000) (1 # 2) 30
          = Ok ([[1; 0]; [1; 0]], [4094 # 2048; 4094 # 2048])) as E
    by (vm_compute; reflexivity).
  split; [exact E|].
  exact (proj1 (value_iteration_policy_deterministic Sample.env2 (1 # 1000)
                  (1 # 2) 30 _ _ E)).
Defined.

(** ** [value_iteration] on a well-formed environment: one pass *)

Lemma lookahead_sum_Ok discount_factor (V : vec) ts acc :
  Forall (fun t => (next_state t < length V)%nat) ts ->
  lookahead_sum discount_factor V ts acc
  = Ok (fold_left
          (fun acc t =>
             acc + prob t
                   * (reward t + discount_factor * nth (next_state t) V 0))
          ts acc).
Proof.
  revert acc. induction ts as [|t ts IH]; intros acc H; simpl; [done|].
  apply Forall_cons in H as [Ht H].
  destruct (lookup_lt_is_Some_2 V (next_state t) Ht) as [v Ev].
  rewrite Ev. cbn [of_lookup]. rewrite bind_Ok, IH by done.
  by rewrite (nth_lookup_Some _ _ 0 _ Ev).
Qed.

Lemma map_nth_seq {A B} (h : A -> B) (l : list A) d :
  map (fun a => h (nth a l d)) (seq 0 (length l)) = map h l.
Proof.
  apply list_eq. intros i. rewrite !list_lookup_fmap.
  destruct (l !! i) as [x|] eqn:E.
  - rewrite lookup_seq_lt by (by eapply lookup_lt_Some). simpl.
    by rewrite (nth_lookup_Some _ _ d _ E).
  - apply lookup_ge_None in E. rewrite lookup_seq_ge by done. done.
Qed.

Section OnePass.
Variable e : env.
Variable discount_factor : Q.
Hypothesis WF : well_formed e.

Lemma well_formed_state s :
  (s < nS e)%nat ->
  exists by_a, P e !! s = Some by_a /\ length by_a = nA e /\ by_a <> [] /\
    forall a ts, by_a !! a = Some ts ->
      Forall (fun t => (next_state t < nS e)%nat) ts.
Proof.
  intros Hs. destruct WF as (HnA & HP & Hrows).
  destruct (lookup_lt_is_Some_2 (P e) s) as [by_a E]; [lia|].
  destruct (Hrows s by_a E) as [Hlen Hts].
  exists by_a. split_and!; try done.
  intros ->. simpl in Hlen. lia.
Qed.

(** The lookahead raises nothing and is the vector of the backups. *)
Lemma one_step_lookahead_Ok s (V : vec) :
  length V = nS e -> (s < nS e)%nat ->
  exists by_a,
    P e !! s = Some by_a /\ by_a <> [] /\
    one_step_lookahead e discount_factor s V
      = Ok (map (backup discount_factor V) by_a).
Proof.
  intros HV Hs.
  destruct (well_formed_state s Hs) as (by_a & E & Hlen & Hne & Hts).
  exists by_a. split_and!; try done.
  unfold one_step_lookahead.
  rewrite (map_each_Ok _ (fun a => backup discount_factor V (nth a by_a []))).
  - by rewrite <- Hlen, map_nth_seq.
  - intros a Ha. apply elem_of_seq in Ha.
    destruct (lookup_lt_is_Some_2 by_a a) as [ts Ets]; [lia|].
    unfold lookahead_action. rewrite E. cbn [of_lookup]. rewrite bind_Ok, Ets.
    cbn [of_lookup]. rewrite bind_Ok, lookahead_sum_Ok.
    + by rewrite (nth_lookup_Some _ _ [] _ Ets).
    + rewrite HV. by eapply Hts.
Qed.

(** One state of the pass, in terms of [best_value]. *)
Lemma sweep_state_Ok s delta (V : vec) :
  length V = nS e -> (s < nS e)%nat ->
  sweep_state e discount_factor s (delta, V)
  = Ok (Qmax delta (Qabs (best_value e discount_factor V s - nth s V 0)),
        <[s := best_value e discount_factor V s]> V).
Proof.
  intros HV Hs.
  destruct (one_step_lookahead_Ok s V HV Hs) as (by_a & E & Hne & EA).
  unfold sweep_state. rewrite EA, bind_Ok.
  assert (map (backup discount_factor V) by_a <> []) as Hne'
    by (by destruct by_a).
  destruct (np_max_spec _ Hne') as (best & Eb & _).
  assert (best_value e discount_factor V s = best) as ->
    by (unfold best_value; by rewrite E, Eb).
  rewrite Eb, bind_Ok.
  destruct (lookup_lt_is_Some_2 V s) as [old Eold]; [lia|].
  rewrite Eold. cbn [of_lookup]. rewrite bind_Ok.
  rewrite set_item_Ok by lia. rewrite bind_Ok.
  by rewrite (nth_lookup_Some _ _ 0 _ Eold).
Qed.

Lemma length_pass_values k (V : vec) :
  length (pass_values e discount_factor k V) = length V.
Proof. induction k as [|k IH]; simpl; [done|]. by rewrite length_insert. Qed.

(** The first [k] states of a pass. *)
Lemma sweep_prefix k (V : vec) :
  length V = nS e -> (k <= nS e)%nat ->
  for_range k (sweep_state e discount_factor) (0, V)
  = Ok (pass_delta e discount_factor k V, pass_values e discount_factor k V).
Proof.
  intros HV. induction k as [|k IH]; intros Hk; [done|].
  rewrite for_range_S, IH by lia. rewrite bind_Ok.
  rewrite sweep_state_Ok; [done| |lia]. by rewrite length_pass_values.
Qed.

(** A whole pass raises nothing. *)
Lemma sweep_Ok (V : vec) :
  length V = nS e ->
  sweep e discount_factor V
  = Ok (pass_delta e discount_factor (nS e) V,
        pass_values e discount_factor (nS e) V).
Proof. intros HV. unfold sweep. by apply sweep_prefix. Qed.

(** The policy loop raises nothing. *)
Lemma greedy_policy_Ok (V : vec) :
  length V = nS e ->
  exists policy, greedy_policy e discount_factor V = Ok policy.
Proof.
  intros HV.
  destruct (for_range_total
    (fun (k : nat) (pol : matrix) =>
       length pol = nS e /\
       forall s, (s < nS e)%nat -> exists row,
         pol !! s = Some row /\ length row = nA e)
    (nS e) (policy_state e discount_factor V) (zeros2 (nS e) (nA e)))
    as (pol & E & _).
  - split; [unfold zeros2; by rewrite length_replicate|].
    intros s Hs. exists (zeros (nA e)).
    split; [by apply lookup_zeros2|apply length_zeros].
  - intros k pol Hk [Hlen Hrows].
    destruct (one_step_lookahead_Ok k V HV Hk) as (by_a & E & Hne & EA).
    destruct (well_formed_state k Hk) as (by_a' & E' & Hlen' & _).
    rewrite E in E'. injection E' as <-.
    unfold policy_state. rewrite EA, bind_Ok.
    destruct (map (backup discount_factor V) by_a) as [|x t] eqn:EM;
      [by destruct by_a|].
    assert (length (x :: t) = nA e) as HA
      by (by rewrite <- EM, length_map).
    destruct (np_argmax (x :: t)) as [a| |] eqn:Ea; try done.
    destruct (np_argmax_spec _ _ Ea) as (b & Eb & _).
    apply lookup_lt_Some in Eb. rewrite bind_Ok.
    destruct (Hrows k Hk) as (row & Erow & Hrow).
    rewrite (set_cell_Ok _ _ _ _ _ Erow) by lia.
    eexists. split; [done|]. split; [by rewrite length_insert|].
    intros s Hs. destruct (decide (s = k)) as [->|Hne'].
    + eexists. split; [apply list_lookup_insert_eq; lia|].
      by rewrite length_insert.
    + rewrite list_lookup_insert_ne by done. by apply Hrows.
  - by exists pol.
Qed.

End OnePass.

(** ** The values and [delta] of a pass *)

Lemma nth_insert_ne {A} (l : list A) i j x d :
  i <> j -> nth j (<[i := x]> l) d = nth j l d.
Proof. intros H. by rewrite !nth_lookup, list_lookup_insert_ne. Qed.

Lemma nth_insert_eq {A} (l : list A) i x d :
  (i < length l)%nat -> nth i (<[i := x]> l) d = x.
Proof. intros H. by rewrite nth_lookup, list_lookup_insert_eq. Qed.

Lemma nth_ge_length {A} (l : list A) i d :
  (length l <= i)%nat -> nth i l d = d.
Proof. intros H. by rewrite nth_lookup, (lookup_ge_None_2 l i H). Qed.

Section PassValues.
Variable e : env.
Variable discount_factor : Q.

Local Abbreviation vals := (pass_values e discount_factor).
Local Abbreviation dlt := (pass_delta e discount_factor).
Local Abbreviation best := (best_value e discount_factor).

(** A pass leaves the states it has not reached as they were. *)
Lemma nth_pass_values_ge k s (V : vec) :
  (k <= s)%nat -> nth s (vals k V) 0 = nth s V 0.
Proof.
  induction k as [|k IH]; intros Hk; simpl; [done|].
  rewrite nth_insert_ne by lia. apply IH. lia.
Qed.

(** The value of a state it has passed is the one it wrote there. *)
Lemma nth_pass_values_lt k s (V : vec) :
  (s < k)%nat -> (k <= length V)%nat ->
  nth s (vals k V) 0 = best (vals s V) s.
Proof.
  induction k as [|k IH]; intros Hs Hk; [lia|]. simpl.
  destruct (decide (s = k)) as [->|Hne].
  - apply nth_insert_eq. rewrite length_pass_values. lia.
  - rewrite nth_insert_ne by done. apply IH; lia.
Qed.

Lemma pass_delta_nonneg k (V : vec) : 0 <= dlt k V.
Proof.
  destruct k as [|k]; cbn [pass_delta pass_values]; [apply Qle_refl|].
  eapply Qle_trans; [apply Qabs_nonneg|apply Q.le_max_r].
Qed.

(** [delta] bounds the change of every state passed. *)
Lemma pass_delta_bounds k s (V : vec) :
  (s < k)%nat -> (k <= length V)%nat ->
  Qabs (nth s (vals k V) 0 - nth s V 0) <= dlt k V.
Proof.
  induction k as [|k IH]; intros Hs Hk; [lia|].
  destruct (decide (s = k)) as [->|Hne].
  - rewrite nth_pass_values_lt by lia. cbn [pass_delta pass_values].
    rewrite (nth_pass_values_ge k k V) by lia. apply Q.le_max_r.
  - eapply Qle_trans; [|apply Q.le_max_l]. cbn [pass_delta pass_values].
    rewrite nth_insert_ne by done. apply IH; lia.
Qed.

(** [delta] is the least such bound that is not negative. *)
Lemma pass_delta_least k (V : vec) c :
  (k <= length V)%nat -> 0 <= c ->
  (forall s, (s < k)%nat -> Qabs (nth s (vals k V) 0 - nth s V 0) <= c) ->
  dlt k V <= c.
Proof.
  induction k as [|k IH]; intros Hk Hc Hall; [done|]. cbn [pass_delta pass_values].
  apply Q.max_lub.
  - apply IH; [lia|done|]. intros s Hs.
    specialize (Hall s ltac:(lia)). cbn [pass_delta pass_values] in Hall.
    by rewrite nth_insert_ne in Hall by lia.
  - specialize (Hall k ltac:(lia)).
    rewrite nth_pass_values_lt in Hall by lia.
    by rewrite (nth_pass_values_ge k k V).
Qed.

(** [delta] is the change of some state, when there is one. *)
Lemma pass_delta_attained k (V : vec) :
  (0 < k)%nat -> (k <= length V)%nat ->
  exists s, (s < k)%nat /\
    dlt k V == Qabs (nth s (vals k V) 0 - nth s V 0).
Proof.
  induction k as [|k IH]; intros Hpos Hk; [lia|].
  change (dlt (S k) V)
    with (Qmax (dlt k V) (Qabs (best (vals k V) k - nth k (vals k V) 0))).
  set (x := Qabs (best (vals k V) k - nth k (vals k V) 0)).
  destruct (Qlt_le_dec (dlt k V) x) as [Hlt|Hle].
  - exists k. split; [lia|]. rewrite (Q.max_r _ _ (Qlt_le_weak _ _ Hlt)).
    unfold x. rewrite (nth_pass_values_lt (S k) k V) by lia.
    by rewrite (nth_pass_values_ge k k V).
  - pose proof (Q.max_l _ _ Hle) as Emax. destruct k as [|k'].
    + exists 0%nat. split; [lia|]. rewrite Emax. unfold x in *.
      cbn [pass_delta pass_values] in *.
      apply Qle_antisym; [apply Qabs_nonneg|].
      rewrite nth_insert_eq by lia. done.
    + destruct IH as (s & Hs & E); [lia|lia|].
      exists s. split; [lia|]. rewrite Emax, E.
      change (vals (S (S k')) V)
        with (<[S k' := best (vals (S k') V) (S k')]> (vals (S k') V)).
      by rewrite nth_insert_ne by lia.
Qed.

End PassValues.

(** ** A pass is a contraction *)

(** Two value functions that differ by at most [c] in every state give
    backups that differ by at most [discount_factor * c] times the total
    probability. *)
Lemma fold_backup_close discount_factor (X Y : vec) c ts a1 a2 :
  0 <= discount_factor ->
  (forall s, - c <= nth s X 0 - nth s Y 0 <= c) ->
  Forall (fun t => 0 <= prob t) ts ->
  let f := fun (V : vec) acc t =>
    acc + prob t * (reward t + discount_factor * nth (next_state t) V 0) in
  - (discount_factor * c * psum ts)
    <= (fold_left (f X) ts a1 - fold_left (f Y) ts a2) - (a1 - a2)
    <= discount_factor * c * psum ts.
Proof.
  intros Hg Hc Hp f. subst f. revert a1 a2.
  induction ts as [|t ts IH]; intros a1 a2; simpl.
  - lra.
  - apply Forall_cons in Hp as [Hpt Hp].
    specialize (IH Hp
      (a1 + prob t * (reward t + discount_factor * nth (next_state t) X 0))
      (a2 + prob t * (reward t + discount_factor * nth (next_state t) Y 0))).
    destruct (Hc (next_state t)) as [Hlo Hhi].
    set (x := nth (next_state t) X 0) in *.
    set (y := nth (next_state t) Y 0) in *.
    assert (0 <= prob t * discount_factor) as Hpg
      by (by apply Qmult_le_0_compat).
    assert (0 <= prob t * discount_factor * (c - (x - y))) as H1
      by (apply Qmult_le_0_compat; [done|lra]).
    assert (0 <= prob t * discount_factor * (c + (x - y))) as H2
      by (apply Qmult_le_0_compat; [done|lra]).
    lra.
Qed.

Lemma backup_close discount_factor (X Y : vec) c ts :
  0 <= discount_factor -> 0 <= c ->
  (forall s, - c <= nth s X 0 - nth s Y 0 <= c) ->
  Forall (fun t => 0 <= prob t) ts -> psum ts <= 1 ->
  - (discount_factor * c)
    <= backup discount_factor X ts - backup discount_factor Y ts
    <= discount_factor * c.
Proof.
  intros Hg Hc0 Hc Hp Hs.
  pose proof (fold_backup_close discount_factor X Y c ts 0 0 Hg Hc Hp) as H.
  cbv beta zeta in H. unfold backup.
  assert (0 <= discount_factor * c * (1 - psum ts)) as H1.
  { apply Qmult_le_0_compat; [by apply Qmult_le_0_compat|lra]. }
  lra.
Qed.

(** Two vectors that are close entry by entry have close maxima. *)
Lemma np_max_close {A} (f g : A -> Q) (l : list A) c m1 m2 :
  (forall x, x ∈ l -> - c <= f x - g x <= c) ->
  np_max (map f l) = Ok m1 -> np_max (map g l) = Ok m2 ->
  - c <= m1 - m2 <= c.
Proof.
  intros Hc E1 E2.
  assert (l <> []) as Hne by (intros ->; done).
  destruct (np_max_spec (map f l)) as (m1' & E1' & Hin1 & Hub1);
    [by destruct l|].
  destruct (np_max_spec (map g l)) as (m2' & E2' & Hin2 & Hub2);
    [by destruct l|].
  rewrite E1 in E1'. injection E1' as <-.
  rewrite E2 in E2'. injection E2' as <-.
  apply list_elem_of_fmap in Hin1 as (x1 & -> & Hx1).
  apply list_elem_of_fmap in Hin2 as (x2 & -> & Hx2).
  pose proof (Hub1 (f x2) (list_elem_of_fmap_2 f _ _ Hx2)).
  pose proof (Hub2 (g x1) (list_elem_of_fmap_2 g _ _ Hx1)).
  pose proof (Hc x1 Hx1). pose proof (Hc x2 Hx2). lra.
Qed.

Section Contraction.
Variable e : env.
Variable discount_factor : Q.
Hypothesis MDP : finite_mdp e.
Hypothesis Hg0 : 0 <= discount_factor.
Hypothesis Hg1 : discount_factor <= 1.

Local Abbreviation vals := (pass_values e discount_factor).
Local Abbreviation dlt := (pass_delta e discount_factor).
Local Abbreviation best := (best_value e discount_factor).

Lemma best_value_close s (X Y : vec) c :
  (s < nS e)%nat -> 0 <= c ->
  (forall s', - c <= nth s' X 0 - nth s' Y 0 <= c) ->
  - (discount_factor * c) <= best X s - best Y s <= discount_factor * c.
Proof.
  intros Hs Hc0 Hc. destruct MDP as [WF ST].
  destruct (well_formed_state e WF s Hs) as (by_a & E & _ & Hne & _).
  unfold best_value. rewrite E.
  destruct (np_max_spec (map (backup discount_factor X) by_a))
    as (m1 & E1 & _); [by destruct by_a|].
  destruct (np_max_spec (map (backup discount_factor Y) by_a))
    as (m2 & E2 & _); [by destruct by_a|].
  rewrite E1, E2.
  apply (np_max_close (backup discount_factor X) (backup discount_factor Y)
           by_a (discount_factor * c) m1 m2); [|done|done].
  intros ts Hts. apply list_elem_of_lookup in Hts as [a Ha].
  destruct (ST s by_a a ts E Ha) as [Hp Hsum].
  by apply backup_close.
Qed.

(** After [k] states, two passes that started within [c] of each other are
    within [c] everywhere and within [discount_factor * c] on the states
    passed. *)
Lemma pass_values_close k (X Y : vec) c :
  length X = nS e -> length Y = nS e -> (k <= nS e)%nat -> 0 <= c ->
  (forall s, - c <= nth s X 0 - nth s Y 0 <= c) ->
  forall s,
    - c <= nth s (vals k X) 0 - nth s (vals k Y) 0 <= c /\
    ((s < k)%nat ->
     - (discount_factor * c)
       <= nth s (vals k X) 0 - nth s (vals k Y) 0
       <= discount_factor * c).
Proof.
  intros HX HY Hk Hc0 Hc.
  assert (discount_factor * c <= c) as Hgc.
  { assert (0 <= (1 - discount_factor) * c)
      by (apply Qmult_le_0_compat; lra). lra. }
  induction k as [|k IH]; intros s.
  - split; [apply Hc|lia].
  - specialize (IH ltac:(lia)).
    pose proof (best_value_close k (vals k X) (vals k Y) c ltac:(lia) Hc0
                  (fun s' => proj1 (IH s'))) as Hb.
    cbn [pass_values]. destruct (decide (s = k)) as [->|Hne].
    + rewrite !nth_insert_eq by (rewrite length_pass_values; lia).
      split; [lra|done].
    + rewrite !nth_insert_ne by done. split; [apply IH|].
      intros Hs. apply IH. lia.
Qed.

(** The [delta] of a pass is at most [discount_factor] times the [delta]
    of the pass before it. *)
Lemma pass_delta_decays (V : vec) :
  length V = nS e ->
  dlt (nS e) (vals (nS e) V) <= discount_factor * dlt (nS e) V.
Proof.
  intros HV.
  pose proof (pass_delta_nonneg e discount_factor (nS e) V) as Hd0.
  apply pass_delta_least.
  - rewrite length_pass_values. lia.
  - by apply Qmult_le_0_compat.
  - intros s Hs. apply Qabs_Qle_condition.
    apply (pass_values_close (nS e) (vals (nS e) V) V
             (dlt (nS e) V)); try done.
    + by rewrite length_pass_values.
    + intros s'. apply Qabs_Qle_condition.
      destruct (decide (s' < nS e)%nat) as [Hlt|Hge].
      * apply pass_delta_bounds; lia.
      * rewrite !nth_ge_length
          by (rewrite ?length_pass_values; lia).
        apply Qle_trans with 0; [by vm_compute|done].
Qed.

End Contraction.

(** ** Powers of the discount factor *)

Lemma geo_nonneg g k : 0 <= g -> 0 <= geo g k.
Proof.
  intros Hg. induction k as [|k IH]; simpl; [lra|].
  by apply Qmult_le_0_compat.
Qed.

Lemma geo_le_1 g k : 0 <= g -> g <= 1 -> geo g k <= 1.
Proof.
  intros Hg0 Hg1. induction k as [|k IH]; simpl; [lra|].
  pose proof (geo_nonneg g k Hg0) as H0.
  assert (0 <= (1 - g) * geo g k) by (apply Qmult_le_0_compat; lra).
  lra.
Qed.

Lemma inject_nat_S k :
  inject_Z (Z.of_nat (S k)) == inject_Z (Z.of_nat k) + 1.
Proof. rewrite Nat2Z.inj_succ. unfold Z.succ. by rewrite inject_Z_plus. Qed.

(** Bernoulli's inequality, for the powers of a number between 0 and 1. *)
Lemma geo_bernoulli g k :
  0 <= g -> g <= 1 ->
  geo g k * (1 + inject_Z (Z.of_nat k) * (1 - g)) <= 1.
Proof.
  intros Hg0 Hg1. induction k as [|k IH].
  - change (inject_Z (Z.of_nat 0)) with 0. cbn [geo]. lra.
  - rewrite inject_nat_S. cbn [geo].
    set (G := geo g k) in *. set (K := inject_Z (Z.of_nat k)) in *.
    pose proof (geo_nonneg g k Hg0) as HG0. fold G in HG0.
    pose proof (geo_le_1 g k Hg0 Hg1) as HG1. fold G in HG1.
    assert (0 <= g * (1 - G * (1 + K * (1 - g)))) as H1
      by (apply Qmult_le_0_compat; lra).
    assert (0 <= g * ((1 - G) * (1 - g))) as H2.
    { apply Qmult_le_0_compat; [done|]. apply Qmult_le_0_compat; lra. }
    assert (0 <= (1 - g) * (1 - g)) as H3 by (apply Qmult_le_0_compat; lra).
    lra.
Qed.

(** The powers of a discount factor below 1 bring any [d] below any
    positive [theta]. *)
Lemma geo_small g d theta :
  0 <= g -> g < 1 -> 0 <= d -> 0 < theta ->
  exists N, geo g N * d < theta.
Proof.
  intros Hg0 Hg1 Hd Ht.
  assert (0 < theta * (1 - g)) as Hden by (apply Qmult_lt_0_compat; lra).
  destruct (Qarchimedean (d / (theta * (1 - g)))) as [p Hp].
  exists (Pos.to_nat p).
  assert (inject_Z (Z.of_nat (Pos.to_nat p)) == Z.pos p # 1) as EN
    by (by rewrite positive_nat_Z).
  pose proof (geo_bernoulli g (Pos.to_nat p) Hg0 ltac:(lra)) as HB.
  pose proof (geo_nonneg g (Pos.to_nat p) Hg0) as HG0.
  rewrite EN in HB. set (G := geo g (Pos.to_nat p)) in *.
  set (N := Z.pos p # 1) in *.
  assert (d < N * (theta * (1 - g))) as HdN.
  { apply (Qmult_lt_r _ _ (theta * (1 - g)) Hden) in Hp.
    assert (d / (theta * (1 - g)) * (theta * (1 - g)) == d) as Ed
      by (field; lra).
    rewrite Ed in Hp. exact Hp. }
  assert (0 < 1 + N * (1 - g)) as Hpos.
  { assert (0 < N) by (unfold N; reflexivity).
    assert (0 <= N * (1 - g)) by (apply Qmult_le_0_compat; lra). lra. }
  apply (Qmult_lt_r _ _ (1 + N * (1 - g)) Hpos).
  assert (0 <= d * (1 - G * (1 + N * (1 - g)))) as H1
    by (apply Qmult_le_0_compat; lra).
  lra.
Qed.

(** A sequence that gets below [theta] has a first index at which it
    does. *)
Lemma first_below (f : nat -> Q) theta N :
  f N < theta ->
  exists k, (k <= N)%nat /\ f k < theta /\
            forall j, (j < k)%nat -> theta <= f j.
Proof.
  intros HN.
  assert (forall n, (forall j, (j <= n)%nat -> theta <= f j) \/
                    exists k, (k <= n)%nat /\ f k < theta /\
                              forall j, (j < k)%nat -> theta <= f j) as H.
  { induction n as [|n [IH|(k & Hk & Hlt & Hmin)]].
    - destruct (Qlt_le_dec (f 0%nat) theta) as [H0|H0].
      + right. exists 0%nat. split_and!; [lia|done|intros; lia].
      + left. intros j Hj. by replace j with 0%nat by lia.
    - destruct (Qlt_le_dec (f (S n)) theta) as [H0|H0].
      + right. exists (S n). split_and!; [lia|done|].
        intros j Hj. apply IH. lia.
      + left. intros j Hj. destruct (decide (j = S n)) as [->|]; [done|].
        apply IH. lia.
    - right. exists k. split_and!; [lia|done|done]. }
  destruct (H N) as [Hall|(k & Hk & Hlt & Hmin)].
  - specialize (Hall N ltac:(lia)). lra.
  - by exists k.
Qed.

(** ** The [while] loop *)

Section Loop.
Variable e : env.
Variables theta discount_factor : Q.
Hypothesis WF : well_formed e.

Local Abbreviation pass := (pass_values e discount_factor (nS e)).
Local Abbreviation delta_of := (pass_delta e discount_factor (nS e)).
Local Abbreviation after := (passes e discount_factor).

Lemma length_passes k (V : vec) : length V = nS e -> length (after k V) = nS e.
Proof.
  intros HV. induction k as [|k IH]; cbn [passes]; [done|].
  by rewrite length_pass_values.
Qed.

Lemma passes_shift k (V : vec) : after k (pass V) = after (S k) V.
Proof.
  induction k as [|k IH]; [done|].
  change (after (S k) (pass V)) with (pass (after k (pass V))).
  by rewrite IH.
Qed.

(** The loop makes exactly the passes whose [delta] is not below [theta],
    then one more, and returns its values. *)
Lemma vi_loop_run k :
  forall (V : vec) fuel,
    length V = nS e ->
    (forall j, (j < k)%nat -> theta <= delta_of (after j V)) ->
    delta_of (after k V) < theta ->
    (k < fuel)%nat ->
    vi_loop e theta discount_factor fuel V = Ok (after (S k) V).
Proof.
  induction k as [|k IH]; intros V fuel HV Hbefore Hlast Hfuel;
    (destruct fuel as [|fuel]; [lia|]); cbn [vi_loop];
    rewrite (sweep_Ok e discount_factor WF V HV), bind_Ok;
    destruct (Qlt_le_dec (delta_of V) theta) as [Hlt|Hge].
  - done.
  - cbn [passes] in Hlast. lra.
  - specialize (Hbefore 0%nat ltac:(lia)). cbn [passes] in Hbefore. lra.
  - rewrite <- passes_shift. apply IH.
    + by rewrite length_pass_values.
    + intros j Hj. rewrite passes_shift. apply Hbefore. lia.
    + by rewrite passes_shift.
    + lia.
Qed.

(** Before that the loop has not returned. *)
Lemma vi_loop_short k :
  forall (V : vec) fuel,
    length V = nS e ->
    (forall j, (j < k)%nat -> theta <= delta_of (after j V)) ->
    (fuel <= k)%nat ->
    vi_loop e theta discount_factor fuel V = Diverge.
Proof.
  induction k as [|k IH]; intros V fuel HV Hbefore Hfuel;
    (destruct fuel as [|fuel]; [done|]); [lia|].
  cbn [vi_loop]. rewrite (sweep_Ok e discount_factor WF V HV), bind_Ok.
  destruct (Qlt_le_dec (delta_of V) theta) as [Hlt|Hge].
  - specialize (Hbefore 0%nat ltac:(lia)). cbn [passes] in Hbefore. lra.
  - apply IH; [by rewrite length_pass_values| |lia].
    intros j Hj. rewrite passes_shift. apply Hbefore. lia.
Qed.

End Loop.

Section Convergence.
Variable e : env.
Variables theta discount_factor : Q.
Hypothesis MDP : finite_mdp e.
Hypothesis Hg0 : 0 <= discount_factor.
Hypothesis Hg1 : discount_factor < 1.
Hypothesis Ht : 0 < theta.

Local Abbreviation delta_of := (pass_delta e discount_factor (nS e)).
Local Abbreviation after := (passes e discount_factor).

(** The [delta] of pass [j] is at most [discount_factor] to the [j] times
    the first one. *)
Lemma pass_delta_geometric (V : vec) j :
  length V = nS e ->
  delta_of (after j V) <= geo discount_factor j * delta_of V.
Proof.
  intros HV. induction j as [|j IH]; cbn [passes geo]; [lra|].
  pose proof (pass_delta_decays e discount_factor MDP Hg0 ltac:(lra)
                (after j V) (length_passes e discount_factor j V HV)) as H.
  assert (0 <= discount_factor
               * (geo discount_factor j * delta_of V - delta_of (after j V)))
    by (apply Qmult_le_0_compat; lra).
  lra.
Qed.

(** Some pass has [delta < theta]; take the first. *)
Lemma first_converged_pass (V : vec) :
  length V = nS e ->
  exists k, delta_of (after k V) < theta /\
            forall j, (j < k)%nat -> theta <= delta_of (after j V).
Proof.
  intros HV.
  destruct (geo_small discount_factor (delta_of V) theta Hg0 Hg1
              (pass_delta_nonneg e discount_factor (nS e) V) Ht) as [N HN].
  destruct (first_below (fun j => delta_of (after j V)) theta N)
    as (k & _ & Hk & Hmin).
  - eapply Qle_lt_trans; [by apply pass_delta_geometric|done].
  - by exists k.
Qed.

End Convergence.

(** The contraction argument, in exact arithmetic.  Over the rationals,
    on a finite MDP with [0 <= discount_factor < 1] and [theta > 0], there
    is a pass [k] that is the first with [delta < theta]; with any fuel above
    [k] the call returns the values after that pass, and with less it has
    not returned.  This is a fact about the algorithm: the program rounds
    every operation, and its loop is the one of [F64] below. *)
Lemma value_iteration_terminates_in_exact_arithmetic
    (e : env) (theta discount_factor : Q) :
  finite_mdp e -> 0 <= discount_factor -> discount_factor < 1 ->
  0 < theta ->
  exists (k : nat) (policy : matrix),
    let V_old := passes e discount_factor k (zeros (nS e)) in
    let V := passes e discount_factor (S k) (zeros (nS e)) in
    let delta := pass_delta e discount_factor (nS e) V_old in
    (forall fuel, (k < fuel)%nat ->
       value_iteration e theta discount_factor fuel = Ok (policy, V)) /\
    (forall fuel, (fuel <= k)%nat ->
       value_iteration e theta discount_factor fuel = Diverge) /\
    sweep e discount_factor V_old = Ok (delta, V) /\
    delta < theta /\
    (forall j, (j < k)%nat ->
       theta <= pass_delta e discount_factor (nS e)
                  (passes e discount_factor j (zeros (nS e)))) /\
    (forall s, (s < nS e)%nat ->
       Qabs (nth s V 0 - nth s V_old 0) <= delta) /\
    (nS e = 0%nat \/
     exists s, (s < nS e)%nat /\
               delta == Qabs (nth s V 0 - nth s V_old 0)).
Proof.
  intros MDP Hg0 Hg1 Ht. pose proof MDP as [WF _].
  assert (length (zeros (nS e)) = nS e) as H0 by apply length_zeros.
  destruct (first_converged_pass e theta discount_factor MDP Hg0 Hg1 Ht
              (zeros (nS e)) H0) as (k & Hk & Hmin).
  pose proof (length_passes e discount_factor k _ H0) as Hlen.
  destruct (greedy_policy_Ok e discount_factor WF
              (passes e discount_factor (S k) (zeros (nS e))))
    as [policy Epol]; [by apply length_passes|].
  exists k, policy. cbv zeta. split_and!.
  - intros fuel Hfuel. unfold value_iteration.
    rewrite (vi_loop_run e theta discount_factor WF k _ fuel H0 Hmin Hk Hfuel).
    rewrite bind_Ok, Epol. done.
  - intros fuel Hfuel. unfold value_iteration.
    by rewrite (vi_loop_short e theta discount_factor WF k _ fuel H0 Hmin Hfuel).
  - by apply sweep_Ok.
  - done.
  - done.
  - intros s Hs. cbn [passes]. apply pass_delta_bounds; lia.
  - destruct (decide (nS e = 0)%nat) as [|Hn]; [by left|right].
    cbn [passes]. apply pass_delta_attained; lia.
Qed.

Lemma sample_env2_mdp : finite_mdp Sample.env2.
Proof.
  split.
  - split; [right; simpl; lia|]. split; [done|].
    intros s by_a E.
    destruct s as [|[|s]]; simpl in E; [| |done]; injection E as <-;
      (split; [done|]); intros a ts Ea;
      (destruct a as [|[|a]]; simpl in Ea; [| |done]); injection Ea as <-;
      repeat constructor.
  - intros s by_a a ts E Ea.
    destruct s as [|[|s]]; simpl in E; [| |done]; injection E as <-;
      (destruct a as [|[|a]]; simpl in Ea; [| |done]); injection Ea as <-;
      (split; [repeat constructor; done|by vm_compute]).
Qed.

Lemma value_iteration_terminates_in_exact_arithmetic_example :
  finite_mdp Sample.env2 /\ 0 <= 1 # 2 /\ 1 # 2 < 1 /\ 0 < 1 # 1000 /\
  exists (k : nat) (policy : matrix),
    forall fuel, (k < fuel)%nat ->
      value_iteration Sample.env2 (1 # 1000) (1 # 2) fuel
      = Ok (policy, passes Sample.env2 (1 # 2) (S k) (zeros 2)).
Proof.
  split; [exact sample_env2_mdp|].
  split; [discriminate|]. split; [reflexivity|]. split; [reflexivity|].
  destruct (value_iteration_terminates_in_exact_arithmetic Sample.env2
              (1 # 1000) (1 # 2) sample_env2_mdp) as (k & policy & H & _);
    [discriminate|reflexivity|reflexivity|].
  exists k, policy. exact H.
Defined.

(** ** The [while] loop in binary64 *)

Section FloatLoop.
Import PrimFloat.
Variable e : F64.env.
Variables theta discount_factor : float.

Local Abbreviation sweep := (F64.sweep e discount_factor).
Local Abbreviation vi_loop := (F64.vi_loop e theta discount_factor).
Local Abbreviation unmet := (F64.unmet_passes e theta discount_factor).

(** What a pass has done when it returns: [delta] is the maximum that
    line 51 accumulates from the changes of the states, each state having
    been written once. *)
Lemma f64_sweep_delta (V_old V : list float) (delta : float) :
  sweep V_old = Ok (delta, V) ->
  length V = length V_old /\
  delta = F64.max_change V_old V (F64.nS e).
Proof.
  intros E.
  pose proof (for_range_partial
    (fun (k : nat) (st : float * list float) =>
       length st.2 = length V_old /\
       (forall s, (k <= s)%nat -> st.2 !! s = V_old !! s) /\
       st.1 = F64.max_change V_old st.2 k)
    (F64.nS e) (F64.sweep_state e discount_factor) (zero, V_old) (delta, V))
    as H.
  destruct H as (Hlen & _ & Hd); [done| |exact E|done].
  intros k [d W] [d' W'] Hk (Hlen & Hrest & Hd) Ebody; cbn [fst snd] in *.
  unfold F64.sweep_state in Ebody.
  apply bind_inv in Ebody as (A & _ & Ebody).
  apply bind_inv in Ebody as (best & _ & Ebody).
  apply bind_inv in Ebody as (old & Eold & Ebody).
  apply bind_inv in Ebody as (W'' & Eset & Ebody).
  injection Ebody as <- <-.
  unfold F64.set_item in Eset. case_decide as Hlt; [|done].
  injection Eset as <-.
  destruct (W !! k) as [old'|] eqn:EWk; [|done]. injection Eold as ->.
  split; [by rewrite length_insert|]. split.
  - intros s Hs. rewrite list_lookup_insert_ne by lia. apply Hrest. lia.
  - unfold F64.max_change. rewrite seq_S, map_app, fold_left_app.
    cbn [map fold_left]. change (0 + k)%nat with k.
    assert (map (F64.change V_old (<[k := best]> W)) (seq 0 k)
            = map (F64.change V_old W) (seq 0 k)) as ->.
    { apply map_ext_in. intros s Hs. apply in_seq in Hs.
      unfold F64.change. by rewrite nth_insert_ne by lia. }
    fold (F64.max_change V_old W k). rewrite <- Hd. f_equal.
    unfold F64.change. rewrite nth_insert_eq by done.
    rewrite (nth_lookup_Some V_old k zero old); [done|].
    by rewrite <- Hrest, EWk.
Qed.

(** Passes that do not meet the tolerance only use up the iterations. *)
Lemma f64_unmet_add a b (V : list float) :
  unmet (a + b) V = match unmet a V with
                    | Some V' => unmet b V'
                    | None => None
                    end.
Proof.
  revert V. induction a as [|a IH]; intros V; [done|].
  cbn [Nat.add F64.unmet_passes].
  destruct (sweep V) as [[delta V']| |]; [|done|done].
  destruct (ltb delta theta); [done|apply IH].
Qed.

Lemma f64_unmet_vi_loop k (V V' : list float) :
  unmet k V = Some V' -> forall fuel, vi_loop (k + fuel) V = vi_loop fuel V'.
Proof.
  revert V. induction k as [|k IH]; intros V E fuel.
  - by injection E as ->.
  - cbn [F64.unmet_passes] in E. cbn [Nat.add F64.vi_loop].
    destruct (sweep V) as [[delta W]| |]; [|done|done].
    rewrite bind_Ok. destruct (ltb delta theta); [done|by apply IH].
Qed.

Lemma f64_unmet_diverge k (V V' : list float) :
  unmet k V = Some V' -> vi_loop k V = Diverge.
Proof.
  intros E. pose proof (f64_unmet_vi_loop k V V' E 0%nat) as H.
  by rewrite Nat.add_0_r in H.
Qed.

(** A vector that comes back after [p] unmet passes comes back for
    ever. *)
Lemma f64_unmet_cycle p (V : list float) :
  unmet p V = Some V -> forall n, unmet (n * p) V = Some V.
Proof.
  intros E n. induction n as [|n IH]; [done|].
  cbn [Nat.mul]. by rewrite f64_unmet_add, E.
Qed.

Lemma f64_cycle_diverges k p (V0 V : list float) :
  unmet k V0 = Some V -> unmet p V = Some V -> (0 < p)%nat ->
  forall fuel, vi_loop fuel V0 = Diverge.
Proof.
  intros Ek Ep Hp fuel.
  assert (unmet (fuel + (k + fuel * p - fuel)) V0 = Some V) as E.
  { replace (fuel + (k + fuel * p - fuel))%nat with (k + fuel * p)%nat by nia.
    rewrite f64_unmet_add, Ek. by apply f64_unmet_cycle. }
  rewrite f64_unmet_add in E.
  destruct (unmet fuel V0) as [W|] eqn:EW; [|done].
  by apply (f64_unmet_diverge fuel V0 W).
Qed.

End FloatLoop.

Section FloatClaim.
Import PrimFloat.

(** C8 as amended.  Whenever the loop comes to an end, it does so at the
    first pass whose [delta] is below [theta]: the vector it returns is the
    result of that pass, and [delta] is the maximum over the states of
    [|new V[s] - old V[s]|] in that pass, as binary64 computes it.  The loop
    then comes to an end with every larger number of iterations allowed,
    with the same result. *)
Theorem value_iteration_exit_condition
    (e : F64.env) (theta discount_factor : float) (fuel : nat)
    (V0 V : list float) :
  F64.vi_loop e theta discount_factor fuel V0 = Ok V ->
  exists (k : nat) (V_old : list float) (delta : float),
    (k < fuel)%nat /\
    F64.unmet_passes e theta discount_factor k V0 = Some V_old /\
    F64.sweep e discount_factor V_old = Ok (delta, V) /\
    ltb delta theta = true /\
    delta = F64.max_change V_old V (F64.nS e) /\
    length V = length V0 /\
    forall fuel', (k < fuel')%nat ->
      F64.vi_loop e theta discount_factor fuel' V0 = Ok V.
Proof.
  intros E.
  assert (exists (k : nat) (V_old : list float) (delta : float),
            (k < fuel)%nat /\
            F64.unmet_passes e theta discount_factor k V0 = Some V_old /\
            F64.sweep e discount_factor V_old = Ok (delta, V) /\
            ltb delta theta = true /\
            delta = F64.max_change V_old V (F64.nS e) /\
            length V = length V0)
    as (k & V_old & delta & Hk & Eu & Es & Hl & Hm & Hlen).
  { revert V0 E. induction fuel as [|fuel IH]; intros V0 E; [done|].
    cbn [F64.vi_loop] in E.
    apply bind_inv in E as ([delta W] & Esweep & E).
    destruct (f64_sweep_delta _ _ _ _ _ Esweep) as [Hlen Hd].
    destruct (ltb delta theta) eqn:Hlt.
    - injection E as <-. exists 0%nat, V0, delta.
      split; [lia|]. by split_and!.
    - destruct (IH W E)
        as (k & V_old & delta' & Hk & Eu & Es & Hl & Hm & Hlen').
      exists (S k), V_old, delta'. split; [lia|]. split.
      + cbn [F64.unmet_passes]. by rewrite Esweep, Hlt.
      + split_and!; try done. congruence. }
  exists k, V_old, delta. split_and!; try done.
  intros fuel' Hk'.
  replace fuel' with (k + S (fuel' - k - 1))%nat by lia.
  rewrite (f64_unmet_vi_loop e theta discount_factor k V0 V_old Eu).
  cbn [F64.vi_loop]. by rewrite Es, bind_Ok, Hl.
Qed.

Lemma value_iteration_exit_condition_witness :
  exists (k : nat) (V_old : list float) (delta : float),
    (k < 5)%nat /\
    F64.unmet_passes F64.env_step F64.thousandth F64.seven_tenths k
      (replicate 2 zero) = Some V_old /\
    F64.sweep F64.env_step F64.seven_tenths V_old
      = Ok (delta, [one; zero]) /\
    ltb delta F64.thousandth = true /\
    delta = F64.max_change V_old [one; zero]
              (F64.nS F64.env_step) /\
    length [one; zero] = length (replicate 2 zero) /\
    forall fuel', (k < fuel')%nat ->
      F64.vi_loop F64.env_step F64.thousandth F64.seven_tenths fuel'
        (replicate 2 zero) = Ok [one; zero].
Proof.
  apply (value_iteration_exit_condition F64.env_step F64.thousandth
           F64.seven_tenths 5 (replicate 2 zero)
           [one; zero]).
  vm_compute. reflexivity.
Defined.

(** C8 refuted as stated.  On a finite MDP with three states, with
    [discount_factor = 0.7] and [theta = 0.001], the loop does not
    terminate: after 70 passes the values alternate between two vectors
    that differ by one unit in the last place, [2^-9] for the largest of
    them, so [delta] is [2^-9 >= theta] at every later pass. *)
Lemma value_iteration_loop_cycles :
  F64.finite_mdp F64.env_cycle = true /\
  leb zero F64.seven_tenths = true /\
  ltb F64.seven_tenths one = true /\
  ltb zero F64.thousandth = true /\
  (exists V,
     F64.unmet_passes F64.env_cycle F64.thousandth F64.seven_tenths 70
       (replicate 3 zero) = Some V /\
     F64.unmet_passes F64.env_cycle F64.thousandth F64.seven_tenths 2 V
       = Some V /\
     exists V', F64.sweep F64.env_cycle F64.seven_tenths V
                  = Ok (0x1p-9%float, V')) /\
  forall fuel,
    F64.value_iteration_loop F64.env_cycle F64.thousandth F64.seven_tenths
      fuel = Diverge.
Proof.
  split; [by vm_compute|]. split; [by vm_compute|].
  split; [by vm_compute|]. split; [by vm_compute|].
  destruct (F64.unmet_passes F64.env_cycle F64.thousandth F64.seven_tenths 70
              (replicate 3 zero)) as [V|] eqn:E70;
    [|by vm_compute in E70].
  assert (F64.unmet_passes F64.env_cycle F64.thousandth F64.seven_tenths 2 V
          = Some V) as E2.
  { vm_compute in E70. injection E70 as <-. vm_compute. reflexivity. }
  split.
  - exists V. split; [done|]. split; [done|].
    vm_compute in E70. injection E70 as <-. eexists. vm_compute. reflexivity.
  - intros fuel. unfold F64.value_iteration_loop.
    apply (f64_cycle_diverges _ _ _ 70 2 _ V); [exact E70|exact E2|lia].
Qed.

End FloatClaim.

(** ** [value_iteration] does not look at the discount factor *)

Lemma only_raises_bind {A B} classes (m : outcome A) (k : A -> outcome B) :
  only_raises classes m -> (forall x, only_raises classes (k x)) ->
  only_raises classes (m ≫= k).
Proof. destruct m as [x|[c]|]; simpl; auto. Qed.

Lemma only_raises_for_each {S} classes l (body : nat -> S -> outcome S) s :
  (forall i s', only_raises classes (body i s')) ->
  only_raises classes (for_each l body s).
Proof.
  intros H. revert s. induction l as [|i l IH]; intros s; simpl; [done|].
  apply only_raises_bind; auto.
Qed.

Lemma only_raises_map_each {B} classes (f : nat -> outcome B) l :
  (forall i, only_raises classes (f i)) ->
  only_raises classes (map_each f l).
Proof.
  intros H. induction l as [|i l IH]; simpl; [done|].
  apply only_raises_bind; [done|]. intros y.
  apply only_raises_bind; [done|]. done.
Qed.

Lemma only_raises_of_lookup {A} classes cls (o : option A) :
  cls ∈ classes -> only_raises classes (of_lookup (Raised cls) o).
Proof. by destruct o. Qed.

(** The exceptions of [value_iteration] are those of its subscripts and
    of [np.max] and [np.argmax] on an empty vector. *)
Lemma value_iteration_raises (e : env) (theta discount_factor : Q) fuel :
  only_raises ["IndexError"; "KeyError"; "ValueError"]%string
    (value_iteration e theta discount_factor fuel).
Proof.
  set (classes := ["IndexError"; "KeyError"; "ValueError"]%string).
  assert ("IndexError"%string ∈ classes) as HI by apply list_elem_of_here.
  assert ("KeyError"%string ∈ classes) as HK
    by apply list_elem_of_further, list_elem_of_here.
  assert ("ValueError"%string ∈ classes) as HV
    by (do 2 apply list_elem_of_further; apply list_elem_of_here).
  assert (forall (V : vec) ts acc,
            only_raises classes (lookahead_sum discount_factor V ts acc))
    as Hsum.
  { intros V ts. induction ts as [|t ts IH]; intros acc; simpl; [done|].
    apply only_raises_bind; [by apply only_raises_of_lookup|done]. }
  assert (forall s (V : vec),
            only_raises classes (one_step_lookahead e discount_factor s V))
    as Hla.
  { intros s V. apply only_raises_map_each. intros a.
    unfold lookahead_action.
    apply only_raises_bind; [by apply only_raises_of_lookup|intros by_a].
    apply only_raises_bind; [by apply only_raises_of_lookup|intros ts].
    apply Hsum. }
  assert (forall V : vec, only_raises classes (sweep e discount_factor V))
    as Hsweep.
  { intros V. apply only_raises_for_each. intros s [delta V'].
    unfold sweep_state.
    apply only_raises_bind; [apply Hla|intros A].
    apply only_raises_bind; [by destruct A|intros best].
    apply only_raises_bind; [by apply only_raises_of_lookup|intros old].
    apply only_raises_bind; [|done].
    unfold set_item. by case_decide. }
  assert (forall V : vec,
            only_raises classes (vi_loop e theta discount_factor fuel V))
    as Hloop.
  { induction fuel as [|fuel IH]; intros V; simpl; [done|].
    apply only_raises_bind; [apply Hsweep|intros [delta V']].
    by destruct (Qlt_le_dec delta theta). }
  unfold value_iteration.
  apply only_raises_bind; [apply Hloop|intros V].
  apply only_raises_bind; [|done].
  apply only_raises_for_each. intros s pol. unfold policy_state.
  apply only_raises_bind; [apply Hla|intros A].
  apply only_raises_bind; [by destruct A|intros a].
  unfold set_cell. destruct (pol !! s); [|done]. by case_decide.
Qed.

Lemma nth_zeros n s : nth s (zeros n) 0 = 0.
Proof.
  destruct (decide (s < n)%nat) as [H|H].
  - apply nth_lookup_Some. by apply lookup_zeros.
  - apply nth_ge_length. rewrite length_zeros. lia.
Qed.

Section ZeroRewards.
Variable e : env.
Variable discount_factor : Q.
Hypothesis WF : well_formed e.
Hypothesis ZR : zero_rewards e.

Lemma backup_zero (V : vec) ts :
  Forall (fun t => reward t == 0) ts ->
  (forall s, nth s V 0 == 0) ->
  backup discount_factor V ts == 0.
Proof.
  intros Hr HV. unfold backup.
  assert (forall acc,
    fold_left
      (fun acc t =>
         acc + prob t
               * (reward t + discount_factor * nth (next_state t) V 0))
      ts acc == acc) as H.
  { induction ts as [|t ts IH]; intros acc; simpl; [reflexivity|].
    apply Forall_cons in Hr as [Ht Hr]. rewrite (IH Hr).
    rewrite Ht, (HV (next_state t)). ring. }
  apply H.
Qed.

Lemma best_value_zero (V : vec) s :
  (s < nS e)%nat -> (forall s', nth s' V 0 == 0) ->
  best_value e discount_factor V s == 0.
Proof.
  intros Hs HV.
  destruct (well_formed_state e WF s Hs) as (by_a & E & _ & Hne & _).
  unfold best_value. rewrite E.
  destruct (np_max_spec (map (backup discount_factor V) by_a))
    as (m & Em & Hin & _); [by destruct by_a|].
  rewrite Em. apply list_elem_of_fmap in Hin as (ts & -> & Hts).
  apply list_elem_of_lookup in Hts as [a Ha].
  apply backup_zero; [by eapply ZR|done].
Qed.

(** With all rewards 0 a pass from an all-zero value function changes
    nothing: its values are 0 and so is its [delta]. *)
Lemma pass_zero k (V : vec) :
  (k <= nS e)%nat -> length V = nS e -> (forall s, nth s V 0 == 0) ->
  (forall s, nth s (pass_values e discount_factor k V) 0 == 0) /\
  pass_delta e discount_factor k V == 0.
Proof.
  intros Hk HV H0. induction k as [|k IH]; [by split|].
  destruct IH as [IHv IHd]; [lia|].
  pose proof (best_value_zero _ k ltac:(lia) IHv) as Hb.
  cbn [pass_values pass_delta]. split.
  - intros s. destruct (decide (s = k)) as [->|Hne].
    + rewrite nth_insert_eq by (rewrite length_pass_values; lia). done.
    + by rewrite nth_insert_ne.
  - rewrite IHd, Hb, (IHv k).
    by vm_compute.
Qed.

End ZeroRewards.

(** C6 as amended.  [value_iteration] never raises [ConfigurationError],
    whatever the discount factor: its only exceptions are those of its
    subscripts and of an empty set of actions.  With a discount factor of
    1 or more it runs the same loop; for instance, on a well-formed
    environment whose rewards are all 0 it returns after the first pass,
    with a value function that is 0 in every state. *)
Theorem value_iteration_unchecked_discount
    (e : env) (theta discount_factor : Q) :
  1 <= discount_factor ->
  (forall fuel,
     value_iteration e theta discount_factor fuel
       <> Err (Raised "ConfigurationError")) /\
  (well_formed e -> zero_rewards e -> 0 < theta ->
   exists (policy : matrix) (V : vec),
     (forall fuel, value_iteration e theta discount_factor (S fuel)
                   = Ok (policy, V)) /\
     length V = nS e /\ Forall (fun v => v == 0) V).
Proof.
  intros _. split.
  - intros fuel E.
    pose proof (value_iteration_raises e theta discount_factor fuel) as H.
    rewrite E in H. simpl in H.
    repeat (apply elem_of_cons in H as [H|H]; [discriminate H|]).
    by apply not_elem_of_nil in H.
  - intros WF ZR Ht.
    assert (length (zeros (nS e)) = nS e) as H0 by apply length_zeros.
    destruct (pass_zero e discount_factor WF ZR (nS e) (zeros (nS e))
                ltac:(lia) H0) as [Hv Hd].
    { intros s. by rewrite nth_zeros. }
    set (V := pass_values e discount_factor (nS e) (zeros (nS e))) in *.
    assert (length V = nS e) as HV
      by (unfold V; by rewrite length_pass_values).
    destruct (greedy_policy_Ok e discount_factor WF V HV) as [policy Epol].
    exists policy, V. split_and!.
    + intros fuel. unfold value_iteration.
      rewrite (vi_loop_run e theta discount_factor WF 0%nat (zeros (nS e))
                 (S fuel) H0); [| |cbn [passes]; lra|lia].
      * cbn [passes]. fold V. by rewrite bind_Ok, Epol.
      * intros; lia.
    + done.
    + apply Forall_lookup. intros s v Ev.
      rewrite <- (nth_lookup_Some _ _ 0 _ Ev). apply Hv.
Qed.

Lemma sample_env_zero_well_formed :
  well_formed Sample.env_zero /\ zero_rewards Sample.env_zero.
Proof.
  split.
  - split; [right; simpl; lia|]. split; [done|].
    intros s by_a E. destruct s as [|s]; simpl in E; [|done].
    injection E as <-. split; [done|]. intros a ts Ea.
    destruct a as [|a]; simpl in Ea; [|done]. injection Ea as <-.
    repeat constructor.
  - intros s by_a a ts E Ea. destruct s as [|s]; simpl in E; [|done].
    injection E as <-. destruct a as [|a]; simpl in Ea; [|done].
    injection Ea as <-. repeat constructor.
Qed.

Lemma value_iteration_unchecked_discount_witness :
  1 <= 2 /\
  (forall fuel,
     value_iteration Sample.env_zero (1 # 1000) 2 fuel
       <> Err (Raised "ConfigurationError")) /\
  exists (policy : matrix) (V : vec),
    (forall fuel, value_iteration Sample.env_zero (1 # 1000) 2 (S fuel)
                  = Ok (policy, V)) /\
    length V = nS Sample.env_zero /\ Forall (fun v => v == 0) V.
Proof.
  split; [discriminate|].
  destruct (value_iteration_unchecked_discount Sample.env_zero (1 # 1000) 2)
    as [H1 H2]; [discriminate|].
  split; [exact H1|].
  apply H2; [apply sample_env_zero_well_formed
            |apply sample_env_zero_well_formed|reflexivity].
Defined.

(** C6 refuted as stated: with a discount factor of 1, and of 2, the call
    on the one-state sample runs to completion and returns. *)
Lemma value_iteration_accepts_discount_one :
  1 <= 1 /\ 1 <= 2 /\
  value_iteration Sample.env_zero (1 # 1000) 1 1 = Ok ([[1]], [0]) /\
  value_iteration Sample.env_zero (1 # 1000) 2 1 = Ok ([[1]], [0]) /\
  value_iteration Sample.env_zero (1 # 1000) 1 1
    <> Err (Raised "ConfigurationError").
Proof.
  split; [discriminate|]. split; [discriminate|].
  split; [by vm_compute|]. split; [by vm_compute|]. discriminate.
Qed.

(** ** [irl] *)

(** C5 (the program departs from it).  The value function that [irl] plots
    as the recovered value does not come from the recovered reward: it is the
    result of [value_iteration(env)], on the environment's own rewards and
    with the default discount factor 0.9, whatever the solver has
    answered. *)
Theorem irl_recovered_values_ignore_recovered_rewards
    (inv : nat -> sqmat -> option sqmat)
    (lp1 lp2 : vec -> matrix -> vec -> outcome (option vec))
    (e : env) (gamma l1 r_max : Q) (fuel : nat) (a1 a2 : artifacts) :
  irl inv lp1 e gamma l1 r_max fuel = Ok a1 ->
  irl inv lp2 e gamma l1 r_max fuel = Ok a2 ->
  recovered_values a1 = recovered_values a2 /\
  exists policy,
    value_iteration e (1 # 1000) (9 # 10) fuel
      = Ok (policy, recovered_values a1).
Proof.
  assert (forall lp a,
            irl inv lp e gamma l1 r_max fuel = Ok a ->
            exists policy,
              value_iteration e (1 # 1000) (9 # 10) fuel
                = Ok (policy, recovered_values a)) as H.
  { intros lp a E. unfold irl in E.
    apply bind_inv in E as ([T rewards] & _ & E).
    apply bind_inv in E as ([policy values] & _ & E).
    apply bind_inv in E as (recovered & _ & E).
    apply bind_inv in E as ([policy' vals'] & E' & E).
    injection E as <-. by exists policy'. }
  intros E1 E2.
  destruct (H lp1 a1 E1) as [p1 H1]. destruct (H lp2 a2 E2) as [p2 H2].
  split; [|by exists p1]. rewrite H1 in H2. by injection H2.
Qed.

Lemma irl_recovered_values_ignore_recovered_rewards_witness :
  exists a1 a2,
    irl Sample.inv_small Sample.lp_const Sample.env2 (3 # 10) 10 5 100
      = Ok a1 /\
    irl Sample.inv_small Sample.lp_other Sample.env2 (3 # 10) 10 5 100
      = Ok a2 /\
    recovered_rewards a1 = [Fin 0; Fin 5] /\
    recovered_rewards a2 = [Fin 5; Fin 0] /\
    recovered_values a1 = recovered_values a2.
Proof.
  destruct (irl Sample.inv_small Sample.lp_const Sample.env2 (3 # 10) 10 5 100)
    as [a1| |] eqn:E1; [|by vm_compute in E1|by vm_compute in E1].
  destruct (irl Sample.inv_small Sample.lp_other Sample.env2 (3 # 10) 10 5 100)
    as [a2| |] eqn:E2; [|by vm_compute in E2|by vm_compute in E2].
  exists a1, a2. split; [done|]. split; [done|].
  split; [vm_compute in E1; by injection E1 as <-|].
  split; [vm_compute in E2; by injection E2 as <-|].
  exact (proj1 (irl_recovered_values_ignore_recovered_rewards
                  Sample.inv_small Sample.lp_const Sample.lp_other
                  Sample.env2 (3 # 10) 10 5 100 a1 a2 E1 E2)).
Defined.

(** ** Further facts about [linear_irl] *)

(** X18.  With states but no action the first loop raises at its first
    state, so the offsets that subtract 1 from the number of actions are
    never computed with no action. *)
Lemma linear_irl_lp_no_actions
    (inv : nat -> sqmat -> option sqmat) (trans_probs : tensor)
    (policy : matrix) (gamma l1 r_max : Q) :
  shape2 trans_probs = 0%nat -> (0 < shape0 trans_probs)%nat ->
  exists err, linear_irl_lp inv trans_probs policy gamma l1 r_max = Err err.
Proof.
  intros Hm Hn.
  assert (forall st, exists err,
            policy_constraints inv trans_probs policy gamma 0 st = Err err)
    as Hfirst.
  { intros [A calls]. unfold policy_constraints.
    destruct (chosen_action policy 0) as [a|err|] eqn:Ea.
    - rewrite bind_Ok, Hm. rewrite decide_False by lia. by eexists.
    - by eexists.
    - unfold chosen_action in Ea.
      destruct (policy !! 0%nat) as [[|x row]|]; simpl in Ea; done. }
  assert (forall n st, (0 < n)%nat -> exists err,
            for_range n (policy_constraints inv trans_probs policy gamma) st
              = Err err) as Hloop.
  { intros [|n] st Hpos; [lia|]. unfold for_range. cbn [seq for_each].
    destruct (Hfirst st) as [err ->]. by eexists. }
  unfold linear_irl_lp.
  destruct (Hloop (shape0 trans_probs)
              (zeros2 (2 * shape0 trans_probs * (shape2 trans_probs + 1))
                      (3 * shape0 trans_probs), 0%nat) Hn) as [err ->].
  by eexists.
Qed.

(** What [linear_irl] returns once the solver has answered. *)
Lemma linear_irl_solved
    (inv : nat -> sqmat -> option sqmat)
    (lp : vec -> matrix -> vec -> outcome (option vec))
    (trans_probs : tensor) (policy : matrix) (gamma l1 r_max : Q)
    (prog : lin_prog) (calls : nat) (x : vec) :
  linear_irl_lp inv trans_probs policy gamma l1 r_max = Ok (prog, calls) ->
  lp (lp_c prog) (lp_A prog) (lp_b prog) = Ok (Some x) ->
  linear_irl inv lp trans_probs policy gamma l1 r_max
    = scaled_rewards (CvxoptMatrix (take (shape0 trans_probs) x)) r_max.
Proof.
  intros E S. unfold linear_irl. rewrite E, bind_Ok. by rewrite S.
Qed.

Lemma dot_zeros_r u k : dot u (zeros k) == 0.
Proof.
  revert k. induction u as [|a u IH]; intros [|k]; simpl; try reflexivity.
  change (replicate k 0) with (zeros k). rewrite IH. ring.
Qed.

(** X17.  With [r_max >= 0] the program always has a feasible point, the
    zero vector: an infeasible program needs a negative [r_max]. *)
Lemma zero_point_feasible
    (inv : nat -> sqmat -> option sqmat) (trans_probs : tensor)
    (policy : matrix) (gamma l1 r_max : Q) :
  well_posed inv trans_probs policy gamma -> 0 <= r_max ->
  exists prog,
    linear_irl_lp inv trans_probs policy gamma l1 r_max
      = Ok (prog, shape0 trans_probs) /\
    feasible (lp_A prog) (lp_b prog) (zeros (3 * shape0 trans_probs)).
Proof.
  intros W Hr.
  destruct (linear_irl_lp_formulation inv trans_probs policy gamma l1 r_max W)
    as (prog & E & F).
  exists prog. split; [done|].
  pose proof (f_rows _ _ _ _ _ _ _ F) as HA.
  pose proof (f_bounds _ _ _ _ _ _ _ F) as Hb.
  apply Forall2_same_length_lookup_2; [lia|].
  intros k row bk Erow Ebk. rewrite dot_zeros_r.
  apply lookup_lt_Some in Erow as Hk. rewrite HA in Hk.
  set (n := shape0 trans_probs) in *. set (off := bounds_offset trans_probs).
  assert (off + 4 * n = 2 * n * (shape2 trans_probs + 1))%nat as Hoff.
  { destruct (W 0%nat ltac:(lia)) as (a & _ & Ha & _).
    unfold off, bounds_offset. fold n. nia. }
  assert (bk = 0 \/ bk = r_max) as [->| ->]; [|apply Qle_refl|done].
  destruct (decide (k < off)%nat) as [H1|H1].
  { left. rewrite (f_policy_bound _ _ _ _ _ _ _ F k H1) in Ebk.
    by injection Ebk. }
  destruct (decide (k < off + n)%nat) as [H2|H2].
  { right. destruct (f_upper _ _ _ _ _ _ _ F (k - off)%nat ltac:(lia))
      as [_ B]. fold off in B.
    replace (off + (k - off))%nat with k in B by lia.
    rewrite B in Ebk. by injection Ebk. }
  left. destruct (decide (k < off + 2 * n)%nat) as [H3|H3].
  { destruct (f_lower _ _ _ _ _ _ _ F (k - off - n)%nat ltac:(lia))
      as [_ B]. fold off n in B.
    replace (off + n + (k - off - n))%nat with k in B by lia.
    rewrite B in Ebk. by injection Ebk. }
  destruct (decide (k < off + 3 * n)%nat) as [H4|H4].
  { destruct (f_slack_1 _ _ _ _ _ _ _ F (k - off - 2 * n)%nat ltac:(lia))
      as [_ B]. fold off n in B.
    replace (off + 2 * n + (k - off - 2 * n))%nat with k in B by lia.
    rewrite B in Ebk. by injection Ebk. }
  destruct (f_slack_2 _ _ _ _ _ _ _ F (k - off - 3 * n)%nat ltac:(lia))
    as [_ B]. fold off n in B.
  replace (off + 3 * n + (k - off - 3 * n))%nat with k in B by lia.
  rewrite B in Ebk. by injection Ebk.
Qed.

(** ** A run that does not terminate *)

Lemma sample_env_one_well_formed : well_formed Sample.env_one.
Proof.
  split; [right; simpl; lia|]. split; [done|].
  intros s by_a E. destruct s as [|s]; simpl in E; [|done].
  injection E as <-. split; [done|]. intros a ts Ea.
  destruct a as [|a]; simpl in Ea; [|done]. injection Ea as <-.
  repeat constructor.
Qed.

(** With a discount factor of 1 and a reward of 1 at every step, every pass
    raises the value by 1: [delta] is 1 at every pass. *)
Lemma sample_env_one_delta j :
  exists v,
    passes Sample.env_one 1 j (zeros 1) = [v] /\
    pass_delta Sample.env_one 1 1 [v] == 1.
Proof.
  assert (forall v, pass_delta Sample.env_one 1 1 [v] == 1) as H.
  { intros v. cbn [pass_delta pass_values].
    change (best_value Sample.env_one 1 [v] 0) with (0 + 1 * (1 + 1 * v)).
    change (nth 0 [v] 0) with v.
    assert (Qabs (0 + 1 * (1 + 1 * v) - v) == 1) as E.
    { rewrite (Qabs_wd (0 + 1 * (1 + 1 * v) - v) 1) by ring. reflexivity. }
    rewrite Q.max_r by (rewrite E; discriminate). exact E. }
  induction j as [|j (v & E & _)].
  - exists 0. split; [done|apply H].
  - eexists. split; [|apply H]. cbn [passes]. rewrite E. reflexivity.
Qed.

(** With a discount factor of 1, [value_iteration] on that environment has
    not returned after any number of passes: the call neither raises nor
    comes to an end. *)
Lemma value_iteration_diverges_discount_one fuel :
  value_iteration Sample.env_one (1 # 1000) 1 fuel = Diverge.
Proof.
  unfold value_iteration. change (nS Sample.env_one) with 1%nat.
  rewrite (vi_loop_short Sample.env_one (1 # 1000) 1
             sample_env_one_well_formed fuel (zeros 1) fuel); [done|done| |lia].
  intros j _. destruct (sample_env_one_delta j) as (v & -> & ->).
  discriminate.
Qed.

(** * Further properties *)

(** ** Which inputs stop [linear_irl] before the solver *)

Lemma for_range_fail {St} n i (body : nat -> St -> outcome St) s s' err :
  (i < n)%nat -> for_range i body s = Ok s' -> body i s' = Err err ->
  for_range n body s = Err err.
Proof.
  intros Hi E F. unfold for_range in *.
  replace n with (i + S (n - S i))%nat by lia.
  rewrite seq_app, for_each_app, E, bind_Ok.
  change (0 + i)%nat with i. cbn [seq for_each]. by rewrite F.
Qed.

Section FirstLoop.
Variable inv : nat -> sqmat -> option sqmat.
Variable trans_probs : tensor.
Variable policy : matrix.
Variable gamma : Q.

Local Abbreviation n := (shape0 trans_probs).
Local Abbreviation m := (shape2 trans_probs).
Local Abbreviation rows := (2 * n * (m + 1))%nat.

(** The shape of [A]: all that the writes of the first loop rely on. *)
Local Abbreviation shaped A :=
  (length A = rows /\ Forall (fun row : vec => length row = (3 * n)%nat) A).

Lemma emit_policy_rows_shape i a_opt M (A0 : matrix) :
  (i < n)%nat -> (a_opt < m)%nat -> shaped A0 ->
  exists A,
    for_range m (emit_policy_rows trans_probs i a_opt M) (0%nat, A0)
      = Ok ((m - 1)%nat, A) /\
    shaped A.
Proof.
  intros Hi Ha HA0.
  assert (i * (m - 1) + (m - 1) <= n * (m - 1))%nat as Hq1 by nia.
  assert (n * (m - 1) + i * (m - 1) + (m - 1) <= rows)%nat as Hq2 by nia.
  destruct (for_range_total
    (fun (a : nat) (st : nat * matrix) =>
       st.1 = slot a_opt a /\ shaped st.2)
    m (emit_policy_rows trans_probs i a_opt M) (0%nat, A0))
    as ([cnt A] & E & Ecnt & HA).
  - done.
  - intros a [cnt A] Ham (Ecnt & HlenA & HrowsA); cbn [fst snd] in *.
    unfold emit_policy_rows. destruct (decide (a = a_opt)) as [->|Hne].
    + eexists. split; [done|]. cbn [fst snd]. split; [|done].
      rewrite Ecnt. unfold slot. repeat case_decide; lia.
    + assert (slot a_opt (S a) = S (slot a_opt a) /\
              (slot a_opt a < m - 1)%nat)
        as [ES Hlt] by (unfold slot; repeat case_decide; lia).
      subst cnt. set (c := slot a_opt a) in *.
      set (w := policy_row trans_probs i a_opt a M).
      assert (length w = n) as Hw by apply length_policy_row.
      destruct (lookup_lt_is_Some_2 A (i * (m - 1) + c)%nat) as [row1 E1];
        [lia|].
      pose proof (proj1 (Forall_lookup _ _) HrowsA _ _ E1) as Hrow1.
      cbv beta in Hrow1.
      rewrite (set_row_prefix_Ok _ _ _ _ _ E1 Hw) by lia. rewrite bind_Ok.
      set (A1 := <[(i * (m - 1) + c)%nat := w ++ drop n row1]> A).
      assert (shaped A1) as [HlenA1 HrowsA1].
      { unfold A1. split; [by rewrite length_insert|].
        apply Forall_insert; [done|].
        rewrite length_app, length_drop. lia. }
      destruct (lookup_lt_is_Some_2 A1 (n * (m - 1) + i * (m - 1) + c)%nat)
        as [row2 E2]; [lia|].
      pose proof (proj1 (Forall_lookup _ _) HrowsA1 _ _ E2) as Hrow2.
      cbv beta in Hrow2.
      rewrite (set_row_prefix_Ok _ _ _ _ _ E2 Hw) by lia. rewrite bind_Ok.
      set (A2 := <[(n * (m - 1) + i * (m - 1) + c)%nat
                   := w ++ drop n row2]> A1).
      assert (A2 !! (n * (m - 1) + i * (m - 1) + c)%nat
              = Some (w ++ drop n row2)) as E3
        by (unfold A2; apply list_lookup_insert_eq; lia).
      assert (length (w ++ drop n row2) = (3 * n)%nat) as Hrow3
        by (rewrite length_app, length_drop; lia).
      rewrite (set_cell_Ok _ _ _ _ _ E3) by lia. rewrite bind_Ok.
      eexists. split; [done|]. cbn [fst snd]. split; [done|]. split.
      * unfold A2. by rewrite !length_insert.
      * apply Forall_insert; [|by rewrite length_insert].
        unfold A2. apply Forall_insert; [done|done].
  - cbn [fst snd] in *. exists A. split; [|done]. rewrite E. do 2 f_equal.
    rewrite Ecnt. unfold slot. case_decide; lia.
Qed.

(** A state that is in order leaves the shape of [A] as it was. *)
Lemma policy_constraints_shape i (A : matrix) calls :
  (i < n)%nat -> state_ok inv trans_probs policy gamma i -> shaped A ->
  exists A',
    policy_constraints inv trans_probs policy gamma i (A, calls)
      = Ok (A', S calls) /\
    shaped A'.
Proof.
  intros Hi (a & Ea & Ha & [M EM]) HA. unfold policy_constraints.
  rewrite Ea, bind_Ok. rewrite decide_True by done. rewrite EM.
  cbn [of_lookup]. rewrite bind_Ok.
  destruct (emit_policy_rows_shape i a M A Hi Ha HA) as (A' & E & HA').
  rewrite E, bind_Ok. by exists A'.
Qed.

Lemma policy_constraints_prefix k :
  (k <= n)%nat ->
  (forall j, (j < k)%nat -> state_ok inv trans_probs policy gamma j) ->
  exists A,
    for_range k (policy_constraints inv trans_probs policy gamma)
      (zeros2 rows (3 * n), 0%nat) = Ok (A, k) /\
    shaped A.
Proof.
  intros Hk Hok.
  destruct (for_range_total
    (fun (i : nat) (st : matrix * nat) => st.2 = i /\ shaped st.1)
    k (policy_constraints inv trans_probs policy gamma)
    (zeros2 rows (3 * n), 0%nat)) as ([A calls] & E & Ecalls & HA).
  - cbn [fst snd]. split; [done|]. unfold zeros2. split.
    + by rewrite length_replicate.
    + apply Forall_replicate. apply length_zeros.
  - intros i [A calls] Hi (Ecalls & HA); cbn [fst snd] in *.
    destruct (policy_constraints_shape i A calls ltac:(lia) (Hok i Hi) HA)
      as (A' & E & HA').
    exists (A', S calls). split; [done|]. cbn [fst snd].
    split; [by subst|done].
  - cbn [fst snd] in *. subst calls. by exists A.
Qed.

(** A state that is not in order stops the loop, whatever [A] holds. *)
Lemma policy_constraints_fails i err st :
  state_fails inv trans_probs policy gamma i err ->
  policy_constraints inv trans_probs policy gamma i st = Err err.
Proof.
  destruct st as [A calls]. unfold policy_constraints.
  intros [E|[(a & E & Ha & ->)|(a & E & Ha & EM & ->)]]; rewrite E.
  - done.
  - rewrite bind_Ok. by rewrite decide_False.
  - rewrite bind_Ok. rewrite decide_True by done. by rewrite EM.
Qed.

End FirstLoop.

(** X1.  The first state that is not in order decides the exception of
    [linear_irl]: when the states before [i] are in order and state [i]
    fails with [err] ([IndexError] or [ValueError] from
    [np.argmax(policy[i])], [IndexError] when that index is not an action,
    [LinAlgError] when the matrix is singular), the call raises [err], and
    the solver is not consulted. *)
Theorem linear_irl_first_failure
    (inv : nat -> sqmat -> option sqmat)
    (lp : vec -> matrix -> vec -> outcome (option vec))
    (trans_probs : tensor) (policy : matrix) (gamma l1 r_max : Q)
    (i : nat) (err : exn) :
  (i < shape0 trans_probs)%nat ->
  (forall j, (j < i)%nat -> state_ok inv trans_probs policy gamma j) ->
  state_fails inv trans_probs policy gamma i err ->
  linear_irl_lp inv trans_probs policy gamma l1 r_max = Err err /\
  linear_irl inv lp trans_probs policy gamma l1 r_max = Err err.
Proof.
  intros Hi Hok Hfail.
  assert (linear_irl_lp inv trans_probs policy gamma l1 r_max = Err err) as E.
  { destruct (policy_constraints_prefix inv trans_probs policy gamma i
                ltac:(lia) Hok) as (A & E & _).
    unfold linear_irl_lp.
    rewrite (for_range_fail _ i _ _ _ err Hi E); [done|].
    by apply policy_constraints_fails. }
  split; [exact E|]. unfold linear_irl. by rewrite E.
Qed.

(** With a discount factor of 1 the absorbing state of the two-state
    sample makes the matrix singular. *)
Lemma linear_irl_first_failure_witness :
  linear_irl_lp Sample.inv_small Sample.T2 [[1; 0]; [1; 0]] 1 10 1
    = Err LinAlgError /\
  linear_irl Sample.inv_small Sample.lp_const Sample.T2 [[1; 0]; [1; 0]]
    1 10 1 = Err LinAlgError.
Proof.
  apply (linear_irl_first_failure Sample.inv_small Sample.lp_const Sample.T2
           [[1; 0]; [1; 0]] 1 10 1 0%nat LinAlgError).
  - simpl. lia.
  - intros j Hj. lia.
  - right. right. exists 0%nat. split; [reflexivity|].
    split; [simpl; lia|]. split; reflexivity.
Defined.

(** When [linear_irl] has reached the solver, every state was in order,
    one matrix was inverted per state, and the program is the one
    [formulation] describes. *)
Lemma linear_irl_lp_returned
    (inv : nat -> sqmat -> option sqmat) (trans_probs : tensor)
    (policy : matrix) (gamma l1 r_max : Q) prog calls :
  linear_irl_lp inv trans_probs policy gamma l1 r_max = Ok (prog, calls) ->
  well_posed inv trans_probs policy gamma /\
  calls = shape0 trans_probs /\
  formulation inv trans_probs policy gamma l1 r_max prog.
Proof.
  intros E0. pose proof E0 as E. unfold linear_irl_lp in E.
  apply bind_inv in E as ([A1 calls1] & E1 & E).
  apply bind_inv in E as ([A2 b2] & _ & E).
  apply bind_inv in E as ([A3 b3] & _ & E).
  apply bind_inv in E as (A4 & _ & E).
  apply bind_inv in E as (A5 & _ & E).
  apply bind_inv in E as (c & _ & E). injection E as _ <-.
  assert (calls1 = shape0 trans_probs /\
          forall j, (j < shape0 trans_probs)%nat ->
            state_ok inv trans_probs policy gamma j) as [Ecalls Hok].
  { apply (for_range_partial
      (fun (i : nat) (st : matrix * nat) =>
         st.2 = i /\
         forall j, (j < i)%nat -> state_ok inv trans_probs policy gamma j)
      (shape0 trans_probs) (policy_constraints inv trans_probs policy gamma)
      (zeros2 (2 * shape0 trans_probs * (shape2 trans_probs + 1))
              (3 * shape0 trans_probs), 0%nat)
      (A1, calls1)); [| |exact E1].
    - split; [done|]. intros j Hj. lia.
    - intros i [A calls'] st' Hi [Ec Hbelow] Ebody; cbn [fst snd] in *.
      unfold policy_constraints in Ebody.
      apply bind_inv in Ebody as (a & Ea & Ebody).
      destruct (decide (a < shape2 trans_probs)%nat) as [Ha|]; [|done].
      apply bind_inv in Ebody as (M & EM & Ebody).
      apply bind_inv in Ebody as ([cnt A'] & _ & Ebody).
      injection Ebody as <-. cbn [fst snd]. split; [by subst|].
      intros j Hj. destruct (decide (j = i)) as [->|]; [|apply Hbelow; lia].
      exists a. split_and!; [done|done|].
      destruct (inv (shape0 trans_probs)
                  (bellman_matrix trans_probs gamma a)); [by eexists|done]. }
  assert (well_posed inv trans_probs policy gamma) as W
    by (intros i Hi; by apply Hok).
  split; [done|]. split; [done|].
  destruct (linear_irl_lp_formulation inv trans_probs policy gamma l1 r_max W)
    as (prog' & E' & F).
  rewrite E0 in E'. by injection E' as ->.
Qed.

(** X2.  [linear_irl] reaches the solver exactly on the inputs whose
    states are all in order, and it has then inverted exactly one matrix
    per state. *)
Theorem linear_irl_lp_returns_iff
    (inv : nat -> sqmat -> option sqmat) (trans_probs : tensor)
    (policy : matrix) (gamma l1 r_max : Q) :
  ((exists prog calls,
      linear_irl_lp inv trans_probs policy gamma l1 r_max = Ok (prog, calls))
   <-> well_posed inv trans_probs policy gamma) /\
  (forall prog calls,
     linear_irl_lp inv trans_probs policy gamma l1 r_max = Ok (prog, calls) ->
     calls = shape0 trans_probs).
Proof.
  split.
  - split.
    + intros (prog & calls & E).
      by apply (linear_irl_lp_returned _ _ _ _ _ _ _ _ E).
    + intros W.
      destruct (linear_irl_lp_formulation inv trans_probs policy gamma
                  l1 r_max W) as (prog & E & _).
      by exists prog, (shape0 trans_probs).
  - intros prog calls E.
    by apply (linear_irl_lp_returned _ _ _ _ _ _ _ _ E).
Qed.

(** ** The program as a whole *)

Lemma lookup_nth_lt {A} (l : list A) i d :
  (i < length l)%nat -> l !! i = Some (nth i l d).
Proof. intros H. destruct (nth_lookup_or_length l i d); [done|lia]. Qed.

Section Program.
Variable inv : nat -> sqmat -> option sqmat.
Variable trans_probs : tensor.
Variable policy : matrix.
Variables gamma l1 r_max : Q.

Local Abbreviation n := (shape0 trans_probs).
Local Abbreviation m := (shape2 trans_probs).
Local Abbreviation off := (bounds_offset trans_probs).
Local Abbreviation mg := (margin inv trans_probs policy gamma).

(** Every row of the program is of one of five kinds. *)
Lemma program_row_cases prog k row bk :
  well_posed inv trans_probs policy gamma ->
  formulation inv trans_probs policy gamma l1 r_max prog ->
  lp_A prog !! k = Some row -> lp_b prog !! k = Some bk ->
  (exists i a, (i < n)%nat /\ (a < m)%nat /\ a <> a_star policy i /\
     row = map Qopp (mg i a) ++ zeros (2 * n) /\ bk = 0) \/
  (exists i a, (i < n)%nat /\ (a < m)%nat /\ a <> a_star policy i /\
     row = map Qopp (mg i a) ++ <[i := 1]> (zeros (2 * n)) /\ bk = 0) \/
  (exists i, (i < n)%nat /\ row = bound_row trans_probs i 1 /\ bk = r_max) \/
  (exists i, (i < n)%nat /\ row = bound_row trans_probs i (-1) /\ bk = 0) \/
  (exists i, (i < n)%nat /\ row = slack_row trans_probs i /\ bk = 0).
Proof.
  intros W F Erow Ebk.
  apply lookup_lt_Some in Erow as Hk.
  rewrite (f_rows _ _ _ _ _ _ _ F) in Hk.
  assert (0 < n)%nat as Hn by nia.
  assert (off = 2 * (n * (m - 1)) /\ off + 4 * n = 2 * n * (m + 1))%nat
    as [Eoff Hoff].
  { destruct (W 0%nat Hn) as (a & _ & Ha & _). unfold bounds_offset. nia. }
  destruct (decide (k < n * (m - 1))%nat) as [H0|H0].
  { left.
    destruct (policy_row_index_surj inv trans_probs policy gamma k W H0)
      as (i & a & Hi & Ha & Hne & ->).
    destruct (f_policy _ _ _ _ _ _ _ F i a Hi Ha Hne) as [R1 _].
    rewrite R1 in Erow. injection Erow as <-.
    rewrite (f_policy_bound _ _ _ _ _ _ _ F) in Ebk by lia.
    injection Ebk as <-. by exists i, a. }
  destruct (decide (k < off)%nat) as [H1|H1].
  { right. left.
    destruct (policy_row_index_surj inv trans_probs policy gamma
                (k - n * (m - 1)) W ltac:(lia))
      as (i & a & Hi & Ha & Hne & Ek).
    destruct (f_policy _ _ _ _ _ _ _ F i a Hi Ha Hne) as [_ R2].
    rewrite <- Ek in R2.
    replace (n * (m - 1) + (k - n * (m - 1)))%nat with k in R2 by lia.
    rewrite R2 in Erow. injection Erow as <-.
    rewrite (f_policy_bound _ _ _ _ _ _ _ F) in Ebk by lia.
    injection Ebk as <-. by exists i, a. }
  do 2 right.
  destruct (decide (k < off + n)%nat) as [H2|H2].
  { left. exists (k - off)%nat.
    destruct (f_upper _ _ _ _ _ _ _ F (k - off)%nat ltac:(lia)) as [R B].
    replace (off + (k - off))%nat with k in R, B by lia.
    rewrite R in Erow. rewrite B in Ebk.
    injection Erow as <-. injection Ebk as <-. split_and!; [lia|done|done]. }
  right.
  destruct (decide (k < off + 2 * n)%nat) as [H3|H3].
  { left. exists (k - off - n)%nat.
    destruct (f_lower _ _ _ _ _ _ _ F (k - off - n)%nat ltac:(lia))
      as [R B].
    replace (off + n + (k - off - n))%nat with k in R, B by lia.
    rewrite R in Erow. rewrite B in Ebk.
    injection Erow as <-. injection Ebk as <-. split_and!; [lia|done|done]. }
  right.
  destruct (decide (k < off + 3 * n)%nat) as [H4|H4].
  { exists (k - off - 2 * n)%nat.
    destruct (f_slack_1 _ _ _ _ _ _ _ F (k - off - 2 * n)%nat ltac:(lia))
      as [R B].
    replace (off + 2 * n + (k - off - 2 * n))%nat with k in R, B by lia.
    rewrite R in Erow. rewrite B in Ebk.
    injection Erow as <-. injection Ebk as <-. split_and!; [lia|done|done]. }
  exists (k - off - 3 * n)%nat.
  destruct (f_slack_2 _ _ _ _ _ _ _ F (k - off - 3 * n)%nat ltac:(lia))
    as [R B].
  replace (off + 3 * n + (k - off - 3 * n))%nat with k in R, B by lia.
  rewrite R in Erow. rewrite B in Ebk.
  injection Erow as <-. injection Ebk as <-. split_and!; [lia|done|done].
Qed.

End Program.

Lemma dot_replicate k a (u : vec) :
  length u = k -> dot (replicate k a) u == a * vsum u.
Proof.
  revert u. induction k as [|k IH]; intros [|y u] H; simpl in *; try lia.
  - ring.
  - rewrite IH by lia. ring.
Qed.

Lemma dot_take_l (c x : vec) : dot c x = dot (take (length x) c) x.
Proof.
  revert c. induction x as [|y x IH]; intros [|a c]; simpl; try done.
  by rewrite <- IH.
Qed.

(** The loop of the objective keeps the length of [c]. *)
Lemma objective_loop_length (trans_probs : tensor) (l1 : Q) (c0 c : vec) :
  for_range (shape0 trans_probs) (objective trans_probs l1) c0 = Ok c ->
  length c = length c0.
Proof.
  apply (for_range_partial (fun (_ : nat) (c' : vec) => length c' = length c0)).
  - done.
  - intros i c1 c2 _ Hlen E. unfold objective in E. injection E as <-.
    by rewrite !length_fill_slice.
Qed.

(** X3.  The points the program admits.  When [linear_irl] has reached
    the solver, [R ++ u ++ z] satisfies [A x <= b] exactly when, for every
    state [i]: the margin of [R] against every action other than the chosen
    one is at least 0 and at least [u_i], and [0 <= R_i <= r_max] and
    [R_i <= z_i]. *)
Theorem feasible_region
    (inv : nat -> sqmat -> option sqmat) (trans_probs : tensor)
    (policy : matrix) (gamma l1 r_max : Q) (prog : lin_prog) (calls : nat)
    (R u z : vec) :
  linear_irl_lp inv trans_probs policy gamma l1 r_max = Ok (prog, calls) ->
  length R = shape0 trans_probs -> length u = shape0 trans_probs ->
  length z = shape0 trans_probs ->
  (feasible (lp_A prog) (lp_b prog) (R ++ u ++ z) <->
   (forall i a,
      (i < shape0 trans_probs)%nat -> (a < shape2 trans_probs)%nat ->
      a <> a_star policy i ->
      0 <= dot (margin inv trans_probs policy gamma i a) R /\
      nth i u 0 <= dot (margin inv trans_probs policy gamma i a) R) /\
   (forall i, (i < shape0 trans_probs)%nat ->
      0 <= nth i R 0 /\ nth i R 0 <= r_max /\ nth i R 0 <= nth i z 0)).
Proof.
  intros E HR Hu Hz.
  destruct (linear_irl_lp_returned _ _ _ _ _ _ _ _ E) as (W & _ & F).
  assert (forall i, (i < shape0 trans_probs)%nat ->
            (R ++ u ++ z) !! i = Some (nth i R 0)) as HxR.
  { intros i Hi. apply lookup_app_l_Some, lookup_nth_lt. lia. }
  split.
  - intros Hf. split.
    + intros i a Hi Ha Hne.
      destruct (f_policy _ _ _ _ _ _ _ F i a Hi Ha Hne) as [R1 R2].
      assert (forall k, (k < bounds_offset trans_probs)%nat ->
                lp_b prog !! k = Some 0) as Hb
        by apply (f_policy_bound _ _ _ _ _ _ _ F).
      pose proof (policy_row_index_lt inv trans_probs policy gamma i a
                    W Hi Ha Hne) as Hk.
      assert (bounds_offset trans_probs
              = 2 * (shape0 trans_probs * (shape2 trans_probs - 1)))%nat
        as Eoff by (unfold bounds_offset; lia).
      pose proof (Forall2_lookup_lr _ _ _ _ _ _ Hf R1
                    (Hb (policy_row_index trans_probs policy i a)
                       ltac:(lia))) as H1.
      pose proof (Forall2_lookup_lr _ _ _ _ _ _ Hf R2
                    (Hb (shape0 trans_probs * (shape2 trans_probs - 1)
                         + policy_row_index trans_probs policy i a)%nat
                       ltac:(lia))) as H2.
      cbv beta in H1, H2.
      rewrite dot_policy_row_1 in H1 by done.
      rewrite (dot_policy_row_2 _ _ _ _ _ _ _ _ _ (nth i u 0)) in H2;
        [|done|done|done|apply lookup_nth_lt; lia].
      split; lra.
    + intros i Hi.
      destruct (f_upper _ _ _ _ _ _ _ F i Hi) as [RU BU].
      destruct (f_lower _ _ _ _ _ _ _ F i Hi) as [RL BL].
      destruct (f_slack_1 _ _ _ _ _ _ _ F i Hi) as [RS BS].
      pose proof (Forall2_lookup_lr _ _ _ _ _ _ Hf RU BU) as H1.
      pose proof (Forall2_lookup_lr _ _ _ _ _ _ Hf RL BL) as H2.
      pose proof (Forall2_lookup_lr _ _ _ _ _ _ Hf RS BS) as H3.
      cbv beta in H1, H2, H3. unfold bound_row in H1, H2.
      rewrite (dot_bound_row _ _ _ _ (nth i R 0)) in H1
        by (try apply HxR; lia).
      rewrite (dot_bound_row _ _ _ _ (nth i R 0)) in H2
        by (try apply HxR; lia).
      rewrite (dot_slack_row trans_probs i R u z (nth i R 0) (nth i z 0))
        in H3 by (try apply lookup_nth_lt; lia).
      split_and!; lra.
  - intros [Hpol Hbnd].
    apply Forall2_same_length_lookup_2.
    { by rewrite (f_rows _ _ _ _ _ _ _ F), (f_bounds _ _ _ _ _ _ _ F). }
    intros k row bk Erow Ebk.
    destruct (program_row_cases inv trans_probs policy gamma l1 r_max
                prog k row bk W F Erow Ebk)
      as [(i & a & Hi & Ha & Hne & -> & ->)
         |[(i & a & Hi & Ha & Hne & -> & ->)
          |[(i & Hi & -> & ->)|[(i & Hi & -> & ->)|(i & Hi & -> & ->)]]]].
    + rewrite dot_policy_row_1 by done.
      destruct (Hpol i a Hi Ha Hne). lra.
    + rewrite (dot_policy_row_2 _ _ _ _ _ _ _ _ _ (nth i u 0));
        [|done|done|done|apply lookup_nth_lt; lia].
      destruct (Hpol i a Hi Ha Hne). lra.
    + unfold bound_row.
      rewrite (dot_bound_row _ _ _ _ (nth i R 0)) by (try apply HxR; lia).
      destruct (Hbnd i Hi) as (? & ? & ?). lra.
    + unfold bound_row.
      rewrite (dot_bound_row _ _ _ _ (nth i R 0)) by (try apply HxR; lia).
      destruct (Hbnd i Hi) as (? & ? & ?). lra.
    + rewrite (dot_slack_row trans_probs i R u z (nth i R 0) (nth i z 0))
        by (try apply lookup_nth_lt; lia).
      destruct (Hbnd i Hi) as (? & ? & ?). lra.
Qed.

Lemma feasible_region_witness :
  exists prog,
    linear_irl_lp Sample.inv_small Sample.T2 [[1; 0]; [1; 0]] (1 # 2) 10 1
      = Ok (prog, 2%nat) /\
    (feasible (lp_A prog) (lp_b prog) ([0; 1] ++ [-3; -3] ++ [0; 1]) <->
     (forall i a, (i < 2)%nat -> (a < 2)%nat ->
        a <> a_star [[1; 0]; [1; 0]] i ->
        0 <= dot (margin Sample.inv_small Sample.T2 [[1; 0]; [1; 0]]
                    (1 # 2) i a) [0; 1] /\
        nth i [-3; -3] 0
          <= dot (margin Sample.inv_small Sample.T2 [[1; 0]; [1; 0]]
                    (1 # 2) i a) [0; 1]) /\
     (forall i, (i < 2)%nat ->
        0 <= nth i [0; 1] 0 /\ nth i [0; 1] 0 <= 1 /\
        nth i [0; 1] 0 <= nth i [0; 1] 0)).
Proof.
  eexists. split; [vm_compute; reflexivity|].
  apply (feasible_region Sample.inv_small Sample.T2 [[1; 0]; [1; 0]]
           (1 # 2) 10 1 _ 2%nat [0; 1] [-3; -3] [0; 1]);
    reflexivity.
Defined.

(** X4.  The objective.  When [linear_irl] has reached the solver, the
    objective vector gives [R ++ u ++ z] the value
    [- sum u + l1 * sum z]: the reward block has no weight. *)
Theorem objective_value
    (inv : nat -> sqmat -> option sqmat) (trans_probs : tensor)
    (policy : matrix) (gamma l1 r_max : Q) (prog : lin_prog) (calls : nat)
    (R u z : vec) :
  linear_irl_lp inv trans_probs policy gamma l1 r_max = Ok (prog, calls) ->
  length R = shape0 trans_probs -> length u = shape0 trans_probs ->
  length z = shape0 trans_probs ->
  dot (lp_c prog) (R ++ u ++ z) == - vsum u + l1 * vsum z.
Proof.
  intros E HR Hu Hz.
  destruct (linear_irl_lp_returned _ _ _ _ _ _ _ _ E) as (_ & _ & F).
  set (n := shape0 trans_probs) in *.
  assert (take (3 * n) (lp_c prog)
          = zeros n ++ replicate n (-1) ++ replicate n l1) as Ec.
  { apply list_eq. intros j.
    destruct (decide (j < 3 * n)%nat) as [Hj|Hj].
    - rewrite lookup_take_lt by done.
      rewrite (f_objective _ _ _ _ _ _ _ F j Hj).
      unfold objective_entry. fold n. symmetry.
      destruct (decide (j < n)%nat).
      + rewrite lookup_app_l by (rewrite length_zeros; lia).
        by apply lookup_zeros.
      + rewrite lookup_app_r by (rewrite length_zeros; lia).
        rewrite length_zeros. destruct (decide (j < 2 * n)%nat).
        * rewrite lookup_app_l by (rewrite length_replicate; lia).
          apply lookup_replicate_2. lia.
        * rewrite lookup_app_r by (rewrite length_replicate; lia).
          rewrite length_replicate. apply lookup_replicate_2. lia.
    - rewrite lookup_take_ge by lia. symmetry. apply lookup_ge_None_2.
      rewrite !length_app, length_zeros, !length_replicate. lia. }
  rewrite dot_take_l.
  replace (length (R ++ u ++ z)) with (3 * n)%nat
    by (rewrite !length_app; lia).
  rewrite Ec, dot_app by (rewrite length_zeros; lia).
  rewrite dot_app by (rewrite length_replicate; lia).
  rewrite dot_zeros, !dot_replicate by done. ring.
Qed.

Lemma objective_value_witness :
  exists prog,
    linear_irl_lp Sample.inv_small Sample.T2 [[1; 0]; [1; 0]] (1 # 2) 10 1
      = Ok (prog, 2%nat) /\
    dot (lp_c prog) ([0; 1] ++ [-3; -3] ++ [0; 1])
      == - vsum [-3; -3] + 10 * vsum [0; 1].
Proof.
  eexists. split; [vm_compute; reflexivity|].
  apply (objective_value Sample.inv_small Sample.T2 [[1; 0]; [1; 0]]
           (1 # 2) 10 1 _ 2%nat [0; 1] [-3; -3] [0; 1]);
    reflexivity.
Defined.

(** X5.  The dimensions handed to the solver agree.  When [linear_irl]
    has reached the solver, [A] has [2 nS (nA + 1)] rows of [3 nS] entries
    each, [b] has one entry per row and [c] one per column. *)
Theorem program_dimensions
    (inv : nat -> sqmat -> option sqmat) (trans_probs : tensor)
    (policy : matrix) (gamma l1 r_max : Q) (prog : lin_prog) (calls : nat) :
  linear_irl_lp inv trans_probs policy gamma l1 r_max = Ok (prog, calls) ->
  length (lp_A prog)
    = (2 * shape0 trans_probs * (shape2 trans_probs + 1))%nat /\
  Forall (fun row => length row = (3 * shape0 trans_probs)%nat) (lp_A prog) /\
  length (lp_b prog) = length (lp_A prog) /\
  length (lp_c prog) = (3 * shape0 trans_probs)%nat.
Proof.
  intros E.
  destruct (linear_irl_lp_returned _ _ _ _ _ _ _ _ E) as (W & _ & F).
  pose proof (f_rows _ _ _ _ _ _ _ F) as HA.
  pose proof (f_bounds _ _ _ _ _ _ _ F) as Hb.
  split_and!; [done| |lia|].
  - apply Forall_lookup. intros k row Erow.
    destruct (lookup_lt_is_Some_2 (lp_b prog) k) as [bk Ebk].
    { apply lookup_lt_Some in Erow. lia. }
    destruct (program_row_cases inv trans_probs policy gamma l1 r_max
                prog k row bk W F Erow Ebk)
      as [(i & a & Hi & Ha & Hne & -> & _)
         |[(i & a & Hi & Ha & Hne & -> & _)
          |[(i & Hi & -> & _)|[(i & Hi & -> & _)|(i & Hi & -> & _)]]]].
    + rewrite length_app, length_map, length_margin, length_zeros. lia.
    + rewrite length_app, length_map, length_margin, length_insert,
        length_zeros. lia.
    + unfold bound_row. by rewrite length_insert, length_zeros.
    + unfold bound_row. by rewrite length_insert, length_zeros.
    + unfold slack_row, bound_row. by rewrite !length_insert, length_zeros.
  - unfold linear_irl_lp in E.
    apply bind_inv in E as ([A1 calls1] & _ & E).
    apply bind_inv in E as ([A2 b2] & _ & E).
    apply bind_inv in E as ([A3 b3] & _ & E).
    apply bind_inv in E as (A4 & _ & E).
    apply bind_inv in E as (A5 & _ & E).
    apply bind_inv in E as (c & Ec & E). injection E as <- _.
    cbn [lp_c]. rewrite (objective_loop_length _ _ _ _ Ec).
    apply length_zeros.
Qed.

Lemma program_dimensions_witness :
  exists prog,
    linear_irl_lp Sample.inv_small Sample.T2 [[1; 0]; [1; 0]] (1 # 2) 10 1
      = Ok (prog, 2%nat) /\
    length (lp_A prog) = 12%nat /\
    Forall (fun row => length row = 6%nat) (lp_A prog) /\
    length (lp_b prog) = length (lp_A prog) /\
    length (lp_c prog) = 6%nat.
Proof.
  eexists. split; [vm_compute; reflexivity|].
  apply (program_dimensions Sample.inv_small Sample.T2 [[1; 0]; [1; 0]]
           (1 # 2) 10 1 _ 2%nat).
  reflexivity.
Defined.

Lemma zero_point_feasible_witness :
  well_posed Sample.inv_small Sample.T2 [[1; 0]; [1; 0]] (1 # 2) /\
  0 <= 1 /\
  exists prog,
    linear_irl_lp Sample.inv_small Sample.T2 [[1; 0]; [1; 0]] (1 # 2) 10 1
      = Ok (prog, 2%nat) /\
    feasible (lp_A prog) (lp_b prog) (zeros 6).
Proof.
  split; [exact sample_well_posed|]. split; [discriminate|].
  apply (zero_point_feasible Sample.inv_small Sample.T2 [[1; 0]; [1; 0]]
           (1 # 2) 10 1 sample_well_posed).
  discriminate.
Defined.

Lemma linear_irl_lp_no_actions_witness :
  shape2 (Tensor 1 0 (fun _ _ _ => 0)) = 0%nat /\
  exists err,
    linear_irl_lp Sample.inv_small (Tensor 1 0 (fun _ _ _ => 0)) [[]]
      (1 # 2) 10 5 = Err err.
Proof.
  split; [reflexivity|].
  apply (linear_irl_lp_no_actions Sample.inv_small
           (Tensor 1 0 (fun _ _ _ => 0)) [[]] (1 # 2) 10 5);
    [reflexivity|simpl; lia].
Defined.

(** ** More about [value_iteration] *)

(** On a well-formed environment the loop either has not come to an end
    within the fuel, or it returns the values of a pass whose [delta] is
    below [theta]. *)
Lemma vi_loop_cases (e : env) (theta discount_factor : Q) fuel :
  well_formed e ->
  forall V : vec, length V = nS e ->
    vi_loop e theta discount_factor fuel V = Diverge \/
    exists V_old : vec,
      length V_old = nS e /\
      pass_delta e discount_factor (nS e) V_old < theta /\
      vi_loop e theta discount_factor fuel V
        = Ok (pass_values e discount_factor (nS e) V_old).
Proof.
  intros WF. induction fuel as [|fuel IH]; intros V HV; [by left|].
  cbn [vi_loop]. rewrite (sweep_Ok e discount_factor WF V HV), bind_Ok.
  destruct (Qlt_le_dec (pass_delta e discount_factor (nS e) V) theta)
    as [Hlt|Hge].
  - right. by exists V.
  - apply IH. by rewrite length_pass_values.
Qed.

(** X6.  On a well-formed environment [value_iteration] raises nothing:
    whatever the tolerance and the discount factor, the call either is
    still running when the fuel is spent or returns a value function and a
    policy with one entry per state. *)
Theorem value_iteration_never_raises
    (e : env) (theta discount_factor : Q) (fuel : nat) :
  well_formed e ->
  value_iteration e theta discount_factor fuel = Diverge \/
  exists (policy : matrix) (V : vec),
    value_iteration e theta discount_factor fuel = Ok (policy, V) /\
    length policy = nS e /\ length V = nS e.
Proof.
  intros WF. unfold value_iteration.
  destruct (vi_loop_cases e theta discount_factor fuel WF (zeros (nS e))
              (length_zeros _)) as [->|(V_old & Hlen & _ & ->)]; [by left|].
  right. rewrite bind_Ok.
  set (V := pass_values e discount_factor (nS e) V_old).
  assert (length V = nS e) as HV by (unfold V; by rewrite length_pass_values).
  destruct (greedy_policy_Ok e discount_factor WF V HV) as [policy Epol].
  exists policy, V. rewrite Epol, bind_Ok. split; [done|]. split; [|done].
  by destruct (greedy_policy_spec _ _ _ _ Epol).
Qed.

Lemma value_iteration_never_raises_witness :
  well_formed Sample.env2 /\
  (value_iteration Sample.env2 (1 # 1000) 3 5 = Diverge \/
   exists (policy : matrix) (V : vec),
     value_iteration Sample.env2 (1 # 1000) 3 5 = Ok (policy, V) /\
     length policy = nS Sample.env2 /\ length V = nS Sample.env2).
Proof.
  split; [exact (proj1 sample_env2_mdp)|].
  exact (value_iteration_never_raises Sample.env2 (1 # 1000) 3 5
           (proj1 sample_env2_mdp)).
Defined.

(** The [delta] of a pass is never negative, on any environment. *)
Lemma sweep_delta_nonneg (e : env) (discount_factor : Q) (V V' : vec) delta :
  sweep e discount_factor V = Ok (delta, V') -> 0 <= delta.
Proof.
  intros E.
  apply (for_range_partial (fun (_ : nat) (st : Q * vec) => 0 <= st.1)
           (nS e) (sweep_state e discount_factor) (0, V) (delta, V'));
    [apply Qle_refl| |exact E].
  intros s [d W] [d' W'] _ Hd Ebody; cbn [fst snd] in *.
  unfold sweep_state in Ebody.
  apply bind_inv in Ebody as (A & _ & Ebody).
  apply bind_inv in Ebody as (best & _ & Ebody).
  apply bind_inv in Ebody as (old & _ & Ebody).
  apply bind_inv in Ebody as (W'' & _ & Ebody).
  injection Ebody as <- _.
  eapply Qle_trans; [exact Hd|apply Q.le_max_l].
Qed.

(** X9.  A tolerance that is not positive is never met: with
    [theta <= 0] the test [delta < theta] fails at every pass, and
    [value_iteration] returns on no environment, with no fuel. *)
Theorem value_iteration_needs_positive_theta
    (e : env) (theta discount_factor : Q) (fuel : nat) :
  theta <= 0 ->
  forall result, value_iteration e theta discount_factor fuel <> Ok result.
Proof.
  intros Ht.
  assert (forall (V V' : vec),
            vi_loop e theta discount_factor fuel V <> Ok V') as Hloop.
  { induction fuel as [|fuel IH]; intros V V'; [done|].
    cbn [vi_loop]. intros E.
    apply bind_inv in E as ([delta W] & Esweep & E).
    apply sweep_delta_nonneg in Esweep.
    destruct (Qlt_le_dec delta theta) as [Hlt|Hge]; [lra|].
    by apply IH in E. }
  intros [policy V] E. unfold value_iteration in E.
  apply bind_inv in E as (V' & EV & _). by apply Hloop in EV.
Qed.

Lemma value_iteration_needs_positive_theta_witness :
  0 <= 0 /\
  value_iteration Sample.env_zero 0 (1 # 2) 7 = Diverge.
Proof.
  split; [discriminate|].
  pose proof (value_iteration_needs_positive_theta Sample.env_zero 0 (1 # 2) 7
                ltac:(discriminate)) as H.
  destruct (value_iteration Sample.env_zero 0 (1 # 2) 7) as [r| |] eqn:E.
  - by destruct (H r).
  - by vm_compute in E.
  - reflexivity.
Defined.

(** X10.  Environments without actions or without states.  With a state
    and no action, the first lookahead is empty and [np.max] raises
    [ValueError]; with no state, a positive tolerance is met by the first
    (empty) pass and the call returns an empty policy and value function. *)
Theorem value_iteration_degenerate
    (e : env) (theta discount_factor : Q) (fuel : nat) :
  ((0 < nS e)%nat -> nA e = 0%nat ->
   value_iteration e theta discount_factor (S fuel) = Err ValueError) /\
  (nS e = 0%nat -> 0 < theta ->
   value_iteration e theta discount_factor (S fuel) = Ok ([], [])).
Proof.
  split.
  - intros Hs Ha. unfold value_iteration. cbn [vi_loop].
    unfold sweep, for_range. destruct (nS e) as [|n]; [lia|].
    cbn [seq for_each]. unfold sweep_state, one_step_lookahead.
    rewrite Ha. reflexivity.
  - intros Hs Ht. unfold value_iteration. cbn [vi_loop].
    unfold sweep, greedy_policy, for_range. rewrite Hs.
    cbn [seq for_each]. rewrite bind_Ok.
    destruct (Qlt_le_dec 0 theta) as [_|Hge]; [done|lra].
Qed.

Lemma value_iteration_degenerate_witness :
  value_iteration (Env 1 0 [[]]) (1 # 1000) (1 # 2) 1 = Err ValueError /\
  value_iteration (Env 0 3 []) (1 # 1000) (1 # 2) 1 = Ok ([], []).
Proof.
  split.
  - apply (proj1 (value_iteration_degenerate (Env 1 0 [[]]) (1 # 1000)
                    (1 # 2) 0)); [simpl; lia|reflexivity].
  - apply (proj2 (value_iteration_degenerate (Env 0 3 []) (1 # 1000)
                    (1 # 2) 0)); reflexivity.
Defined.

(** ** More about [irl] *)

(** [np.argmax] reads back the position of the 1 of a one-hot row. *)
Lemma np_argmax_one_hot k a :
  (a < k)%nat -> np_argmax (<[a := 1]> (zeros k)) = Ok a.
Proof.
  intros Ha. destruct (one_hot_row k a Ha) as [_ Hrow].
  assert (length (<[a := 1]> (zeros k)) = k) as Hlen
    by (by rewrite length_insert, length_zeros).
  destruct (np_argmax (<[a := 1]> (zeros k))) as [a'|err|] eqn:E.
  - destruct (np_argmax_spec _ _ E) as (b & Hb & Hle & _).
    apply lookup_lt_Some in Hb as Ha'. rewrite Hlen in Ha'.
    rewrite (Hrow a' Ha') in Hb. injection Hb as <-.
    assert (<[a := 1]> (zeros k) !! a = Some 1) as Hone
      by (rewrite (Hrow a Ha); by destruct (decide (a = a))).
    pose proof (Hle a 1 Hone) as H1.
    case_decide as Ea; [by subst|]. lra.
  - destruct (<[a := 1]> (zeros k)) eqn:El; [simpl in Hlen; lia|done].
  - destruct (<[a := 1]> (zeros k)) eqn:El; done.
Qed.

(** X14.  The policy survives the round trip from [value_iteration] to
    [linear_irl]: whenever [value_iteration] returns, the action that
    [linear_irl] decodes from row [s] of the policy by [np.argmax] is an
    action of the environment, the very one [value_iteration] chose for [s]
    as the first maximiser of the lookahead. *)
Theorem irl_policy_round_trip
    (e : env) (theta discount_factor : Q) (fuel : nat)
    (policy : matrix) (V : vec) :
  value_iteration e theta discount_factor fuel = Ok (policy, V) ->
  forall s, (s < nS e)%nat ->
    exists (A : vec) (a : nat),
      one_step_lookahead e discount_factor s V = Ok A /\
      np_argmax A = Ok a /\ (a < nA e)%nat /\
      chosen_action policy s = Ok a.
Proof.
  intros E s Hs. unfold value_iteration in E.
  apply bind_inv in E as (V' & _ & E).
  apply bind_inv in E as (pol & Epol & E). injection E as -> ->.
  destruct (greedy_policy_spec _ _ _ _ Epol) as [_ Hrows].
  destruct (Hrows s Hs) as (A & a & EA & Ea & Ha & Hrow).
  exists A, a. split_and!; try done.
  unfold chosen_action. rewrite Hrow. cbn [of_lookup]. rewrite bind_Ok.
  by apply np_argmax_one_hot.
Qed.

Lemma irl_policy_round_trip_witness :
  exists (A : vec) (a : nat),
    one_step_lookahead Sample.env2 (1 # 2) 1 [4094 # 2048; 4094 # 2048]
      = Ok A /\
    np_argmax A = Ok a /\ (a < nA Sample.env2)%nat /\
    chosen_action [[1; 0]; [1; 0]] 1 = Ok a.
Proof.
  apply (irl_policy_round_trip Sample.env2 (1 # 1000) (1 # 2) 30
           [[1; 0]; [1; 0]] [4094 # 2048; 4094 # 2048]).
  - vm_compute. reflexivity.
  - simpl. lia.
Defined.

Section ReadEnvironment.
Variable e : env.
Hypothesis WF : well_formed e.
Hypothesis nonempty : forall s a, (s < nS e)%nat -> (a < nA e)%nat ->
  is_Some (first_tuple e s a).

Lemma first_tuple_out_of_range s a :
  (nS e <= s \/ nA e <= a)%nat -> first_tuple e s a = None.
Proof.
  destruct WF as (_ & HP & Hall). intros H. unfold first_tuple.
  destruct (P e !! s) as [by_a|] eqn:Es; [|done].
  apply lookup_lt_Some in Es as Hs.
  destruct (Hall s by_a Es) as [Hlen _].
  rewrite (proj2 (lookup_ge_None by_a a)); [done|lia].
Qed.

Lemma read_transition_step i value j st :
  (i < nS e)%nat -> P e !! i = Some value -> (j < nA e)%nat ->
  read_upto e i j st ->
  exists st', read_transition i value j st = Ok st' /\ read_upto e i (S j) st'.
Proof.
  intros Hi Ev Hj. destruct st as [T r].
  intros (H0 & H2 & Hr & HT & HR); cbn [fst snd] in *.
  destruct WF as (_ & HP & Hall). destruct (Hall i value Ev) as [Hlen Hns].
  destruct (nonempty i j Hi Hj) as [t Et].
  pose proof Et as Et'. unfold first_tuple in Et'. rewrite Ev in Et'.
  destruct (value !! j) as [[|t0 ts]|] eqn:Ej; try done.
  injection Et' as ->.
  pose proof (Hns j _ Ej) as Hin. apply Forall_cons in Hin as [Hin _].
  unfold read_transition. rewrite Ej. cbn [of_lookup]. rewrite bind_Ok.
  change ((t :: ts) !! 0%nat) with (Some t). cbn [of_lookup].
  rewrite bind_Ok. unfold tensor_set, set_item.
  rewrite !decide_True by lia. rewrite !bind_Ok.
  eexists. split; [reflexivity|].
  unfold read_upto; cbn [fst snd shape0 shape2 tcell].
  split; [done|]. split; [done|].
  split; [by rewrite length_insert|]. split.
  - intros s s' a. rewrite HT.
    destruct (decide (s = i /\ a = j)) as [[-> ->]|Hne].
    + rewrite (decide_False (P := (i < i \/ i = i /\ j < j)%nat)) by lia.
      rewrite (decide_True (P := (i < i \/ i = i /\ j < S j)%nat)) by lia.
      unfold first_tuple_prob. rewrite Et.
      destruct (decide (s' = next_state t)) as [->|Hs'].
      * by rewrite decide_True.
      * by rewrite decide_False by (intros (_ & ? & _); done).
    + rewrite decide_False by (intros (? & _ & ?); by apply Hne).
      destruct (decide (s < i \/ s = i /\ a < j)%nat) as [H|H].
      * by rewrite decide_True by lia.
      * by rewrite decide_False by lia.
  - intros k Hk. destruct (decide (next_state t = k)) as [<-|Hne].
    + right. exists i, j, t. split; [done|]. split; [done|].
      apply nth_insert_eq. lia.
    + rewrite nth_insert_ne by done. by apply HR.
Qed.

Lemma read_state_step i st :
  (i < nS e)%nat -> read_upto e i 0 st ->
  exists st', read_state e i st = Ok st' /\ read_upto e (S i) 0 st'.
Proof.
  intros Hi Hst. pose proof WF as (_ & HP & Hall).
  destruct (lookup_lt_is_Some_2 (P e) i ltac:(lia)) as [value Ev].
  destruct (Hall i value Ev) as [Hlen _].
  unfold read_state. rewrite Ev. cbn [of_lookup]. rewrite bind_Ok, Hlen.
  destruct (for_range_total (fun j st => read_upto e i j st) (nA e)
              (read_transition i value) st Hst) as (st' & E & Hst').
  { intros j s Hj Hs. by apply read_transition_step. }
  exists st'. split; [done|].
  destruct Hst' as (H0 & H2 & Hr & HT & HR).
  split; [done|]. split; [done|]. split; [done|]. split; [|done].
  intros s s' a. rewrite HT.
  destruct (decide (s < i \/ s = i /\ a < nA e)%nat) as [H|H].
  - by rewrite decide_True by lia.
  - destruct (decide (s < S i \/ s = S i /\ a < 0)%nat) as [H'|H']; [|done].
    unfold first_tuple_prob.
    rewrite first_tuple_out_of_range; [done|lia].
Qed.

Lemma read_environment :
  exists trans_probs rewards,
    for_range (length (P e)) (read_state e)
      (Tensor (nS e) (nA e) (fun _ _ _ => 0), zeros (nS e))
      = Ok (trans_probs, rewards) /\
    read_upto e (nS e) 0 (trans_probs, rewards).
Proof.
  pose proof WF as (_ & HP & _). rewrite HP.
  destruct (for_range_total (fun i st => read_upto e i 0 st) (nS e)
              (read_state e)
              (Tensor (nS e) (nA e) (fun _ _ _ => 0), zeros (nS e)))
    as ([T r] & E & H).
  - unfold read_upto; cbn [fst snd shape0 shape2 tcell].
    split; [done|]. split; [done|]. split; [apply length_zeros|]. split.
    + intros s s' a. by rewrite decide_False by lia.
    + intros k Hk. left. apply nth_lookup_Some. by apply lookup_zeros.
  - intros i s Hi Hs. by apply read_state_step.
  - by exists T, r.
Qed.

End ReadEnvironment.

(** X15.  The transition tensor that [irl] hands to [linear_irl] holds,
    for every pair [(s, a)], the first tuple of [env.P[s][a]] and nothing
    else: the probability of that tuple at its [next_state], and 0 at every
    other successor, whatever the other tuples of the list say.  The
    rewards that are plotted as the true ones are 0 or the reward of such a
    first tuple entering the state.  On a well-formed environment with no
    empty transition list the two loops raise nothing. *)
Theorem irl_reads_first_tuples
    (inv : nat -> sqmat -> option sqmat)
    (lp : vec -> matrix -> vec -> outcome (option vec))
    (e : env) (gamma l1 r_max : Q) (fuel : nat) :
  well_formed e ->
  (forall s a, (s < nS e)%nat -> (a < nA e)%nat ->
     is_Some (first_tuple e s a)) ->
  exists (trans_probs : tensor) (rewards : vec),
    shape0 trans_probs = nS e /\ shape2 trans_probs = nA e /\
    length rewards = nS e /\
    (forall s s' a,
       tcell trans_probs s s' a = first_tuple_prob e s s' a) /\
    (forall k, (k < nS e)%nat ->
       nth k rewards 0 = 0 \/
       exists s a t, first_tuple e s a = Some t /\ next_state t = k /\
                     nth k rewards 0 = reward t) /\
    irl inv lp e gamma l1 r_max fuel
      = ('(policy, values) ← value_iteration e (1 # 1000) gamma fuel;
         recovered ← linear_irl inv lp trans_probs policy gamma l1 r_max;
         '(_, recovered_vals) ← value_iteration e (1 # 1000) (9 # 10) fuel;
         Ok (Artifacts rewards values recovered recovered_vals)).
Proof.
  intros WF Hne.
  destruct (read_environment e WF Hne)
    as (T & r & E & H0 & H2 & Hr & HT & HR); cbn [fst snd] in *.
  exists T, r. split_and!; try done.
  - intros s s' a. rewrite HT.
    destruct (decide (s < nS e \/ s = nS e /\ a < 0)%nat) as [H|H]; [done|].
    unfold first_tuple_prob.
    rewrite first_tuple_out_of_range; [done|done|lia].
  - unfold irl. rewrite E, bind_Ok. reflexivity.
Qed.

Lemma sample_env_coin_well_formed : well_formed Sample.env_coin.
Proof.
  split; [right; simpl; lia|]. split; [done|].
  intros s by_a E.
  destruct s as [|[|s]]; simpl in E; [| |done]; injection E as <-.
  - split; [done|]. intros a ts Ea.
    destruct a as [|a]; simpl in Ea; [|done]. injection Ea as <-.
    repeat constructor.
  - split; [done|]. intros a ts Ea.
    destruct a as [|a]; simpl in Ea; [|done]. injection Ea as <-.
    repeat constructor.
Qed.

Lemma irl_reads_first_tuples_witness :
  well_formed Sample.env_coin /\
  exists (trans_probs : tensor) (rewards : vec),
    shape0 trans_probs = nS Sample.env_coin /\
    shape2 trans_probs = nA Sample.env_coin /\
    length rewards = nS Sample.env_coin /\
    (forall s s' a,
       tcell trans_probs s s' a = first_tuple_prob Sample.env_coin s s' a) /\
    (forall k, (k < nS Sample.env_coin)%nat ->
       nth k rewards 0 = 0 \/
       exists s a t, first_tuple Sample.env_coin s a = Some t /\
                     next_state t = k /\ nth k rewards 0 = reward t) /\
    irl Sample.inv_small Sample.lp_const Sample.env_coin (3 # 10) 10 5 40
      = ('(policy, values) ←
           value_iteration Sample.env_coin (1 # 1000) (3 # 10) 40;
         recovered ← linear_irl Sample.inv_small Sample.lp_const trans_probs
                       policy (3 # 10) 10 5;
         '(_, recovered_vals) ←
           value_iteration Sample.env_coin (1 # 1000) (9 # 10) 40;
         Ok (Artifacts rewards values recovered recovered_vals)).
Proof.
  split; [exact sample_env_coin_well_formed|].
  apply (irl_reads_first_tuples Sample.inv_small Sample.lp_const
           Sample.env_coin (3 # 10) 10 5 40 sample_env_coin_well_formed).
  intros s a Hs Ha. simpl in Hs, Ha.
  destruct s as [|[|s]]; [| |lia]; (destruct a as [|a]; [|lia]);
    by eexists.
Defined.

(** ** When [linear_irl] returns *)

(** On the solver's column [normalise] returns exactly when the entries
    are not all equal. *)
Lemma normalise_cvxopt_returns (v : vec) :
  (exists out, normalise (CvxoptMatrix v) = Ok out) <-> ~ constant v.
Proof.
  split.
  - intros [out E] Hc.
    destruct v as [|x0 v]; [done|].
    rewrite (normalise_cvxopt_constant (x0 :: v)) in E by done.
    discriminate E.
  - intros Hnc.
    assert (v <> []) as Hne.
    { intros ->. apply Hnc. intros x y Hx. by apply not_elem_of_nil in Hx. }
    destruct (np_min_spec v Hne) as (lo & Elo & _ & Hmin).
    destruct (np_max_spec v Hne) as (hi & Ehi & _ & Hmax).
    unfold normalise. cbn [entries]. rewrite Elo, Ehi.
    cbn [mbind outcome_bind].
    destruct (Qeq_dec (hi - lo) 0) as [Hd|Hd]; [|by eexists].
    exfalso. apply Hnc. intros x y Hx Hy.
    pose proof (Hmin x Hx). pose proof (Hmax x Hx).
    pose proof (Hmin y Hy). pose proof (Hmax y Hy). lra.
Qed.

(** X16.  When [linear_irl] returns.  It returns a reward vector exactly
    when every state decodes to an action of the tensor whose matrix
    [I - gamma * P_a] the inverse accepts, the solver returns a solution
    vector, and the reward block of that vector is not constant.  On a
    constant block, hence on every input with a single state, the division
    of [normalise] raises [ZeroDivisionError]. *)
Theorem linear_irl_returns_iff
    (inv : nat -> sqmat -> option sqmat)
    (lp : vec -> matrix -> vec -> outcome (option vec))
    (trans_probs : tensor) (policy : matrix) (gamma l1 r_max : Q) :
  (exists out,
     linear_irl inv lp trans_probs policy gamma l1 r_max = Ok out) <->
  (well_posed inv trans_probs policy gamma /\
   exists prog x,
     linear_irl_lp inv trans_probs policy gamma l1 r_max
       = Ok (prog, shape0 trans_probs) /\
     lp (lp_c prog) (lp_A prog) (lp_b prog) = Ok (Some x) /\
     ~ constant (take (shape0 trans_probs) x)).
Proof.
  split.
  - intros [out E]. unfold linear_irl in E.
    apply bind_inv in E as ([prog calls] & Eprog & E).
    apply bind_inv in E as (sol_x & Esol & E).
    apply bind_inv in E as (x & Ex & E).
    destruct sol_x as [x'|]; [|done]. injection Ex as ->.
    destruct (linear_irl_lp_returned _ _ _ _ _ _ _ _ Eprog)
      as (W & -> & _).
    unfold scaled_rewards in E.
    apply bind_inv in E as (normalised & En & _).
    split; [done|]. exists prog, x. split; [done|]. split; [done|].
    apply normalise_cvxopt_returns. by exists normalised.
  - intros (_ & prog & x & Eprog & Elp & Hx).
    apply normalise_cvxopt_returns in Hx as [normalised En].
    unfold linear_irl. rewrite Eprog, bind_Ok, Elp, bind_Ok.
    cbn [of_lookup]. rewrite bind_Ok. unfold scaled_rewards.
    rewrite En, bind_Ok. by eexists.
Qed.

(** X19.  A constant solution never comes back: when the solver returns
    a vector whose reward block is not empty and has all its entries equal,
    as every block of a single state has, [linear_irl] raises
    [ZeroDivisionError]. *)
Theorem linear_irl_constant_block
    (inv : nat -> sqmat -> option sqmat)
    (lp : vec -> matrix -> vec -> outcome (option vec))
    (trans_probs : tensor) (policy : matrix) (gamma l1 r_max : Q)
    (prog : lin_prog) (calls : nat) (x : vec) :
  linear_irl_lp inv trans_probs policy gamma l1 r_max = Ok (prog, calls) ->
  lp (lp_c prog) (lp_A prog) (lp_b prog) = Ok (Some x) ->
  take (shape0 trans_probs) x <> [] ->
  constant (take (shape0 trans_probs) x) ->
  linear_irl inv lp trans_probs policy gamma l1 r_max
    = Err ZeroDivisionError.
Proof.
  intros E Elp Hne Hc.
  rewrite (linear_irl_solved _ _ _ _ _ _ _ _ _ _ E Elp).
  unfold scaled_rewards.
  by rewrite (normalise_cvxopt_constant _ Hne Hc).
Qed.

Lemma linear_irl_constant_block_witness :
  linear_irl Sample.inv_small Sample.lp_const Sample.T1 [[1]] (1 # 2) 10 1
    = Err ZeroDivisionError.
Proof.
  apply (linear_irl_constant_block Sample.inv_small Sample.lp_const Sample.T1
           [[1]] (1 # 2) 10 1
           (LinProg [0; -1; 10]
                    [[1; 0; 0]; [-1; 0; 0]; [1; 0; -1]; [1; 0; -1]]
                    [1; 0; 0; 0]) 1%nat [1; 2; 3; 4; 5; 6]).
  - reflexivity.
  - reflexivity.
  - discriminate.
  - intros x y Hx Hy. cbn [shape0 Sample.T1 take] in Hx, Hy.
    apply list_elem_of_singleton in Hx as ->.
    by apply list_elem_of_singleton in Hy as ->.
Defined.
